(** * Skein: the publish pipeline, the entry index, view regeneration and
    the webmention handler of [site.ts], embedded in Rocq.

    The class [Site] is stateful and asynchronous.  Its methods are written
    here as programs of a small free monad [prog] whose operations are the
    effects the class performs (the mutex, the content store, the in-memory
    entry map, the remote calls).  A handler gives the operations their
    meaning on a [World]; [run] executes one call sequentially, [sched]
    interleaves several calls at their operations. *)

From stdpp Require Import base option list strings gmap fin_maps sorting pretty.

Set Warnings "-register-all".
Set Default Proof Using "Type*".

Local Open Scope string_scope.

(** ** Data model *)

(** [mfo.Card], as far as [getAuthor] fills it. *)
Record Card := mkCard {
  card_url : string;
  card_name : string;
  card_photo : option string }.

(** [{value, html}] of [entry.content] and [entry.embed]. *)
Record Content := mkContent {
  value : string;
  html : string }.

(** A JavaScript [Date]: the timestamp that [byDateDesc] compares and the
    calendar fields that [getSlug] reads ([getMonth] counts from 0). *)
Record Date := mkDate {
  getTime : Z;
  getFullYear : nat;
  getMonth : nat;
  getDate : nat }.

(** [mfo.Entry]: the fields [site.ts] reads or assigns. *)
Inductive Entry := mkEntry {
  url : string;
  name : string;
  published : Date;
  content : Content;
  author : option Card;
  replyTo : list Entry;
  likeOf : list Entry;
  repostOf : list Entry;
  category : list string;
  syndication : list string;
  syndicateTo : option (list string);
  embed : option Content;
  children : list Entry }.

(** A field of the submission that is [string | string[]]. *)
Inductive OneOrMany :=
| One (s : string)
| Many (l : list string).

(** [content: string | {html: string}]. *)
Inductive MContent :=
| Text (s : string)
| Html (h : string).

Record Upload := mkUpload {
  filename : string;
  tmpfile : string;
  mimetype : string }.

(** [interface Micropub]; an absent field is [None]. *)
Module Micropub.
Record t := mk {
  name : option string;
  content : option MContent;
  replyTo : option string;
  likeOf : option string;
  repostOf : option string;
  category : option OneOrMany;
  syndication : option OneOrMany;
  photo : option Upload;
  audio : option Upload;
  syndicateTo : option OneOrMany }.
End Micropub.

(** [interface SiteConfig]: the fields the modelled methods use. *)
Module SiteConfig.
Record t := mk {
  url : string;
  author_name : string;
  author_photo : option string;
  entriesPerPage : nat }.
End SiteConfig.

(** What [publisher.put] is given: rendered HTML or a read stream. *)
Inductive body :=
| Str (s : string)
| Stream (tmpfile : string).

(** What [publisher.get] answers. *)
Record Obj := mkObj {
  Body : body;
  ContentType : option string }.

(** ** Errors

    Every thrown value carries the place that threw it. *)
Inductive error :=
| BadRequest (msg : string)          (* util.BadRequest *)
| NotFound (msg : string)            (* Error(u + ' not found') of [get] *)
| StoreError (key : string)          (* a publisher call rejected *)
| FetchError (u : string)            (* mfo.getEntry rejected *)
| ParseError (u : string)            (* mfo.getEntryFromHtml rejected *)
| TypeError                          (* a member of null was read *)
| OembedError (link : string)        (* oembed rejected *)
| WebmentionError (link : string)    (* util.sendWebmention rejected *)
| SyndicationError.                  (* posse.syndicate rejected *)

(** ** Collaborators *)

(** Modelled from the spec: the content store contract of section 6
    ([./publisher] is not part of the sources at hand).  [list], [get],
    [put], [delete] and [commit] may reject ([None]); a rejected call leaves
    the store as it was.  The three backends are instances. *)
Class Publisher (S : Type) := {
  pub_list : S → option (list string);
  pub_get : S → string → option Obj;
  pub_exists : S → string → bool;
  pub_put : S → string → body → option string → option S;
  pub_delete : S → string → option string → option S;
  pub_commit : S → string → option S }.

(** The result of [mfo.getEntryFromHtml]: it rejects, or resolves to null
    (the code tests [entry != null]) or to an entry. *)
Inductive parsed :=
| Rejected
| Null
| Parsed (e : Entry).

(** The functions of the [mf-obj] package that [site.ts] calls. *)
Class MfObj := {
  getEntryFromHtml : body → string → parsed;
  getMentions : Entry → list string;
  isReply : Entry → bool;
  isLike : Entry → bool;
  isArticle : Entry → bool;
  getPath : Entry → string;
  addChild : Entry → Entry → Entry }.

(** The string helpers of [./util] and of Node's [url] and [path]. *)
Class Helpers := {
  kebabCase : string → string;
  autoLink : string → string;
  escapeHtml : string → string;
  stripHtml : string → string;
  truncate : string → nat → string;
  collapse : string → string;
  url_resolve : string → string → string;
  url_pathname : string → string;
  path_join : string → string → string;
  path_dirname : string → string }.

(** The compiled jade templates.  Each receives [site: this], so a page may
    depend on the configuration and on the entry map at rendering time. *)
Class Templates := {
  _renderEntry : SiteConfig.t → gmap string Entry → Entry → string;
  _renderStream :
    SiteConfig.t → gmap string Entry → list Entry → nat → nat → string;
  _renderReplyStream :
    SiteConfig.t → gmap string Entry → list Entry → nat → nat → string;
  _renderIndex :
    SiteConfig.t → gmap string Entry → string → list Entry → string }.

(** The outside world: the clock and the remote services.  Every answer may
    depend on the moment of asking, counted in operations performed. *)
Record Env := mkEnv {
  env_now : nat → Date;
  env_fetch : nat → string → list string → option Entry;
  env_oembed : nat → string → option string;
  env_syndicate : nat → Entry → option (list string);
  env_send : nat → string → string → bool }.

(** ** Programs *)

(** The effects of [Site]'s methods. *)
Inductive op :=
| OLock                                   (* await this.mutex.lock() *)
| ORelease                                (* release() *)
| ONow                                    (* new Date() *)
| OList                                   (* publisher.list() *)
| OGet (key : string)                     (* publisher.get(key) *)
| OExists (key : string)                  (* publisher.exists(key) *)
| OPut (key : string) (b : body) (ctype : option string)
| ODelete (key : string) (ctype : option string)
| OCommit (msg : string)
| OEntries                                (* read this.entries *)
| OEntriesSet (u : string) (e : Entry)    (* this.entries.set(u, e) *)
| OEntriesDelete (u : string)             (* this.entries.delete(u) *)
| OEntriesAssign (m : gmap string Entry)  (* this.entries = m *)
| OFetch (u : string) (strategies : list string)   (* mfo.getEntry *)
| OOembed (link : string)                 (* oembed(link) *)
| OSyndicate (e : Entry)                  (* posse.syndicate(e) *)
| OSend (source target : string).         (* util.sendWebmention *)

(** What an operation answers. *)
Definition resp (o : op) : Type :=
  match o with
  | OLock | ORelease => unit
  | ONow => Date
  | OList => option (list string)
  | OGet _ => option Obj
  | OExists _ => bool
  | OPut _ _ _ | ODelete _ _ | OCommit _ => bool
  | OEntries => gmap string Entry
  | OEntriesSet _ _ | OEntriesDelete _ | OEntriesAssign _ => unit
  | OFetch _ _ => option Entry
  | OOembed _ => option string
  | OSyndicate _ => option (list string)
  | OSend _ _ => bool
  end.

(** A program returns, throws, performs an operation and continues with its
    answer, or has used up the fuel of a [while] loop. *)
Inductive prog (A : Type) : Type :=
| Ret (a : A)
| Throw (e : error)
| Spin
| Op (o : op) (k : resp o → prog A).

Arguments Ret {A} a.
Arguments Throw {A} e.
Arguments Spin {A}.
Arguments Op {A} o k.

Fixpoint bind {A B} (p : prog A) (f : A → prog B) : prog B :=
  match p with
  | Ret a => f a
  | Throw e => Throw e
  | Spin => Spin
  | Op o k => Op o (λ r, bind (k r) f)
  end.

#[export] Instance prog_ret : MRet prog := @Ret.
#[export] Instance prog_bind : MBind prog := λ A B f p, bind p f.

(** [try { p } catch (err) { h err }]. *)
Fixpoint try_catch {A} (p : prog A) (h : error → prog A) : prog A :=
  match p with
  | Ret a => Ret a
  | Throw e => h e
  | Spin => Spin
  | Op o k => Op o (λ r, try_catch (k r) h)
  end.

(** [try { p } finally { f }]: [f] runs on both exits of [p]. *)
Fixpoint try_finally {A} (p : prog A) (f : prog unit) : prog A :=
  match p with
  | Ret a => bind f (λ _, Ret a)
  | Throw e => bind f (λ _, Throw e)
  | Spin => Spin
  | Op o k => Op o (λ r, try_finally (k r) f)
  end.

Definition perform (o : op) : prog (resp o) := Op o Ret.

(** [for (let x of l) { ... }] with an accumulator. *)
Fixpoint for_of {A B} (l : list A) (b : B) (f : B → A → prog B) : prog B :=
  match l with
  | [] => Ret b
  | x :: l' => bind (f b x) (λ b', for_of l' b' f)
  end.

(** Modelled from the spec: [util.map(list, fn)] awaits [fn] on every
    element; the calls are taken in list order. *)
Fixpoint util_map {A} (l : list A) (f : A → prog unit) : prog unit :=
  match l with
  | [] => Ret ()
  | x :: l' => bind (f x) (λ _, util_map l' f)
  end.

(** ** The world and the handler of operations *)

(** One performed operation: who performed it and whether it succeeded
    (operations that cannot reject always succeed). *)
Record event := mkEvent {
  ev_task : nat;
  ev_op : op;
  ev_ok : bool }.

(** The state of a [Site] together with its store: the publisher, the map
    [this.entries], the mutex and the operations performed so far, newest
    first. *)
Record World (S : Type) := mkWorld {
  store : S;
  entries : gmap string Entry;
  locked : bool;
  trace : list event }.

Arguments mkWorld {S} _ _ _ _.
Arguments store {S} _.
Arguments entries {S} _.
Arguments locked {S} _.
Arguments trace {S} _.

(** How a call ends. *)
Inductive outcome (A : Type) :=
| Returned (a : A)
| Threw (e : error)
| Diverged          (* the fuel of a loop ran out *)
| Blocked.          (* waiting for the mutex *)

Arguments Returned {A} a.
Arguments Threw {A} e.
Arguments Diverged {A}.
Arguments Blocked {A}.

Section Handler.
Context {S : Type} `{!Publisher S}.
Variable env : Env.

Definition log (tid : nat) (o : op) (ok : bool) (w : World S) : World S :=
  mkWorld (store w) (entries w) (locked w) (mkEvent tid o ok :: trace w).

Definition set_store (s : S) (w : World S) : World S :=
  mkWorld s (entries w) (locked w) (trace w).

Definition set_entries (m : gmap string Entry) (w : World S) : World S :=
  mkWorld (store w) m (locked w) (trace w).

Definition set_locked (b : bool) (w : World S) : World S :=
  mkWorld (store w) (entries w) b (trace w).

(** A store call that may reject: the store changes only on success. *)
Definition store_call (tid : nat) (o : op) (r : option S) (w : World S)
  : bool * World S :=
  match r with
  | Some s => (true, log tid o true (set_store s w))
  | None => (false, log tid o false w)
  end.

(** Modelled from the spec: [util.Mutex] is a single mutual-exclusion
    lock.  [lock()] on a held mutex cannot be performed ([None]): the
    task waits.  The release function of the call that runs frees the
    mutex. *)
Definition mutex_lock (w : World S) : option (World S) :=
  if locked w then None else Some (set_locked true w).

Definition mutex_release (w : World S) : World S := set_locked false w.

(** The meaning of one operation of task [tid]. *)
Definition handle (tid : nat) (o : op) (w : World S)
  : option (resp o * World S) :=
  let t := length (trace w) in
  match o return option (resp o * World S) with
  | OLock => w' ← mutex_lock w; Some ((), log tid OLock true w')
  | ORelease => Some ((), log tid ORelease true (mutex_release w))
  | ONow => Some (env_now env t, log tid ONow true w)
  | OList =>
      let r := pub_list (store w) in
      Some (r, log tid OList (bool_decide (is_Some r)) w)
  | OGet key =>
      let r := pub_get (store w) key in
      Some (r, log tid (OGet key) (bool_decide (is_Some r)) w)
  | OExists key =>
      Some (pub_exists (store w) key, log tid (OExists key) true w)
  | OPut key b ctype =>
      Some (store_call tid (OPut key b ctype)
              (pub_put (store w) key b ctype) w)
  | ODelete key ctype =>
      Some (store_call tid (ODelete key ctype)
              (pub_delete (store w) key ctype) w)
  | OCommit msg =>
      Some (store_call tid (OCommit msg) (pub_commit (store w) msg) w)
  | OEntries => Some (entries w, log tid OEntries true w)
  | OEntriesSet u e =>
      Some ((), log tid (OEntriesSet u e) true
                  (set_entries (<[u:=e]> (entries w)) w))
  | OEntriesDelete u =>
      Some ((), log tid (OEntriesDelete u) true
                  (set_entries (delete u (entries w)) w))
  | OEntriesAssign m =>
      Some ((), log tid (OEntriesAssign m) true (set_entries m w))
  | OFetch u strategies =>
      let r := env_fetch env t u strategies in
      Some (r, log tid (OFetch u strategies) (bool_decide (is_Some r)) w)
  | OOembed link =>
      let r := env_oembed env t link in
      Some (r, log tid (OOembed link) (bool_decide (is_Some r)) w)
  | OSyndicate e =>
      let r := env_syndicate env t e in
      Some (r, log tid (OSyndicate e) (bool_decide (is_Some r)) w)
  | OSend s tg =>
      let r := env_send env t s tg in
      Some (r, log tid (OSend s tg) r w)
  end.

(** One call executed alone, as task [tid]. *)
Fixpoint run {A} (tid : nat) (p : prog A) (w : World S)
  : outcome A * World S :=
  match p with
  | Ret a => (Returned a, w)
  | Throw e => (Threw e, w)
  | Spin => (Diverged, w)
  | Op o k =>
      match handle tid o w with
      | Some (r, w') => run tid (k r) w'
      | None => (Blocked, w)
      end
  end.

(** The task that took the mutex last, read off the trace. *)
Fixpoint holder (tr : list event) : option nat :=
  match tr with
  | [] => None
  | ev :: tr' =>
      match ev_op ev with
      | OLock => Some (ev_task ev)
      | _ => holder tr'
      end
  end.

(** Modelled from the spec: [var release = await this.mutex.lock()]
    gives every call a release function of its own, and the mutex is a
    mutual-exclusion lock: a release function that is called after
    another call has taken the mutex belongs to an acquisition that is
    over, and frees nothing.  A call that runs alone never makes such a
    late call; with several calls in flight the [release()] in the
    [finally] of [publish], which follows the [release()] after the
    commit, can be one. *)
Definition late (tid : nat) (o : op) (w : World S) : bool :=
  match o with
  | ORelease => negb (bool_decide (holder (trace w) = Some tid))
  | _ => false
  end.

(** Several calls in flight: the scheduler picks a task and lets it
    perform its next operation.  A schedule is the list of picks. *)
Definition step (tid : nat) (ts : list (prog unit)) (w : World S)
  : option (list (prog unit) * World S) :=
  match ts !! tid with
  | Some (Op o k) =>
      match handle tid o w with
      | Some (r, w') =>
          Some (<[tid := k r]> ts, if late tid o w then log tid o true w else w')
      | None => None
      end
  | _ => None
  end.

Fixpoint sched (picks : list nat) (ts : list (prog unit)) (w : World S)
  : option (list (prog unit) * World S) :=
  match picks with
  | [] => Some (ts, w)
  | tid :: picks' =>
      match step tid ts w with
      | Some (ts', w') => sched picks' ts' w'
      | None => None
      end
  end.
End Handler.

(** ** Pure helpers of [./util] *)

(** Modelled from the spec: [util.chunk(size, list)] splits the list into
    consecutive chunks of [size] elements, the last one possibly shorter. *)
Fixpoint chunk_go {A} (fuel size : nat) (l : list A) : list (list A) :=
  match fuel with
  | 0 => []
  | S fuel' =>
      match l with
      | [] => []
      | _ => take size l :: chunk_go fuel' size (drop size l)
      end
  end.

Definition chunk {A} (size : nat) (l : list A) : list (list A) :=
  chunk_go (length l) size l.

(** Modelled from the spec: [util.range(lo, hi)] lists the integers from
    [lo] to [hi], both included; it is empty when [hi < lo]. *)
Definition range (lo hi : Z) : list Z := seqZ lo (hi - lo + 1).

(** Modelled from the spec: [util.unique] keeps one copy of every element
    and [util.flatten] concatenates. *)
Definition unique (l : list string) : list string := remove_dups l.
Definition flatten {A} (l : list (list A)) : list A := concat l.

(** The double quote and the line feed, for the HTML fragments and the
    commit messages. *)
Definition dq : string := String (Ascii.ascii_of_nat 34) EmptyString.
Definition lf : string := String (Ascii.ascii_of_nat 10) EmptyString.

(** JavaScript's [a || b] on an optional string: [undefined] and the empty
    string are falsy. *)
Definition or_else (a : option string) (b : string) : string :=
  match a with
  | Some s => if bool_decide (s = EmptyString) then b else s
  | None => b
  end.

(** [string | string[]] made a list, as [publish] does field by field. *)
Definition as_list (x : OneOrMany) : list string :=
  match x with
  | One s => [s]
  | Many l => l
  end.

(** The first argument of [getNextAvailable]: the empty string or a number.
    [n++] turns the empty string into 1, since [Number('')] is 0. *)
Inductive counter :=
| Blank
| Num (n : nat).

Definition incr (n : counter) : counter :=
  match n with
  | Blank => Num 1
  | Num k => Num (S k)
  end.

(** [prefix + n]: string concatenation prints a number in decimal. *)
Definition show (n : counter) : string :=
  match n with
  | Blank => EmptyString
  | Num k => pretty k
  end.

(** Modelled from the spec: [mfo.Entry.byDateDesc], the comparator of the
    [mf-obj] package, orders by publish timestamp, newest first. *)
Definition byDateDesc (a b : Entry) : Z :=
  (getTime (published b) - getTime (published a))%Z.

(** A comparator result that lets [a] stay before [b]. *)
Definition newer_first (a b : Entry) : Prop := (byDateDesc a b ≤ 0)%Z.

#[export] Instance newer_first_dec a b : Decision (newer_first a b) :=
  decide (byDateDesc a b ≤ 0)%Z.

(** [entries.sort(mfo.Entry.byDateDesc)]. *)
Definition sort_entries (l : list Entry) : list Entry :=
  merge_sort newer_first l.

(** [/^(index|js|css|tags|articles|replies)/.test(k)]. *)
Definition reserved (k : string) : bool :=
  String.prefix "index" k || String.prefix "js" k || String.prefix "css" k
  || String.prefix "tags" k || String.prefix "articles" k
  || String.prefix "replies" k.

(** [hiddenFilter = e => !e.category.some(c => c === 'hidden')]. *)
Definition hiddenFilter (e : Entry) : bool :=
  negb (existsb (λ c, bool_decide (c = "hidden")) (category e)).

(** [getPathForIndex(page)]. *)
Definition getPathForIndex (page : nat) : string :=
  "index" +:+ (if bool_decide (page = 1) then EmptyString else pretty page).

Definition set_embed (e : Entry) (c : option Content) : Entry :=
  mkEntry (url e) (name e) (published e) (content e) (author e) (replyTo e)
    (likeOf e) (repostOf e) (category e) (syndication e) (syndicateTo e)
    c (children e).

Definition set_syndication (e : Entry) (l : list string) : Entry :=
  mkEntry (url e) (name e) (published e) (content e) (author e) (replyTo e)
    (likeOf e) (repostOf e) (category e) l (syndicateTo e)
    (embed e) (children e).

(** ** The methods of [Site] *)

Section Site.
Context `{!MfObj, !Helpers, !Templates}.
Variable config : SiteConfig.t.

Definition mainFilter (e : Entry) : bool := negb (isReply e) && negb (isLike e).
Definition replyFilter (e : Entry) : bool := isReply e || isLike e.
Definition articleFilter (e : Entry) : bool := isArticle e.

Definition getPathForTag (category : string) : string :=
  "/tags/" +:+ kebabCase category.

(** *** Thin wrappers: an operation that rejects throws here. *)

Definition lock : prog unit := perform OLock.
Definition release : prog unit := perform ORelease.
Definition now : prog Date := perform ONow.

Definition put (key : string) (b : body) (ctype : option string) : prog unit :=
  ok ← perform (OPut key b ctype);
  if ok : bool then Ret () else Throw (StoreError key).

Definition commit (msg : string) : prog unit :=
  ok ← perform (OCommit msg);
  if ok : bool then Ret () else Throw (StoreError msg).

Definition publisher_delete (key : string) (ctype : option string) : prog unit :=
  ok ← perform (ODelete key ctype);
  if ok : bool then Ret () else Throw (StoreError key).

Definition publisher_list : prog (list string) :=
  r ← perform OList;
  match r with Some l => Ret l | None => Throw (StoreError "list") end.

Definition publisher_get (key : string) : prog Obj :=
  r ← perform (OGet key);
  match r with Some o => Ret o | None => Throw (StoreError key) end.

Definition getEntry (u : string) (strategies : list string) : prog Entry :=
  r ← perform (OFetch u strategies);
  match r with Some e => Ret e | None => Throw (FetchError u) end.

Definition oembed (link : string) : prog string :=
  r ← perform (OOembed link);
  match r with Some h => Ret h | None => Throw (OembedError link) end.

Definition posse_syndicate (e : Entry) : prog (list string) :=
  r ← perform (OSyndicate e);
  match r with Some l => Ret l | None => Throw SyndicationError end.

Definition sendWebmention (source target : string) : prog unit :=
  ok ← perform (OSend source target);
  if ok : bool then Ret () else Throw (WebmentionError target).

Definition parseEntry (b : body) (u : string) : prog (option Entry) :=
  match getEntryFromHtml b u with
  | Rejected => Throw (ParseError u)
  | Null => Ret None
  | Parsed e => Ret (Some e)
  end.

(** *** Slug allocation *)

(** [while (await this.publisher.exists(prefix + n)) n++;]: [fuel] bounds
    the number of probes. *)
Fixpoint getNextAvailable (fuel : nat) (n : counter) (prefix : string)
  : prog string :=
  match fuel with
  | 0 => Spin
  | S fuel' =>
      taken ← perform (OExists (prefix +:+ show n));
      if taken : bool then getNextAvailable fuel' (incr n) prefix
      else Ret (prefix +:+ show n)
  end.

Definition datepart (date : Date) : string :=
  "/" +:+ pretty (getFullYear date) +:+ "/" +:+ pretty (getMonth date + 1)
  +:+ "/" +:+ pretty (getDate date).

Definition getSlug (fuel : nat) (name : option string) (date : Date)
  : prog string :=
  match name with
  | Some name =>
      getNextAvailable fuel Blank (datepart date +:+ "/" +:+ kebabCase name)
  | None => getNextAvailable fuel (Num 1) (datepart date +:+ "/")
  end.

(** *** Lookup *)

Definition get (u : string) : prog Entry :=
  m ← perform OEntries;
  match m !! u with
  | Some e => Ret e
  | None => Throw (NotFound (u +:+ " not found"))
  end.

(** [Array.from(this.entries.values())]. *)
Definition values (m : gmap string Entry) : list Entry := (map_to_list m).*2.

Definition getAll : prog (list Entry) :=
  m ← perform OEntries; Ret (values m).

Definition getAuthor : Card :=
  mkCard (SiteConfig.url config) (SiteConfig.author_name config)
    (SiteConfig.author_photo config).

Definition renderEntry (entry : Entry) : prog string :=
  m ← perform OEntries; Ret (_renderEntry config m entry).

(** *** Regeneration of the derived views *)

Definition _generateStream (entries : list Entry) (page total : nat)
  : prog unit :=
  m ← perform OEntries;
  let html := _renderStream config m entries page total in
  let file := getPathForIndex page in
  put file (Str html) (Some "text/html").

Definition _generateReplyStream (entries : list Entry) (page total : nat)
  : prog unit :=
  m ← perform OEntries;
  let html := _renderReplyStream config m entries page total in
  let file := path_join "replies" (getPathForIndex page) in
  put file (Str html) (Some "text/html").

Definition _generateIndex (entries : list Entry) (category path : string)
  : prog unit :=
  m ← perform OEntries;
  let html := _renderIndex config m category entries in
  put path (Str html) (Some "text/html").

(** The lists of entries that [generateStreams] hands to the templates,
    as functions of the sorted array [entries]. *)
Definition mainStream (entries : list Entry) : list (list Entry) :=
  chunk (SiteConfig.entriesPerPage config)
    (filter hiddenFilter (filter mainFilter entries)).

Definition replyStream (entries : list Entry) : list (list Entry) :=
  chunk (SiteConfig.entriesPerPage config)
    (filter hiddenFilter (filter replyFilter entries)).

Definition allTags (entries : list Entry) : list string :=
  unique (flatten (category <$> entries)).

Definition tagIndex (entries : list Entry) (tag : string) : list Entry :=
  filter (λ e, tag ∈ category e) entries.

Definition articlesIndex (entries : list Entry) : list Entry :=
  filter (λ e, isArticle e) entries.

(** [chunks[index]] with [page = index + 1] for every index of
    [util.range(0, chunks.length - 1)]. *)
Definition each_chunk (chunks : list (list Entry))
    (f : list Entry → nat → nat → prog unit) : prog unit :=
  util_map (range 0 (Z.of_nat (length chunks) - 1)) (λ index,
    let chunk := default [] (chunks !! Z.to_nat index) in
    f chunk (Z.to_nat (index + 1)) (length chunks)).

Definition generateStreams : prog unit :=
  all ← getAll;
  let entries := sort_entries all in
  (* main stream *)
  each_chunk (mainStream entries) _generateStream;;
  (* reply stream *)
  each_chunk (replyStream entries) _generateReplyStream;;
  (* tags *)
  util_map (allTags entries) (λ tag,
    _generateIndex (tagIndex entries tag) ("Posts tagged " +:+ tag)
      (getPathForTag tag));;
  (* articles *)
  _generateIndex (articlesIndex entries) "Articles" "/articles".

Definition update (entry : Entry) : prog Entry :=
  html ← renderEntry entry;
  put (getPath entry) (Str html) (Some "text/html");;
  perform (OEntriesSet (url entry) entry);;
  generateStreams;;
  Ret entry.

Definition delete (u : string) : prog unit :=
  entry ← get u;
  publisher_delete (getPath entry) (Some "text/html");;
  perform (OEntriesDelete (url entry));;
  generateStreams.

Definition generateAll : prog unit :=
  all ← getAll;
  let entries := sort_entries all in
  util_map entries (λ entry,
    html ← renderEntry entry;
    put (url_pathname (url entry)) (Str html) (Some "text/html"));;
  generateStreams.

(** *** Publish *)

(** [if (entry.embed == null) entry.embed = {html: '', value: ''};
    entry.embed.html += embed;] *)
Definition add_embed (entry : Entry) (h : string) : Entry :=
  let c := default (mkContent EmptyString EmptyString) (embed entry) in
  set_embed entry (Some (mkContent (value c) (html c +:+ h))).

(** The loop over [entry.getMentions()]: every lookup has its own
    [try ... catch]. *)
Definition embedMentions (entry : Entry) : prog Entry :=
  for_of (getMentions entry) entry (λ entry link,
    try_catch (embed ← oembed link; Ret (add_embed entry embed))
      (λ _, Ret entry)).

Definition strategies : list string := ["entry"; "event"; "oembed"].

(** [if (m.replyTo != null) entry.replyTo = [await mfo.getEntry(...)]]. *)
Definition resolve (target : option string) : prog (list Entry) :=
  match target with
  | Some u => e ← getEntry u strategies; Ret [e]
  | None => Ret []
  end.

Definition photo_html (file inner : string) : string :=
  "<div class=" +:+ dq +:+ "thumbnail" +:+ dq +:+ "><img class=" +:+ dq
  +:+ "u-photo" +:+ dq +:+ " src=" +:+ dq +:+ file +:+ dq +:+ "/>"
  +:+ "<div class=" +:+ dq +:+ "caption" +:+ dq +:+ ">" +:+ inner
  +:+ "</div></div>".

Definition audio_html (file inner : string) : string :=
  "<div class=" +:+ dq +:+ "thumbnail" +:+ dq +:+ "><audio class=" +:+ dq
  +:+ "u-audio" +:+ dq +:+ " src=" +:+ dq +:+ file +:+ dq
  +:+ " controls></audio>"
  +:+ "<div class=" +:+ dq +:+ "caption" +:+ dq +:+ ">" +:+ inner
  +:+ "</div></div>".

(** The key under which an attached file is stored. *)
Definition media_key (slug : string) (u : Upload) : string :=
  path_join (path_dirname slug) (filename u).

(** The attached photo or audio: the content is wrapped and the file is
    put into the store. *)
Definition attach (wrap : string → string → string) (slug : string)
    (media : option Upload) (inner : string) : prog string :=
  match media with
  | Some u =>
      put (media_key slug u) (Stream (tmpfile u)) (Some (mimetype u));;
      Ret (wrap (filename u) inner)
  | None => Ret inner
  end.

Definition sendWebmentionsFor (entry : Entry) : prog unit :=
  util_map (getMentions entry) (λ link,
    try_catch (sendWebmention (url entry) link) (λ _, Ret ())).

Definition commit_message (who : Card) (what tail : string) : string :=
  truncate ("[" +:+ card_name who +:+ "] " +:+ collapse what) 50
  +:+ lf +:+ tail.

(** The body of [publish] from the rendering on: what happens to the
    canonical entry.  [entry.syndication = ...] assigns to the object that
    [update] has put into the map, so the map sees it at once. *)
Definition publish_entry (entry : Entry) : prog Entry :=
  entry ← update entry;
  entry ← match syndicateTo entry with
          | Some _ =>
              syndications ← posse_syndicate entry;
              let entry :=
                set_syndication entry (syndication entry ++ syndications) in
              perform (OEntriesSet (url entry) entry);;
              update entry
          | None => Ret entry
          end;
  match author entry with
  | Some who => commit (commit_message who (name entry) (url entry))
  | None => Throw TypeError
  end;;
  release;;
  sendWebmentionsFor entry;;
  Ret entry.

(** The entry object that [publish] builds from the submission: its
    statements from [new mfo.Entry()] to the end of the oEmbed loop. *)
Definition draft (fuel : nat) (m : Micropub.t) : prog Entry :=
     let content := default (Text EmptyString) (Micropub.content m) in
     let name :=
       match content with
       | Text c => or_else (Micropub.name m) c
       | Html h => or_else (Micropub.name m) (stripHtml h)
       end in
     let content :=
       match content with
       | Text c =>
           mkContent c
             ("<div class=" +:+ dq +:+ "note-content" +:+ dq +:+ ">"
              +:+ autoLink (escapeHtml c) +:+ "</div>")
       | Html h => mkContent (stripHtml h) h
       end in
     published ← now;
     slug ← getSlug fuel (Micropub.name m) published;
     replyTo ← resolve (Micropub.replyTo m);
     likeOf ← resolve (Micropub.likeOf m);
     repostOf ← resolve (Micropub.repostOf m);
     let category := from_option as_list [] (Micropub.category m) in
     let syndication := from_option as_list [] (Micropub.syndication m) in
     let syndicateTo := as_list <$> Micropub.syndicateTo m in
     h ← attach photo_html slug (Micropub.photo m) (html content);
     h ← attach audio_html slug (Micropub.audio m) h;
     let entry :=
       mkEntry (SiteConfig.url config +:+ slug) name published
         (mkContent (value content) h) (Some getAuthor)
         replyTo likeOf repostOf category syndication syndicateTo None [] in
     embedMentions entry.

Definition publish (fuel : nat) (m : Micropub.t) : prog Entry :=
  try_finally
    (lock;;
     entry ← draft fuel m;
     (* render, then parse the rendering again *)
     html ← renderEntry entry;
     parsed ← parseEntry (Str html) (url entry);
     match parsed with
     | Some entry => publish_entry entry
     | None => Throw TypeError
     end)
    release.

(** *** Scan *)

(** One key of [scan]: the object is fetched and, when it is HTML that
    parses to an entry of that address, added to the local map. *)
Definition scan_key (entries : gmap string Entry) (key : string)
  : prog (gmap string Entry) :=
  obj ← publisher_get key;
  if bool_decide (ContentType obj = Some "text/html") then
    let u := url_resolve (SiteConfig.url config) key in
    try_catch
      (entry ← parseEntry (Body obj) u;
       match entry with
       | Some entry =>
           if bool_decide (url entry = u ∨ url entry +:+ ".html" = u)
           then Ret (<[url entry := entry]> entries)
           else Ret entries
       | None => Ret entries
       end)
      (λ _, Ret entries)
  else Ret entries.

(** [Promise.all(keys.map(...))] is taken in the order of [keys]. *)
Definition scan : prog unit :=
  keys ← publisher_list;
  let keys := filter (λ k, negb (reserved k)) keys in
  entries ← for_of keys ∅ scan_key;
  perform (OEntriesAssign entries).

(** *** Receiving a webmention *)

(** [targetEntry.addChild(sourceEntry)] changes the object that the map
    holds under [targetUrl]. *)
Definition receiveWebmention (sourceUrl targetUrl : string) : prog unit :=
  try_finally
    (lock;;
     targetEntry ← try_catch (get targetUrl) (λ _,
       Throw (BadRequest ("Target " +:+ targetUrl +:+ " not found")));
     sourceEntry ← try_catch (getEntry sourceUrl []) (λ _,
       Throw (BadRequest ("Source " +:+ sourceUrl +:+ " not found")));
     if negb (existsb (λ m, bool_decide (m = targetUrl))
                (getMentions sourceEntry))
     then Throw (BadRequest ("Link to target " +:+ targetUrl +:+ " not found"))
     else
       let targetEntry := addChild targetEntry sourceEntry in
       perform (OEntriesSet targetUrl targetEntry);;
       targetHtml ← renderEntry targetEntry;
       put (url_pathname (url targetEntry)) (Str targetHtml)
         (Some "text/html");;
       match author sourceEntry with
       | Some who =>
           commit (commit_message who (name sourceEntry)
                     (sourceUrl +:+ " -> " +:+ targetUrl))
       | None => Throw TypeError
       end)
    release.
End Site.

Local Close Scope string_scope.

(** ** Vocabulary of the statements *)

(** Every operation that a program can perform satisfies [P]. *)
Fixpoint all_ops {A} (P : op → Prop) (p : prog A) : Prop :=
  match p with
  | Op o k => P o ∧ ∀ r, all_ops P (k r)
  | _ => True
  end.

(** Every value that a program can throw satisfies [Q]. *)
Fixpoint throws_only {A} (Q : error → Prop) (p : prog A) : Prop :=
  match p with
  | Throw e => Q e
  | Op o k => ∀ r, throws_only Q (k r)
  | _ => True
  end.

(** Writes to the content store, and changes of [this.entries]. *)
Definition is_store_write (o : op) : bool :=
  match o with
  | OPut _ _ _ | ODelete _ _ | OCommit _ => true
  | _ => false
  end.

Definition is_index_write (o : op) : bool :=
  match o with
  | OEntriesSet _ _ | OEntriesDelete _ | OEntriesAssign _ => true
  | _ => false
  end.

Definition is_write (o : op) : bool := is_store_write o || is_index_write o.

(** A write that took effect. *)
Definition effective (ev : event) : bool := is_write (ev_op ev) && ev_ok ev.

(** The map is keyed by the address of its entries: [scan] and [update]
    store every entry under [entry.url]. *)
Definition keyed (m : gmap string Entry) : Prop :=
  map_Forall (λ k e, url e = k) m.

(** The key that the loop of [getNextAvailable] probes in its round [k],
    counted from 0. *)
Definition candidate (prefix : string) (n : counter) (k : nat) : string :=
  prefix +:+ show (Nat.iter k incr n).

(** A best-effort failure: the error of an oEmbed lookup or of a
    webmention delivery. *)
Definition best_effort (e : error) : Prop :=
  match e with
  | OembedError _ | WebmentionError _ => True
  | _ => False
  end.

(** The store write of an attached file of the submission [m]. *)
Definition media_put `{!Helpers} (m : Micropub.t) (o : op) : Prop :=
  ∃ slug u, (Micropub.photo m = Some u ∨ Micropub.audio m = Some u)
            ∧ o = OPut (path_join (path_dirname slug) (filename u))
                    (Stream (tmpfile u)) (Some (mimetype u)).

(** What [scan] requires of an object to take it for the entry [e]: it is
    HTML, it parses to [e] at the address of its key, and the address of
    [e] is that address, possibly without its [.html]. *)
Definition admits `{!MfObj, !Helpers} (config : SiteConfig.t) (key : string)
    (obj : Obj) (e : Entry) : Prop :=
  ContentType obj = Some "text/html"%string
  ∧ getEntryFromHtml (Body obj) (url_resolve (SiteConfig.url config) key)
    = Parsed e
  ∧ (url e = url_resolve (SiteConfig.url config) key
     ∨ url e +:+ ".html" = url_resolve (SiteConfig.url config) key).

(** The keys that [scan] looks at. *)
Definition scanned (keys : list string) : list string :=
  filter (λ k, negb (reserved k)) keys.

(** An operation of [publish] that neither touches the index nor writes
    anything but an attached file of [m] into the store. *)
Definition quiet `{!Helpers} (m : Micropub.t) (o : op) : Prop :=
  is_index_write o = false ∧ (is_store_write o = true → media_put m o).

(** A store write that took effect was the write of an attached file. *)
Definition only_media `{!Helpers} (m : Micropub.t) (ev : event) : Prop :=
  is_store_write (ev_op ev) = true → ev_ok ev = true → media_put m (ev_op ev).

(** The world [w'] is [w] after operations that did not write the index and
    stored nothing but attached files. *)
Definition untouched {S} `{!Helpers} (m : Micropub.t) (w w' : World S) : Prop :=
  ∃ evs, trace w' = evs ++ trace w
         ∧ Forall (λ ev, is_index_write (ev_op ev) = false) evs
         ∧ Forall (only_media m) evs
         ∧ entries w' = entries w
         ∧ (Micropub.photo m = None → Micropub.audio m = None →
            store w' = store w).

(** The world [w'] is [w] after operations one of which wrote the index. *)
Definition indexed {S} (w w' : World S) : Prop :=
  ∃ ev newer older, trace w' = newer ++ ev :: older ++ trace w
                    ∧ is_index_write (ev_op ev) = true.

(** *** Calls in flight *)

(** What a call does once it has released the mutex: it notifies, and it
    may release again. *)
Definition tail_op (o : op) : Prop :=
  match o with
  | ORelease | OSend _ _ => True
  | _ => False
  end.

(** An operation inside the critical section that is neither the taking
    nor the release of the mutex. *)
Definition inner_op (o : op) : Prop := o ≠ OLock ∧ o ≠ ORelease.

(** A program inside its critical section: it does not lock again, and
    from its first release on it performs [tail_op]s only. *)
Fixpoint crit {A} (p : prog A) : Prop :=
  match p with
  | Op OLock _ => False
  | Op ORelease k => ∀ r, all_ops tail_op (k r)
  | Op _ k => ∀ r, crit (k r)
  | _ => True
  end.

(** A call that has not started: its first operation takes the mutex. *)
Definition fresh {A} (p : prog A) : Prop :=
  match p with
  | Op OLock k => ∀ r, crit (k r)
  | _ => False
  end.

(** A call whose caller awaits it and drops the result. *)
Definition call {A} (p : prog A) : prog unit := p;; Ret ().



(** The events of one task, oldest first. *)
Definition events_of (tid : nat) (tr : list event) : list op :=
  ev_op <$> reverse (filter (λ ev, ev_task ev = tid) tr).


(** The events of a call that has taken the mutex and not yet released
    it: the call is inside its critical section. *)
Definition inside (ops : list op) : Prop :=
  ∃ inner, ops = OLock :: inner ∧ Forall inner_op inner.

(** A call together with the operations it has performed: not started;
    inside its critical section; past its first release. *)
Definition task_inv {A} (p : prog A) (ops : list op) : Prop :=
  (fresh p ∧ ops = [])
  ∨ (crit p ∧ ∃ inner, ops = OLock :: inner ∧ Forall inner_op inner)
  ∨ (all_ops tail_op p
     ∧ ∃ inner tail, ops = OLock :: inner ++ ORelease :: tail
                     ∧ Forall inner_op inner ∧ Forall tail_op tail).


(** The calls that take the mutex. *)
Inductive locked_call `{!MfObj, !Helpers, !Templates} (config : SiteConfig.t)
  : prog unit → Prop :=
| call_publish fuel m : locked_call config (call (publish config fuel m))
| call_receive source target :
    locked_call config (call (receiveWebmention config source target)).

(** ** Concrete collaborators

    A small site on an in-memory store, used to evaluate the methods. *)
Module Demo.
Local Open Scope string_scope.

(** An in-memory publisher.  Keys listed in [read_only] reject [put]. *)
Record MemStore := mkMem {
  objects : gmap string Obj;
  commits : list string;
  read_only : list string }.

#[export] Instance mem_publisher : Publisher MemStore := {|
  pub_list s := Some (map_to_list (objects s)).*1;
  pub_get s k := objects s !! k;
  pub_exists s k := bool_decide (is_Some (objects s !! k));
  pub_put s k b c :=
  if bool_decide (k ∈ read_only s) then None
  else Some (mkMem (<[k := mkObj b c]> (objects s)) (commits s)
               (read_only s));
  pub_delete s k c :=
  Some (mkMem (base.delete k (objects s)) (commits s) (read_only s));
  pub_commit s msg := Some (mkMem (objects s) (msg :: commits s) (read_only s))
|}.

(** A publisher on which every key exists and nothing can be stored. *)
Inductive Full := full.

#[export] Instance full_publisher : Publisher Full := {|
  pub_list _ := None;
  pub_get _ _ := None;
  pub_exists _ _ := true;
  pub_put _ _ _ _ := None;
  pub_delete _ _ _ := None;
  pub_commit _ _ := None
|}.

Definition lower (c : Ascii.ascii) : Ascii.ascii :=
  let n := Ascii.nat_of_ascii c in
  if bool_decide (65 ≤ n ≤ 90)%nat then Ascii.ascii_of_nat (n + 32)
  else if bool_decide (n = 32) then Ascii.ascii_of_nat 45
  else c.

Fixpoint map_string (f : Ascii.ascii → Ascii.ascii) (s : string) : string :=
  match s with
  | EmptyString => EmptyString
  | String c s' => String (f c) (map_string f s')
  end.

(** The part of a path before its last slash. *)
Fixpoint dirname_go (s : string) : option string :=
  match s with
  | EmptyString => None
  | String c s' =>
    match dirname_go s' with
    | Some d => Some (String c d)
    | None => if bool_decide (c = Ascii.ascii_of_nat 47) then Some EmptyString else None
    end
  end.

Definition site_url : string := "https://example.com".

#[export] Instance helpers : Helpers := {|
  kebabCase := map_string lower;
  autoLink s := s;
  escapeHtml s := s;
  stripHtml s := s;
  truncate s n := String.substring 0 n s;
  collapse s := s;
  url_resolve base key :=
  if String.prefix "/" key then base +:+ key else base +:+ "/" +:+ key;
  url_pathname u :=
  String.substring (String.length site_url)
    (String.length u - String.length site_url) u;
  path_join a b := a +:+ "/" +:+ b;
  path_dirname s := default "." (dirname_go s)
|}.

Definition config : SiteConfig.t :=
  SiteConfig.mk site_url "Ada" None 1.

Definition day : Date := mkDate 1709380800000 2024 2 2.

Definition ada : Card := mkCard site_url "Ada" None.

(** A page is the name of its post, preceded by an at sign when the post
  asks for syndication.  Parsing reads that back; the empty page is no
  post and a stream is no HTML. *)
Definition page (e : Entry) : string :=
  match syndicateTo e with
  | Some _ => "@" +:+ name e
  | None => name e
  end.

Definition parse (b : body) (u : string) : parsed :=
  match b with
  | Str EmptyString => Null
  | Str s =>
    Parsed (mkEntry u s day (mkContent s s) (Some ada) [] [] [] [] []
              (if String.prefix "@" s then Some ["https://twitter.com"]
               else None)
              None [])
  | Stream _ => Rejected
  end.

#[export] Instance mfobj : MfObj := {|
  getEntryFromHtml := parse;
  getMentions e := url <$> replyTo e;
  isReply e := bool_decide (replyTo e ≠ []);
  isLike e := bool_decide (likeOf e ≠ []);
  isArticle e := bool_decide (name e ≠ value (content e));
  getPath e := url_pathname (url e);
  addChild target source :=
  mkEntry (url target) (name target) (published target) (content target)
    (author target) (replyTo target) (likeOf target) (repostOf target)
    (category target) (syndication target) (syndicateTo target)
    (embed target) (children target ++ [source])
|}.

(** A listing names its posts, one per line. *)
Definition listing (entries : list Entry) : string :=
  foldr (λ e s, name e +:+ lf +:+ s) EmptyString entries.

#[export] Instance templates : Templates := {|
  _renderEntry _ _ e := page e;
  _renderStream _ _ entries _ _ := listing entries;
  _renderReplyStream _ _ entries _ _ := listing entries;
  _renderIndex _ _ _ entries := listing entries
|}.

(** A quiet outside world: it is 2 March 2024, no remote page answers
  and every remote service rejects. *)
Definition offline : Env :=
  mkEnv (λ _, day) (λ _ _ _, None) (λ _ _, None) (λ _ _, None)
  (λ _ _ _, false).

(** The same, with a syndication service that answers. *)
Definition online : Env :=
  mkEnv (λ _, day) (λ _ _ _, None) (λ _ _, None)
  (λ _ e, Some ["https://twitter.com/ada/1"]) (λ _ _ _, true).

Definition empty_store : MemStore := mkMem ∅ [] [].

Definition start (s : MemStore) : World MemStore := mkWorld s ∅ false [].

(** A plain note with a name. *)
Definition note (name text : string) : Micropub.t :=
  Micropub.mk (Some name) (Some (Text text)) None None None None None
  None None None.

Definition hello : Micropub.t := note "Hello" "Hi".

(** The same note, to be syndicated. *)
Definition tweet : Micropub.t :=
  Micropub.mk (Some "Hello") (Some (Text "Hi")) None None None None None
  None None (Some (One "https://twitter.com")).

(** An index of six posts: three notes, a hidden diary note, a reply and
  a hidden article. *)
Definition post (path name text : string) (t : Z) (tags : list string)
  (reply : list Entry) : Entry :=
  mkEntry (site_url +:+ path) name (mkDate t 2024 2 2) (mkContent text text)
  (Some ada) reply [] [] tags [] None None [].

Definition one : Entry := post "/2024/3/2/1" "one" "one" 1000 [] [].
Definition two : Entry := post "/2024/3/2/2" "two" "two" 2000 ["diary"] [].
Definition three : Entry := post "/2024/3/2/3" "three" "three" 3000 [] [].
Definition secret : Entry :=
  post "/2024/3/2/secret" "secret" "secret" 4000 ["hidden"; "diary"] [].
Definition answer : Entry :=
  post "/2024/3/2/answer" "answer" "answer" 5000 [] [one].
Definition essay : Entry :=
  post "/2024/3/2/essay" "Essay" "A long text." 6000 ["hidden"] [].

Definition index_of (l : list Entry) : gmap string Entry :=
  list_to_map ((λ e, (url e, e)) <$> l).

Definition site_index : gmap string Entry :=
  index_of [one; two; three; secret; answer; essay].


(** The site with that index, nothing stored, the mutex free. *)
Definition site : World MemStore := mkWorld empty_store site_index false [].

(** A note with a photo attached. *)
Definition snapshot : Micropub.t :=
  Micropub.mk (Some "Hello") (Some (Text "Hi")) None None None None None
    (Some (mkUpload "cat.jpg" "/tmp/cat.jpg" "image/jpeg")) None None.

(** A post of another site that replies to [one], and a world in which
    that post can be fetched. *)
Definition elsewhere : string := "https://elsewhere.example/re".

Definition reply_elsewhere : Entry :=
  mkEntry elsewhere "re" (mkDate 7000 2024 2 2) (mkContent "re" "re")
    (Some (mkCard "https://elsewhere.example" "Bob" None))
    [one] [] [] [] [] None None [].

Definition web : Env :=
  mkEnv (λ _, day)
    (λ _ u _, if bool_decide (u = elsewhere) then Some reply_elsewhere
              else None)
    (λ _ _, None) (λ _ _, None) (λ _ _ _, true).

(** The address of the entry that a call returned. *)
Definition address (o : outcome Entry) : option string :=
  match o with
  | Returned e => Some (url e)
  | _ => None
  end.



(** The site after the first "Hello" of the day has been published. *)
Definition after_hello : World MemStore :=
  (run offline 0 (publish config 5 hello) (start empty_store)).2.

End Demo.

(** ** More of [Site]: further vocabulary *)

(** The store writes among some events (newest first), oldest first. *)
Definition store_writes (evs : list event) : list op :=
  ev_op <$> reverse (filter (λ ev, is_store_write (ev_op ev)) evs).

Definition is_send (o : op) : bool :=
  match o with OSend _ _ => true | _ => false end.

Definition is_get (o : op) : bool :=
  match o with OGet _ => true | _ => false end.

(** The webmention deliveries among some events, oldest first. *)
Definition sends (evs : list event) : list op :=
  ev_op <$> reverse (filter (λ ev, is_send (ev_op ev)) evs).

(** The calls of [publisher.get] among some events, oldest first. *)
Definition gets (evs : list event) : list op :=
  ev_op <$> reverse (filter (λ ev, is_get (ev_op ev)) evs).

(** [put(key, html, 'text/html')] of a rendered page. *)
Definition html_put (key html : string) : op :=
  OPut key (Str html) (Some "text/html"%string).

Section Plan.
Context `{!MfObj, !Helpers, !Templates}.
Variable config : SiteConfig.t.

(** The pages of one stream: chunk [i] is page [i + 1] of [total]. *)
Definition stream_puts
    (render : SiteConfig.t → gmap string Entry → list Entry → nat → nat → string)
    (path : nat → string) (m : gmap string Entry)
    (chunks : list (list Entry)) : list op :=
  imap (λ i chunk,
          html_put (path (S i)) (render config m chunk (S i) (length chunks)))
    chunks.

(** All pages that [generateStreams] writes for the index [m], in the
    order of writing. *)
Definition regeneration_puts (m : gmap string Entry) : list op :=
  let entries := sort_entries (values m) in
  stream_puts _renderStream getPathForIndex m (mainStream config entries)
  ++ stream_puts _renderReplyStream
       (λ page, path_join "replies" (getPathForIndex page)) m
       (replyStream config entries)
  ++ ((λ tag, html_put (getPathForTag tag)
                (_renderIndex config m ("Posts tagged " +:+ tag)
                   (tagIndex entries tag))) <$> allTags entries)
  ++ [html_put "/articles"
        (_renderIndex config m "Articles" (articlesIndex entries))].
End Plan.

(** The world [w'] is [w] after the store writes [ops], which all took
    effect, and no write to the index. *)
Definition wrote {S} (w w' : World S) (ops : list op) : Prop :=
  entries w' = entries w
  ∧ ∃ evs, trace w' = evs ++ trace w
           ∧ store_writes evs = ops
           ∧ Forall (λ ev, is_index_write (ev_op ev) = false ∧ ev_ok ev = true)
               evs.

(** The first counter and the prefix that [getSlug] hands to the loop. *)
Definition slug_start `{!Helpers} (name : option string) (date : Date)
    : counter * string :=
  match name with
  | Some name => (Blank, datepart date +:+ "/" +:+ kebabCase name)
  | None => (Num 1, datepart date +:+ "/")
  end.

(** The entries [e] and [e'] differ at most in [embed]. *)
Definition same_but_embed (e e' : Entry) : Prop :=
  url e' = url e ∧ name e' = name e ∧ published e' = published e
  ∧ content e' = content e ∧ author e' = author e ∧ replyTo e' = replyTo e
  ∧ likeOf e' = likeOf e ∧ repostOf e' = repostOf e
  ∧ category e' = category e ∧ syndication e' = syndication e
  ∧ syndicateTo e' = syndicateTo e ∧ children e' = children e.

(** An operation that changes the index only by storing an entry under
    the entry's own address, or by deleting. *)
Definition sets_own_key (o : op) : Prop :=
  match o with
  | OEntriesSet u e => url e = u
  | OEntriesAssign _ => False
  | _ => True
  end.

(** The methods that write the index without looking at an entry that is
    not their argument, as calls. *)
Inductive index_call `{!MfObj, !Helpers, !Templates} (config : SiteConfig.t)
  : prog unit → Prop :=
| index_update entry : index_call config (call (update config entry))
| index_delete u : index_call config (call (delete config u))
| index_publish fuel m : index_call config (call (publish config fuel m))
| index_scan : index_call config (call (scan config))
| index_generateStreams : index_call config (call (generateStreams config))
| index_generateAll : index_call config (call (generateAll config)).

(** [getArticles()]: the articles of the index that are not hidden, newest
    first. *)
Definition getArticles `{!MfObj} (m : gmap string Entry) : list Entry :=
  sort_entries (filter hiddenFilter (filter articleFilter (values m))).

(** The entry pages that [generateAll] writes for the index [m], in the
    order of writing. *)
Definition entry_puts `{!Helpers, !Templates} (config : SiteConfig.t)
    (m : gmap string Entry) : list op :=
  (λ e, html_put (url_pathname (url e)) (_renderEntry config m e))
    <$> sort_entries (values m).

(** *** Validation *)

(** Node's [assert.deepEqual] on two entries. *)
Class Assert := { deepEqual : Entry → Entry → bool }.

(** A [var] that is to hold an entry: [undefined] until its first
    assignment, afterwards [null] or an entry. *)
Inductive jsvar :=
| Undefined
| JsNull
| Object (e : Entry).

(** One element of the array that [validate] returns. *)
Record Failure := mkFailure {
  failure_key : string;
  failure_expected : jsvar;
  failure_actual : jsvar }.

(** What [validate] carries from key to key: [failures] and the two
    [var]s [expected] and [actual], which belong to the function and not
    to the round of the loop that assigns them. *)
Record Validation := mkValidation {
  failures : list Failure;
  expected : jsvar;
  actual : jsvar }.

Section Validate.
Context `{!MfObj, !Helpers, !Templates, !Assert}.
Variable config : SiteConfig.t.

(** The [catch] of a round: [debug('fail ' + expected.url)] reads a
    property of [expected] and throws a [TypeError] out of [validate] when
    that is [undefined] or [null]; otherwise the failure is pushed with
    the [var]s as they are. *)
Definition validate_catch (key : string) (v : Validation) : prog Validation :=
  match expected v with
  | Object _ =>
      Ret (mkValidation
             (failures v ++ [mkFailure key (expected v) (actual v)])
             (expected v) (actual v))
  | _ => Throw TypeError
  end.

(** One round of the loop.  Where the source throws inside [try], the
    model goes to [validate_catch] with the [var]s of that moment. *)
Definition validate_key (v : Validation) (key : string) : prog Validation :=
  let u := url_resolve (SiteConfig.url config) key in
  r ← perform (OGet key);
  match r with
  | None => validate_catch key v
  | Some obj =>
      if bool_decide (ContentType obj = Some "text/html"%string) then
        match getEntryFromHtml (Body obj) u with
        | Rejected => Ret v
        | Null =>
            (* [expected.url] of [null] *)
            validate_catch key (mkValidation (failures v) JsNull (actual v))
        | Parsed e =>
            let v := mkValidation (failures v) (Object e) (actual v) in
            if bool_decide (url e = u ∨ (url e +:+ ".html")%string = u) then
              html ← renderEntry config e;
              match getEntryFromHtml (Str html) (url e) with
              | Rejected => validate_catch key v
              | Null =>
                  (* [assert.deepEqual(null, expected)] *)
                  validate_catch key
                    (mkValidation (failures v) (expected v) JsNull)
              | Parsed a =>
                  let v := mkValidation (failures v) (expected v) (Object a) in
                  if deepEqual a e then Ret v else validate_catch key v
              end
            else Ret v
        end
      else Ret v
  end.

Definition validate : prog (list Failure) :=
  keys ← publisher_list;
  v ← for_of keys (mkValidation [] Undefined Undefined) validate_key;
  Ret (failures v).

(** The store holds a sound copy of the entry that [key] stands for, or
    something that is no entry: the object can be fetched and, when it is
    HTML that parses to an entry of the address of its key, the rendering
    of that entry from the index [m] parses to an equal entry. *)
Definition round_trips {S} `{!Publisher S} (s : S) (m : gmap string Entry)
    (key : string) : Prop :=
  ∃ obj, pub_get s key = Some obj
    ∧ (ContentType obj = Some "text/html"%string →
       match getEntryFromHtml (Body obj)
               (url_resolve (SiteConfig.url config) key) with
       | Rejected => True
       | Null => False
       | Parsed e =>
           admits config key obj e →
           ∃ a, getEntryFromHtml (Str (_renderEntry config m e)) (url e)
                = Parsed a
                ∧ deepEqual a e = true
       end).
End Validate.

(** The state in which a round ends that has not gone to [catch]. *)
Definition passed (v v' : Validation) : Prop := failures v' = failures v.

(** The state in which a round ends that has gone to [catch] for [key]
    and come back. *)
Definition caught (key : string) (v v' : Validation) : Prop :=
  failures v' = failures v ++ [mkFailure key (expected v') (actual v')].

(** The object of [key] can be fetched and is no entry for [validate]:
    it is no HTML, or HTML that the parser rejects. *)
Definition no_entry {S} `{!Publisher S, !MfObj, !Helpers}
    (config : SiteConfig.t) (s : S) (key : string) : Prop :=
  ∃ obj, pub_get s key = Some obj
    ∧ (ContentType obj = Some "text/html"%string →
       getEntryFromHtml (Body obj) (url_resolve (SiteConfig.url config) key)
       = Rejected).

(** The round of [key] goes to [catch] before it has assigned an entry to
    [expected]: the object cannot be fetched, or it is HTML that parses to
    [null]. *)
Definition fails_early {S} `{!Publisher S, !MfObj, !Helpers}
    (config : SiteConfig.t) (s : S) (key : string) : Prop :=
  pub_get s key = None
  ∨ ∃ obj, pub_get s key = Some obj
      ∧ ContentType obj = Some "text/html"%string
      ∧ getEntryFromHtml (Body obj) (url_resolve (SiteConfig.url config) key)
        = Null.

(** ** The HTTP server ([apiserver.ts]) *)

Module Api.

(** [res.sendStatus(n)]; [next()] hands the request on. *)
Inductive response :=
| Status (n : nat)
| Next.

(** *** [requireAuth] *)

(** What [requireAuth] reads of a request: the [Authorization] header and
    the field [access_token] of a parsed POST body. *)
Record Request := mkRequest {
  authorization : option string;
  access_token : option string }.

(** The row of a token: [requireAuth] reads its [scope]. *)
Record Row := mkRow { row_scope : string }.

Definition is_line_terminator (c : Ascii.ascii) : bool :=
  bool_decide (c = Ascii.ascii_of_nat 10) || bool_decide (c = Ascii.ascii_of_nat 13).

(** ASCII letters in upper case, as the flag [i] compares them. *)
Definition upper (c : Ascii.ascii) : Ascii.ascii :=
  let n := Ascii.nat_of_ascii c in
  if bool_decide (97 ≤ n ≤ 122)%nat then Ascii.ascii_of_nat (n - 32) else c.

(** The longest prefix without a line terminator: what [.+] matches. *)
Fixpoint dots (s : string) : string :=
  match s with
  | EmptyString => EmptyString
  | String c s' => if is_line_terminator c then EmptyString else String c (dots s')
  end.

(** [s] begins with [word], letters compared without case: the rest. *)
Fixpoint after_nocase (word s : string) : option string :=
  match word, s with
  | EmptyString, _ => Some s
  | String a word', String c s' =>
      if bool_decide (upper a = upper c) then after_nocase word' s' else None
  | String _ _, EmptyString => None
  end.

Fixpoint upcase (s : string) : string :=
  match s with
  | EmptyString => EmptyString
  | String c s' => String (upper c) (upcase s')
  end.

(** No character of [s] is a line terminator. *)
Fixpoint one_line (s : string) : bool :=
  match s with
  | EmptyString => true
  | String c s' => negb (is_line_terminator c) && one_line s'
  end.

(** [/^bearer (.+)/i.exec(header)]: the first group of the match. *)
Definition bearer (header : string) : option string :=
  match after_nocase "bearer " header with
  | Some rest =>
      match dots rest with
      | EmptyString => None
      | token => Some token
      end
  | None => None
  end.

(** [s.split(' ')]. *)
Fixpoint split_go (word s : string) : list string :=
  match s with
  | EmptyString => [word]
  | String c s' =>
      if bool_decide (c = Ascii.ascii_of_nat 32) then word :: split_go EmptyString s'
      else split_go (word +:+ String c EmptyString) s'
  end.

Definition split (s : string) : list string := split_go EmptyString s.

(** [requireAuth(scope)] on a request, with [site.getToken] as a lookup
    that resolves to a row or to [undefined]. *)
Definition requireAuth (getToken : string → option Row) (scope : string)
    (req : Request) : response :=
  let token :=
    match authorization req with
    | Some header => bearer header
    | None => access_token req
    end in
  match token with
  | None => Status 401
  | Some token =>
      match getToken token with
      | None => Status 401
      | Some row =>
          if existsb (λ s, bool_decide (s = scope)) (split (row_scope row))
          then Next
          else Status 401
      end
  end.

End Api.

(** ** More sample values *)

Module Sample.
Local Open Scope string_scope.

(** Entries compared by name and address. *)
#[export] Instance assert : Assert := {|
  deepEqual a e :=
  bool_decide (name a = name e ∧ url a = url e)
|}.

(** A store with the page of a post and a style sheet. *)
Definition stored : Demo.MemStore :=
  Demo.mkMem
    (<["/2024/3/2/hello" := mkObj (Str "Hello") (Some "text/html")]>
       (<["/css/site.css" := mkObj (Str "body {}") (Some "text/css")]> ∅))
    [] [].

(** A store whose only object is an empty page. *)
Definition blank : Demo.MemStore :=
  Demo.mkMem (<["/blank" := mkObj (Str "") (Some "text/html")]> ∅) [] [].

(** A store in which the first number of the day is taken. *)
Definition numbered : Demo.MemStore :=
  Demo.mkMem (<["/2024/3/2/1" := mkObj (Str "1") (Some "text/html")]> ∅) [] [].

(** A world with nothing indexed and the mutex free. *)
Definition world (s : Demo.MemStore) : World Demo.MemStore :=
  mkWorld s ∅ false [].

(** The world of a store on which every key exists. *)
Definition crowded : World Demo.Full := mkWorld Demo.full ∅ false [].

(** The entry that the first [publish] of "Hello" returns. *)
Definition published_hello : Entry :=
  mkEntry "https://example.com/2024/3/2/hello" "Hello" Demo.day
    (mkContent "Hello" "Hello") (Some Demo.ada) [] [] [] [] [] None None [].

(** A token table with one token. *)
Definition tokens (token : string) : option Api.Row :=
  if bool_decide (token = "s3cret") then Some (Api.mkRow "post admin")
  else None.
End Sample.

(** * Proofs *)
(** ** Facts about the list helpers *)

Section Lists.
Context {A : Type}.
Implicit Types (l c : list A) (size fuel : nat).





Lemma chunk_go_elem fuel size l c x :
  c ∈ chunk_go fuel size l → x ∈ c → x ∈ l.
Proof.
  revert l. induction fuel as [|fuel IH]; intros l; [by intros ?%elem_of_nil|].
  destruct l as [|y l]; [by intros ?%elem_of_nil|].
  cbn [chunk_go]. intros [->|Hc]%elem_of_cons Hx.
  - rewrite <- (take_drop size (y :: l)). apply elem_of_app. by left.
  - rewrite <- (take_drop size (y :: l)). apply elem_of_app. right. eauto.
Qed.

Lemma chunk_elem size l c x : c ∈ chunk size l → x ∈ c → x ∈ l.
Proof. apply chunk_go_elem. Qed.

End Lists.

#[export] Instance newer_first_total : Total newer_first.
Proof. intros a b. unfold newer_first, byDateDesc. lia. Qed.

#[export] Instance newer_first_trans : Transitive newer_first.
Proof. intros a b c. unfold newer_first, byDateDesc. lia. Qed.

Lemma sort_entries_sorted l : StronglySorted newer_first (sort_entries l).
Proof. apply StronglySorted_merge_sort; apply _. Qed.

Lemma sort_entries_perm l : sort_entries l ≡ₚ l.
Proof. apply merge_sort_Permutation. Qed.

Lemma elem_of_sort_entries e l : e ∈ sort_entries l ↔ e ∈ l.
Proof. by rewrite sort_entries_perm. Qed.

Lemma values_NoDup m : keyed m → NoDup (values m).
Proof.
  intros Hm. unfold values. apply (NoDup_fmap_1 url).
  assert ((url <$> (map_to_list m).*2) = (map_to_list m).*1) as ->.
  { rewrite <- list_fmap_compose. apply Forall_fmap_ext_1, Forall_forall.
    intros [k e] Hin%elem_of_map_to_list. simpl.
    by apply Hm in Hin. }
  apply NoDup_fst_map_to_list.
Qed.

Lemma elem_of_values m e : e ∈ values m ↔ ∃ k, m !! k = Some e.
Proof.
  unfold values. rewrite list_elem_of_fmap. split.
  - intros [[k e'] [-> Hin%elem_of_map_to_list]]. eauto.
  - intros [k Hk]. exists (k, e). by rewrite elem_of_map_to_list.
Qed.

Lemma hiddenFilter_false e : hiddenFilter e = false ↔ "hidden" ∈ category e.
Proof.
  unfold hiddenFilter. rewrite negb_false_iff, existsb_exists. split.
  - intros (c & Hin & Hc). apply bool_decide_eq_true in Hc as ->.
    by apply list_elem_of_In.
  - intros Hin. exists "hidden". split; [by apply list_elem_of_In|].
    by apply bool_decide_eq_true.
Qed.

(** ** Facts about running programs *)

Lemma mbind_bind {A B} (f : A → prog B) (p : prog A) : p ≫= f = bind p f.
Proof. reflexivity. Qed.

Section Run.
Context {S : Type} `{!Publisher S}.
Variable env : Env.
Implicit Types (w : World S) (tid : nat).

Lemma run_bind {A B} tid (p : prog A) (f : A → prog B) w :
  run env tid (bind p f) w =
    match run env tid p w with
    | (Returned a, w') => run env tid (f a) w'
    | (Threw e, w') => (Threw e, w')
    | (Diverged, w') => (Diverged, w')
    | (Blocked, w') => (Blocked, w')
    end.
Proof.
  revert w. induction p as [a|e| |o k IH]; intros w; simpl; try done.
  destruct (handle env tid o w) as [[r w']|]; [apply IH|done].
Qed.

Lemma run_try_catch {A} tid (p : prog A) (h : error → prog A) w :
  run env tid (try_catch p h) w =
    match run env tid p w with
    | (Threw e, w') => run env tid (h e) w'
    | other => other
    end.
Proof.
  revert w. induction p as [a|e| |o k IH]; intros w; simpl; try done.
  destruct (handle env tid o w) as [[r w']|]; [apply IH|done].
Qed.

Lemma run_try_finally {A} tid (p : prog A) (f : prog unit) w :
  run env tid (try_finally p f) w =
    match run env tid p w with
    | (Returned a, w') => run env tid (bind f (λ _, Ret a)) w'
    | (Threw e, w') => run env tid (bind f (λ _, Throw e)) w'
    | other => other
    end.
Proof.
  revert w. induction p as [a|e| |o k IH]; intros w; simpl; try done.
  destruct (handle env tid o w) as [[r w']|]; [apply IH|done].
Qed.

Lemma handle_trace tid o w r w' :
  handle env tid o w = Some (r, w') →
  ∃ ok, trace w' = mkEvent tid o ok :: trace w.
Proof.
  destruct o; simpl; try (intros [= <- <-]; eauto; fail).
  - unfold mutex_lock. destruct (locked w); [done|].
    simpl. intros [= <- <-]; eauto.
  - unfold store_call. destruct (pub_put _ _ _ _); intros [= <- <-]; eauto.
  - unfold store_call. destruct (pub_delete _ _ _); intros [= <- <-]; eauto.
  - unfold store_call. destruct (pub_commit _ _); intros [= <- <-]; eauto.
Qed.

(** A run only adds events, and only events of operations of the program. *)
Lemma run_events {A} (P : op → Prop) tid (p : prog A) w :
  all_ops P p →
  ∃ evs, trace (run env tid p w).2 = evs ++ trace w
         ∧ Forall (λ ev, ev_task ev = tid ∧ P (ev_op ev)) evs.
Proof.
  revert w. induction p as [a|e| |o k IH]; intros w Hp; simpl;
    try (by exists []).
  destruct Hp as [Ho Hk].
  destruct (handle env tid o w) as [[r w']|] eqn:Hh; [|by exists []].
  destruct (handle_trace _ _ _ _ _ Hh) as [ok Htr].
  destruct (IH r w' (Hk r)) as (evs & -> & Hevs).
  exists (evs ++ [mkEvent tid o ok]). rewrite Htr, <- app_assoc. split; [done|].
  apply Forall_app. split; [done|]. by repeat constructor.
Qed.

(** An invariant kept by every operation of a program is kept by its run. *)
Lemma run_invariant {A} (P : op → Prop) (I : World S → Prop) tid (p : prog A) w :
  (∀ o w r w', P o → I w → handle env tid o w = Some (r, w') → I w') →
  all_ops P p → I w → I (run env tid p w).2.
Proof.
  intros Hstep. revert w. induction p as [a|e| |o k IH]; intros w Hp Hw; simpl;
    try done.
  destruct Hp as [Ho Hk].
  destruct (handle env tid o w) as [[r w']|] eqn:Hh; [|done].
  eapply IH; eauto.
Qed.
End Run.

Lemma all_ops_impl {A} (P Q : op → Prop) (p : prog A) :
  (∀ o, P o → Q o) → all_ops P p → all_ops Q p.
Proof.
  intros HPQ. induction p as [| | |o k IH]; simpl; try done.
  intros [??]. split; auto.
Qed.

Lemma all_ops_bind {A B} (P : op → Prop) (p : prog A) (f : A → prog B) :
  all_ops P p → (∀ a, all_ops P (f a)) → all_ops P (bind p f).
Proof.
  intros Hp Hf. induction p as [| | |o k IH]; simpl in *; try done.
  destruct Hp. split; auto.
Qed.

Lemma all_ops_try_catch {A} (P : op → Prop) (p : prog A) (h : error → prog A) :
  all_ops P p → (∀ e, all_ops P (h e)) → all_ops P (try_catch p h).
Proof.
  intros Hp Hh. induction p as [| | |o k IH]; simpl in *; try done.
  destruct Hp. split; auto.
Qed.

Lemma all_ops_try_finally {A} (P : op → Prop) (p : prog A) (f : prog unit) :
  all_ops P p → all_ops P f → all_ops P (try_finally p f).
Proof.
  intros Hp Hf. induction p as [| | |o k IH]; simpl in *.
  - by apply all_ops_bind.
  - by apply all_ops_bind.
  - done.
  - destruct Hp. split; auto.
Qed.

Lemma all_ops_perform (P : op → Prop) o : P o → all_ops P (perform o).
Proof. by split. Qed.

Lemma all_ops_for_of {A B} (P : op → Prop) (l : list B) (a : A)
    (f : A → B → prog A) :
  (∀ a x, all_ops P (f a x)) → all_ops P (for_of l a f).
Proof.
  intros Hf. revert a. induction l as [|x l IH]; intros a; simpl; [done|].
  apply all_ops_bind; auto.
Qed.

Lemma all_ops_util_map {B} (P : op → Prop) (l : list B) (f : B → prog unit) :
  (∀ x, all_ops P (f x)) → all_ops P (util_map l f).
Proof.
  intros Hf. induction l as [|x l IH]; simpl; [done|].
  apply all_ops_bind; auto.
Qed.

(** ** The derived views *)


(** ** What a regeneration writes *)

Lemma store_writes_app evs1 evs2 :
  store_writes (evs1 ++ evs2) = store_writes evs2 ++ store_writes evs1.
Proof.
  unfold store_writes. by rewrite filter_app, reverse_app, fmap_app.
Qed.

Lemma store_writes_cons ev evs :
  store_writes (ev :: evs) =
    store_writes evs ++ (if is_store_write (ev_op ev) then [ev_op ev] else []).
Proof.
  unfold store_writes. rewrite filter_cons.
  destruct (is_store_write (ev_op ev)); case_decide; try done.
  - by rewrite reverse_cons, fmap_app.
  - by rewrite app_nil_r.
Qed.

Section Wrote.
Context {S : Type}.
Implicit Types (w : World S).

Lemma wrote_refl w : wrote w w [].
Proof. split; [done|]. by exists []. Qed.

Lemma wrote_trans w w1 w2 ops1 ops2 :
  wrote w w1 ops1 → wrote w1 w2 ops2 → wrote w w2 (ops1 ++ ops2).
Proof.
  intros [He1 (evs1 & Htr1 & <- & Hok1)] [He2 (evs2 & Htr2 & <- & Hok2)].
  split; [congruence|]. exists (evs2 ++ evs1). split_and!.
  - by rewrite Htr2, Htr1, app_assoc.
  - apply store_writes_app.
  - by apply Forall_app.
Qed.
End Wrote.

Section Regeneration.
Context {S : Type} `{!Publisher S, !MfObj, !Helpers, !Templates}.
Variables (env : Env) (config : SiteConfig.t).
Implicit Types (w : World S).

(** A page is rendered from the entry map of the moment and put. *)
Lemma run_page tid key (html : gmap string Entry → string) w :
  let r := run env tid
             (m ← perform OEntries; put key (Str (html m)) (Some "text/html"%string))
             w in
  match r.1 with
  | Returned _ => wrote w r.2 [html_put key (html (entries w))]
  | Threw e => ∃ key, e = StoreError key
  | _ => False
  end.
Proof.
  simpl. unfold store_call.
  destruct (pub_put _ _ _ _) as [s|]; simpl; [|by eexists].
  split; [done|]. eexists [_; _]. split; [done|]. split; [done|].
  by repeat constructor.
Qed.

(** A loop of page writes. *)
Lemma run_pages {B} tid (f : B → prog unit) (g : gmap string Entry → B → op)
    (l : list B) w :
  (∀ x w1, match (run env tid (f x) w1).1 with
           | Returned _ => wrote w1 (run env tid (f x) w1).2 [g (entries w1) x]
           | Threw e => ∃ key, e = StoreError key
           | _ => False
           end) →
  match (run env tid (util_map l f) w).1 with
  | Returned _ => wrote w (run env tid (util_map l f) w).2 (g (entries w) <$> l)
  | Threw e => ∃ key, e = StoreError key
  | _ => False
  end.
Proof.
  intros Hf. revert w. induction l as [|x l IH]; intros w.
  { simpl. apply wrote_refl. }
  cbn [util_map]. rewrite run_bind. specialize (Hf x w).
  destruct (run env tid (f x) w) as [[[]| | |] w1]; simpl in Hf |- *; try done.
  specialize (IH w1).
  destruct (run env tid (util_map l f) w1) as [[[]| | |] w2]; simpl in IH |- *;
    try done.
  pose proof Hf as [He _]. rewrite He in IH.
  by apply (wrote_trans w w1 w2 [_]).
Qed.

(** The indices of [util.range(0, chunks.length - 1)] visit every chunk
    once, chunk [i] as page [i + 1]. *)
Lemma each_chunk_pages {B} (h : list Entry → nat → B)
    (chunks : list (list Entry)) :
  (λ index, h (default [] (chunks !! Z.to_nat index)) (Z.to_nat (index + 1)))
    <$> range 0 (Z.of_nat (length chunks) - 1)
  = imap (λ i chunk, h chunk (Datatypes.S i)) chunks.
Proof.
  unfold range. apply list_eq. intros i.
  rewrite list_lookup_fmap, list_lookup_imap.
  destruct (chunks !! i) as [chunk|] eqn:Hi.
  - pose proof (lookup_lt_Some _ _ _ Hi) as Hlt.
    rewrite (lookup_seqZ_lt _ _ i) by lia. simpl.
    replace (Z.to_nat (0 + Z.of_nat i)) with i by lia.
    replace (Z.to_nat (0 + Z.of_nat i + 1)) with (Datatypes.S i) by lia.
    by rewrite Hi.
  - pose proof (lookup_ge_None_1 _ _ Hi) as Hge.
    rewrite lookup_seqZ_ge by lia. done.
Qed.

Lemma wrote_read tid o w : is_write o = false → wrote w (log tid o true w) [].
Proof.
  intros Ho. apply orb_false_iff in Ho as [Hs Hi].
  split; [done|]. eexists [_]. split; [done|]. split.
  - rewrite store_writes_cons. simpl. by rewrite Hs.
  - by repeat constructor.
Qed.

(** What a regeneration does to a world. *)
Lemma generateStreams_run tid w :
  let r := run env tid (generateStreams config) w in
  match r.1 with
  | Returned _ => wrote w r.2 (regeneration_puts config (entries w))
  | Threw e => ∃ key, e = StoreError key
  | _ => False
  end.
Proof.
  unfold generateStreams, getAll, each_chunk. cbv zeta.
  rewrite mbind_bind, run_bind.
  change (run env tid (perform OEntries ≫= λ m, Ret (values m)) w)
    with (Returned (values (entries w)), log tid OEntries true w).
  cbn beta iota.
  set (w1 := log tid OEntries true w).
  set (sorted := sort_entries (values (entries w))).
  assert (wrote w w1 []) as Hw1 by by apply wrote_read.
  assert (entries w1 = entries w) as He1 by done. clearbody w1.
  (* the main stream *)
  rewrite mbind_bind, run_bind.
  pose proof (run_pages tid
    (λ index, _generateStream config
                (default [] (mainStream config sorted !! Z.to_nat index))
                (Z.to_nat (index + 1)) (length (mainStream config sorted)))
    (λ m index, html_put (getPathForIndex (Z.to_nat (index + 1)))
                  (_renderStream config m
                     (default [] (mainStream config sorted !! Z.to_nat index))
                     (Z.to_nat (index + 1)) (length (mainStream config sorted))))
    (range 0 (Z.of_nat (length (mainStream config sorted)) - 1)) w1
    (λ x w0, run_page tid _ _ w0)) as Hmain.
  destruct (run env tid (util_map _ _) w1) as [[[]| | |] w2];
    cbn [fst snd] in Hmain; cbn beta iota; [|done..].
  rewrite (each_chunk_pages
             (λ chunk page, html_put (getPathForIndex page)
                (_renderStream config (entries w1) chunk page
                   (length (mainStream config sorted))))) in Hmain.
  assert (entries w2 = entries w) as He2 by (destruct Hmain; congruence).
  (* the reply stream *)
  rewrite mbind_bind, run_bind.
  pose proof (run_pages tid
    (λ index, _generateReplyStream config
                (default [] (replyStream config sorted !! Z.to_nat index))
                (Z.to_nat (index + 1)) (length (replyStream config sorted)))
    (λ m index, html_put (path_join "replies" (getPathForIndex (Z.to_nat (index + 1))))
                  (_renderReplyStream config m
                     (default [] (replyStream config sorted !! Z.to_nat index))
                     (Z.to_nat (index + 1)) (length (replyStream config sorted))))
    (range 0 (Z.of_nat (length (replyStream config sorted)) - 1)) w2
    (λ x w0, run_page tid _ _ w0)) as Hreply.
  destruct (run env tid (util_map _ _) w2) as [[[]| | |] w3];
    cbn [fst snd] in Hreply; cbn beta iota; [|done..].
  rewrite (each_chunk_pages
             (λ chunk page, html_put (path_join "replies" (getPathForIndex page))
                (_renderReplyStream config (entries w2) chunk page
                   (length (replyStream config sorted))))) in Hreply.
  assert (entries w3 = entries w) as He3 by (destruct Hreply; congruence).
  (* the tags *)
  rewrite mbind_bind, run_bind.
  pose proof (run_pages tid
    (λ tag, _generateIndex config (tagIndex sorted tag)
              ("Posts tagged " +:+ tag) (getPathForTag tag))
    (λ m tag, html_put (getPathForTag tag)
                (_renderIndex config m ("Posts tagged " +:+ tag)
                   (tagIndex sorted tag)))
    (allTags sorted) w3 (λ x w0, run_page tid _ _ w0)) as Htags.
  destruct (run env tid (util_map _ _) w3) as [[[]| | |] w4];
    cbn [fst snd] in Htags; cbn beta iota; [|done..].
  assert (entries w4 = entries w) as He4 by (destruct Htags; congruence).
  (* the articles *)
  pose proof (run_page tid "/articles"
                (λ m, _renderIndex config m "Articles" (articlesIndex sorted))
                w4) as Hart.
  cbv zeta in Hart.
  change (run env tid (_ ≫= _) w4)
    with (run env tid (_generateIndex config (articlesIndex sorted)
                         "Articles" "/articles") w4) in Hart.
  destruct (run env tid (_generateIndex config _ _ _) w4) as [[[]| | |] w5];
    simpl in Hart |- *; [|done..].
  unfold regeneration_puts, stream_puts. fold sorted.
  rewrite He1 in Hmain. rewrite He2 in Hreply. rewrite He3 in Htags.
  rewrite He4 in Hart.
  apply (wrote_trans w w1 w5 []); [done|].
  apply (wrote_trans w1 w2 w5); [done|].
  apply (wrote_trans w2 w3 w5); [done|].
  by apply (wrote_trans w3 w4 w5).
Qed.
End Regeneration.

(** ** The paths of the stream pages *)

Lemma pretty_N_go_length x s :
  String.length s ≤ String.length (pretty_N_go x s).
Proof.
  revert s. induction (N.lt_wf_0 x) as [x _ IH]; intros s.
  assert (x = 0 ∨ 0 < x)%N as [->|?] by lia; [by rewrite pretty_N_go_0|].
  rewrite pretty_N_go_step by done.
  etrans; [|by eapply IH, N.div_lt]. simpl. lia.
Qed.

(** A number is printed with at least one digit. *)
Lemma pretty_nat_nonempty (n : nat) : pretty n ≠ EmptyString.
Proof.
  unfold pretty, pretty_nat, pretty, pretty_N. case_decide; [done|].
  assert (0 < N.of_nat n)%N as Hpos by lia.
  rewrite pretty_N_go_step by done. intros Heq.
  pose proof (pretty_N_go_length (N.of_nat n `div` 10)
                (String (pretty_N_char (N.of_nat n `mod` 10)) EmptyString)) as Hlen.
  rewrite Heq in Hlen. simpl in Hlen. lia.
Qed.

Lemma string_app_inv_head (prefix s1 s2 : string) :
  prefix +:+ s1 = prefix +:+ s2 → s1 = s2.
Proof. induction prefix as [|c prefix IH]; simpl; [done|]. intros [= ?]. auto. Qed.

Lemma getPathForIndex_injective : Inj (=) (=) getPathForIndex.
Proof.
  intros p q. unfold getPathForIndex.
  intros Heq%string_app_inv_head.
  repeat case_bool_decide; subst; try done.
  - by destruct (pretty_nat_nonempty q).
  - by destruct (pretty_nat_nonempty p).
  - by apply (inj pretty).
Qed.

Section Streams.
Context `{!MfObj}.
Variable config : SiteConfig.t.
Implicit Types (m : gmap string Entry) (e : Entry).

End Streams.

Section Hidden.
Context `{!MfObj}.
Variable config : SiteConfig.t.
Implicit Types (m : gmap string Entry) (e : Entry).

Lemma get_returns {S} `{!Publisher S} env tid (w : World S) u e :
  entries w !! u = Some e → (run env tid (get u) w).1 = Returned e.
Proof. intros Hu. simpl. by rewrite Hu. Qed.

(** C4, as the code has it: an entry whose categories contain "hidden"
    is on no page of the main stream and on no page of the reply stream,
    and [get] still returns it for its address. *)
Theorem hidden_excluded_from_streams m u e :
  m !! u = Some e →
  "hidden"%string ∈ category e →
  (∀ page, page ∈ mainStream config (sort_entries (values m)) → e ∉ page)
  ∧ (∀ page, page ∈ replyStream config (sort_entries (values m)) → e ∉ page)
  ∧ (∀ S `(!Publisher S) env tid (w : World S),
       entries w = m → (run env tid (get u) w).1 = Returned e).
Proof.
  intros Hu Hhidden%hiddenFilter_false. split_and!.
  - intros page Hpage He.
    pose proof (chunk_elem _ _ _ _ Hpage He) as [Hf _]%list_elem_of_filter.
    by rewrite Hhidden in Hf.
  - intros page Hpage He.
    pose proof (chunk_elem _ _ _ _ Hpage He) as [Hf _]%list_elem_of_filter.
    by rewrite Hhidden in Hf.
  - intros S ? env tid w <-. by apply get_returns.
Qed.

(** The tag pages are made from all entries: every entry is on the page
    of each of its categories. *)
Lemma tag_pages_list_all m e tag :
  e ∈ values m → tag ∈ category e →
  tag ∈ allTags (sort_entries (values m))
  ∧ e ∈ tagIndex (sort_entries (values m)) tag.
Proof.
  intros He Htag. split.
  - unfold allTags, unique, flatten. rewrite elem_of_remove_dups.
    apply list_elem_of_In, in_concat. exists (category e).
    split; [|by apply list_elem_of_In].
    apply list_elem_of_In, list_elem_of_fmap. exists e.
    by rewrite elem_of_sort_entries.
  - unfold tagIndex. apply list_elem_of_filter.
    by rewrite elem_of_sort_entries.
Qed.

End Hidden.

(** ** The pages that a regeneration writes *)

Section Pages.
Context {S : Type} `{!Publisher S, !MfObj, !Helpers, !Templates}.
Variables (env : Env) (config : SiteConfig.t).
Implicit Types (w : World S).


End Pages.

(** ** Receiving a webmention *)

Lemma existsb_mention (t : string) (l : list string) :
  existsb (λ m, bool_decide (m = t)) l = true ↔ t ∈ l.
Proof.
  rewrite existsb_exists. split.
  - intros (x & Hin & ->%bool_decide_eq_true). by apply list_elem_of_In.
  - intros Hin. exists t. split; [by apply list_elem_of_In|].
    by apply bool_decide_eq_true.
Qed.

Section Receive.
Context {S : Type} `{!Publisher S, !MfObj, !Helpers, !Templates}.
Variables (env : Env) (config : SiteConfig.t).
Implicit Types (w : World S).

(** C2: once it has the mutex, [receiveWebmention] throws a [BadRequest]
    exactly when the target is not in the index, or the source cannot be
    fetched, or the mentions of the fetched source do not contain the
    target; in these cases the index and the store are as before and no
    write has been performed. *)
Theorem receive_rejects tid w source target :
  locked w = false →
  let fetched := env_fetch env (length (trace w) + 2) source [] in
  let r := run env tid (receiveWebmention config source target) w in
  ((∃ msg, r.1 = Threw (BadRequest msg)) ↔
     entries w !! target = None
     ∨ fetched = None
     ∨ ∃ e, fetched = Some e ∧ target ∉ getMentions e)
  ∧ ((∃ msg, r.1 = Threw (BadRequest msg)) →
       entries r.2 = entries w
       ∧ store r.2 = store w
       ∧ ∃ evs, trace r.2 = evs ++ trace w
                ∧ Forall (λ ev, is_write (ev_op ev) = false) evs).
Proof.
  intros Hfree fetched r. subst fetched r.
  unfold receiveWebmention. simpl. unfold mutex_lock. rewrite Hfree. simpl.
  destruct (entries w !! target) as [te|] eqn:Ht; simpl.
  2:{ split; [split; eauto|]. intros _. split_and!; [done..|].
      eexists [_; _; _]. split; [done|]. by repeat constructor. }
  replace (Datatypes.S (Datatypes.S (length (trace w))))
    with (length (trace w) + 2) by lia.
  destruct (env_fetch env (length (trace w) + 2) source []) as [se|] eqn:Hs;
    simpl.
  2:{ split; [split; eauto|]. intros _. split_and!; [done..|].
      eexists [_; _; _; _]. split; [done|]. by repeat constructor. }
  destruct (existsb _ (getMentions se)) eqn:Hm; simpl.
  - (* the source mentions the target: whatever happens is no BadRequest *)
    apply existsb_mention in Hm. unfold store_call.
    destruct (pub_put _ _ _ _); simpl;
      [destruct (author se); simpl; [destruct (pub_commit _ _); simpl|]|];
      (split;
       [split; [by intros [? [=]]
               | intros [?|[?|(e & [= <-] & ?)]]; done]
       | by intros [? [=]]]).
  - split.
    + split; [|by eauto]. intros _. right. right. exists se. split; [done|].
      intros Hin%existsb_mention. congruence.
    + intros _. split_and!; [done..|].
      eexists [_; _; _; _]. split; [done|]. by repeat constructor.
Qed.
End Receive.

(** ** Programs that only read *)

Section Reads.
Context {S : Type} `{!Publisher S}.
Variable env : Env.
Implicit Types (w : World S).

Lemma handle_read tid o w r w' :
  is_write o = false → handle env tid o w = Some (r, w') →
  store w' = store w ∧ entries w' = entries w.
Proof.
  destruct o; simpl; try done; try (by intros _ [= <- <-]).
  unfold mutex_lock. destruct (locked w); [done|]. by intros _ [= <- <-].
Qed.

(** A program without writes leaves the store and the index as they are
    and logs no write. *)
Lemma run_reads {A} tid (p : prog A) w :
  all_ops (λ o, is_write o = false) p →
  store (run env tid p w).2 = store w
  ∧ entries (run env tid p w).2 = entries w
  ∧ ∃ evs, trace (run env tid p w).2 = evs ++ trace w
           ∧ Forall (λ ev, is_write (ev_op ev) = false) evs.
Proof.
  intros Hp.
  assert (store (run env tid p w).2 = store w
          ∧ entries (run env tid p w).2 = entries w) as [Hs He].
  { apply (run_invariant env (λ o, is_write o = false)
             (λ w', store w' = store w ∧ entries w' = entries w));
      [|done..].
    intros o w1 r w2 Ho [<- <-] Hh. by eapply handle_read. }
  split_and!; [done..|].
  destruct (run_events env _ tid p w Hp) as (evs & Hevs & Hall).
  exists evs. split; [done|]. eapply Forall_impl; [done|]. by intros ? [_ ?].
Qed.
End Reads.

(** Programs whose operations all satisfy a predicate: the goal is taken
    apart along the program. *)
Ltac ops :=
  lazymatch goal with
  | |- all_ops _ (Ret _) => exact I
  | |- all_ops _ (Throw _) => exact I
  | |- all_ops _ Spin => exact I
  | |- all_ops _ (mret _) => exact I
  | |- all_ops _ (Op _ _) => split; [try done | intros; ops]
  | |- all_ops _ (perform _) => apply all_ops_perform; try done
  | |- all_ops _ (bind _ _) => apply all_ops_bind; [ops | intros; ops]
  | |- all_ops _ (mbind _ _) => apply all_ops_bind; [ops | intros; ops]
  | |- all_ops _ (try_catch _ _) =>
      apply all_ops_try_catch; [ops | intros; ops]
  | |- all_ops _ (try_finally _ _) => apply all_ops_try_finally; ops
  | |- all_ops _ (for_of _ _ _) => apply all_ops_for_of; intros; ops
  | |- all_ops _ (util_map _ _) => apply all_ops_util_map; intros; ops
  | |- all_ops _ (match ?x with _ => _ end) => destruct x; ops
  | |- all_ops _ (let _ := _ in _) => cbv zeta; ops
  | |- _ => try (by eauto)
  end.

Section Scan.
Context {S : Type} `{!Publisher S, !MfObj, !Helpers, !Templates}.
Variables (env : Env) (config : SiteConfig.t).
Implicit Types (w : World S) (acc : gmap string Entry).

Lemma scan_key_reads acc key :
  all_ops (λ o, is_write o = false) (scan_key config acc key).
Proof. unfold scan_key, publisher_get, parseEntry. ops. Qed.
End Scan.

Section ScanKeys.
Context {S : Type} `{!Publisher S, !MfObj, !Helpers, !Templates}.
Variables (env : Env) (config : SiteConfig.t).
Implicit Types (w : World S) (acc : gmap string Entry).

Lemma scan_keys_reads keys acc :
  all_ops (λ o, is_write o = false) (for_of keys acc (scan_key config)).
Proof. apply all_ops_for_of. intros. apply scan_key_reads. Qed.

(** The local map after one key. *)
Lemma scan_key_run tid acc key w :
  match (run env tid (scan_key config acc key) w).1 with
  | Returned acc' =>
      ∃ obj, pub_get (store w) key = Some obj
             ∧ ((∃ e, admits config key obj e ∧ acc' = <[url e := e]> acc)
                ∨ ((∀ e, ¬ admits config key obj e) ∧ acc' = acc))
  | Threw err => pub_get (store w) key = None
  | _ => False
  end.
Proof.
  unfold scan_key, admits. simpl.
  destruct (pub_get (store w) key) as [obj|]; simpl; [|done].
  case_bool_decide as Hct; simpl.
  2:{ exists obj. split; [done|]. right. split; [|done]. by intros e [? _]. }
  rewrite run_try_catch. unfold parseEntry.
  destruct (getEntryFromHtml _ _) as [| |e] eqn:Hparse; simpl.
  - exists obj. split; [done|]. right. split; [|done]. intros e (_ & ? & _); congruence.
  - exists obj. split; [done|]. right. split; [|done]. intros e (_ & ? & _); congruence.
  - case_bool_decide as Hu; simpl; (exists obj; split; [done|]).
    + left. by exists e.
    + right. split; [|done]. intros e' (_ & He' & ?).
      rewrite Hparse in He'. injection He' as <-. done.
Qed.

(** The local map after all keys: the loop fails only when the store
    rejects a [get]; what it adds to the map is admitted. *)
Lemma scan_keys_run tid keys acc w :
  match (run env tid (for_of keys acc (scan_key config)) w).1 with
  | Returned acc' =>
      Forall (λ key, is_Some (pub_get (store w) key)) keys
      ∧ (∀ u e, acc' !! u = Some e →
           acc !! u = Some e
           ∨ ∃ key obj, key ∈ keys ∧ pub_get (store w) key = Some obj
                        ∧ admits config key obj e ∧ u = url e)
      ∧ (∀ u, is_Some (acc !! u) → is_Some (acc' !! u))
      ∧ (∀ key obj e, key ∈ keys → pub_get (store w) key = Some obj →
           admits config key obj e → is_Some (acc' !! url e))
  | Threw err => ∃ key, key ∈ keys ∧ pub_get (store w) key = None
  | _ => False
  end.
Proof.
  revert acc w. induction keys as [|key keys IH]; intros acc w.
  { simpl. split_and!; [constructor|by left|done|].
    by intros ??? ?%elem_of_nil. }
  cbn [for_of]. rewrite run_bind.
  pose proof (scan_key_run tid acc key w) as Hkey.
  pose proof (run_reads env tid (scan_key config acc key) w
                (scan_key_reads config acc key)) as (Hstore & _ & _).
  destruct (run env tid (scan_key config acc key) w) as [[acc1| | |] w1];
    simpl in *; [|exists key; split; [left|done]|done..].
  specialize (IH acc1 w1). rewrite Hstore in IH.
  destruct (run env tid (for_of keys acc1 (scan_key config)) w1)
    as [[acc'| | |] w']; simpl in *; [| |done..].
  - destruct Hkey as (obj & Hobj & Hacc1).
    destruct IH as (Hall & Honly & Hmono & Hcompl).
    split_and!.
    + constructor; [by rewrite Hobj|done].
    + intros u e [Hin|(k & o & ? & ? & ? & ?)]%Honly.
      * destruct Hacc1 as [(e1 & Hadm & ->)|[_ ->]]; [|by left].
        destruct (decide (url e1 = u)) as [<-|Hne].
        -- rewrite lookup_insert_eq in Hin. injection Hin as <-.
           right. exists key, obj. split_and!; [left|done..].
        -- rewrite lookup_insert_ne in Hin by done. by left.
      * right. exists k, o. split_and!; [by right|done..].
    + intros u Hu. apply Hmono.
      destruct Hacc1 as [(e1 & _ & ->)|[_ ->]]; [|done].
      rewrite lookup_insert. case_decide; [by eexists|done].
    + intros k o e [->|Hin]%elem_of_cons Hget Hadm; [|by eapply Hcompl].
      apply Hmono. rewrite Hobj in Hget. injection Hget as <-.
      destruct Hacc1 as [(e1 & Hadm1 & ->)|[Hnone _]];
        [|by destruct (Hnone e)].
      assert (e1 = e) as ->.
      { destruct Hadm as (_ & He & _), Hadm1 as (_ & He1 & _). congruence. }
      rewrite lookup_insert_eq. by eexists.
  - destruct IH as (k & Hin & Hk). exists k. split; [by right|done].
Qed.
End ScanKeys.

Section Scan.
Context {S : Type} `{!Publisher S, !MfObj, !Helpers, !Templates}.
Variables (env : Env) (config : SiteConfig.t).
Implicit Types (w : World S).

(** C6: [scan] fails only when the store rejects [list] or a [get]: an
    object that does not parse or whose address does not match is skipped.
    After a scan that returned, every entry of the index was admitted from
    an object of a scanned key: HTML that parses to the entry, whose
    address is the address of the key, exactly or after [.html] is
    appended to it.  The index changes in one step, the last one: the only
    write of the call is the assignment of the complete map, and a scan
    that fails leaves the index as it was. *)
Theorem scan_admission tid w :
  let r := run env tid (scan config) w in
  (r.1 = Returned () ↔
     ∃ keys, pub_list (store w) = Some keys
             ∧ Forall (λ key, is_Some (pub_get (store w) key)) (scanned keys))
  ∧ (r.1 = Returned () →
       ∀ u e, entries r.2 !! u = Some e →
         ∃ keys key obj,
           pub_list (store w) = Some keys ∧ key ∈ scanned keys
           ∧ pub_get (store w) key = Some obj
           ∧ admits config key obj e ∧ u = url e)
  ∧ ∃ evs, trace r.2 = evs ++ trace w
           ∧ match r.1 with
             | Returned _ =>
                 ∃ evs', evs = mkEvent tid (OEntriesAssign (entries r.2)) true
                                 :: evs'
                         ∧ Forall (λ ev, is_write (ev_op ev) = false) evs'
             | _ => entries r.2 = entries w
                    ∧ Forall (λ ev, is_write (ev_op ev) = false) evs
             end.
Proof.
  intros r. subst r. unfold scan. rewrite mbind_bind, run_bind.
  assert (run env tid publisher_list w =
            match pub_list (store w) with
            | Some keys => (Returned keys, log tid OList true w)
            | None => (Threw (StoreError "list"), log tid OList false w)
            end) as ->.
  { simpl. by destruct (pub_list (store w)). }
  destruct (pub_list (store w)) as [keys|] eqn:Hlist.
  2:{ simpl. split_and!.
      - split; [done|]. by intros (? & [=] & _).
      - done.
      - eexists [_]. split; [done|]. split; [done|]. by repeat constructor. }
  fold (scanned keys). rewrite mbind_bind, run_bind.
  set (w1 := log tid OList true w).
  pose proof (scan_keys_run env config tid (scanned keys) ∅ w1) as Hrun.
  pose proof (run_reads env tid (for_of (scanned keys) ∅ (scan_key config)) w1
                (scan_keys_reads config _ _)) as (Hstore & Hentries & Hevs).
  destruct (run env tid (for_of (scanned keys) ∅ (scan_key config)) w1)
    as [[acc| | |] w2]; simpl in *; [| |done..].
  - destruct Hrun as (Hall & Honly & _ & _).
    destruct Hevs as (evs & Htrace & Hquiet).
    split_and!.
    + split; [|done]. intros _. by exists keys.
    + intros _ u e Hu. destruct (Honly u e Hu) as [Hin|Hin]; [done|].
      destruct Hin as (key & obj & ? & ? & ? & ?). by exists keys, key, obj.
    + exists (mkEvent tid (OEntriesAssign acc) true :: evs ++ [mkEvent tid OList true]).
      rewrite Htrace. split; [simpl; by rewrite <- app_assoc|].
      eexists. split; [done|]. apply Forall_app. split; [done|].
      by repeat constructor.
  - destruct Hrun as (key & Hin & Hnone).
    destruct Hevs as (evs & Htrace & Hquiet).
    split_and!.
    + split; [done|]. intros (keys' & [= <-] & Hall).
      rewrite Forall_forall in Hall. apply Hall in Hin.
      rewrite Hnone in Hin. by destruct Hin.
    + done.
    + exists (evs ++ [mkEvent tid OList true]).
      rewrite Htrace. split; [simpl; by rewrite <- app_assoc|].
      split; [done|]. apply Forall_app. split; [done|]. by repeat constructor.
Qed.
End Scan.

(** ** Slug allocation *)

Lemma candidate_succ prefix n k :
  candidate prefix n (Datatypes.S k) = candidate prefix (incr n) k.
Proof. unfold candidate. by rewrite Nat.iter_succ_r. Qed.

Lemma iter_incr_blank k :
  Nat.iter (Datatypes.S k) incr Blank = Num (Datatypes.S k).
Proof. induction k as [|k IH]; [done|]. simpl in *. by rewrite IH. Qed.

Lemma iter_incr_num k n : Nat.iter k incr (Num n) = Num (k + n).
Proof. induction k as [|k IH]; [done|]. simpl. by rewrite IH. Qed.

(** The keys probed for a named post: the bare name, then the name with
    1, 2, ... appended. *)
Lemma candidate_blank prefix k :
  candidate prefix Blank k =
    prefix +:+ match k with 0 => EmptyString | _ => pretty k end.
Proof. destruct k; [done|]. unfold candidate. by rewrite iter_incr_blank. Qed.

(** The keys probed for a nameless post: [prefix] followed by [n], [n+1],
    and so on. *)
Lemma candidate_num prefix n k :
  candidate prefix (Num n) k = prefix +:+ pretty (k + n).
Proof. unfold candidate. by rewrite iter_incr_num. Qed.

(** A boolean property that fails somewhere fails at a least index. *)
Lemma least_false (P : nat → bool) k :
  P k = false → ∃ k0, P k0 = false ∧ ∀ i, i < k0 → P i = true.
Proof.
  assert (∀ n, (∃ k0, k0 < n ∧ P k0 = false ∧ ∀ i, i < k0 → P i = true)
               ∨ (∀ i, i < n → P i = true)) as Hsearch.
  { induction n as [|n [(k0 & ? & ? & ?)|Hall]].
    - right. intros; lia.
    - left. exists k0. split_and!; [lia|done..].
    - destruct (P n) eqn:Hn.
      + right. intros i Hi. destruct (decide (i = n)) as [->|]; [done|].
        apply Hall. lia.
      + left. exists n. split_and!; [lia|done..]. }
  intros Hk. destruct (Hsearch (Datatypes.S k)) as [(k0 & _ & ? & ?)|Hall].
  - by exists k0.
  - rewrite Hall in Hk by lia. done.
Qed.

Section Slug.
Context {S : Type} `{!Publisher S, !MfObj, !Helpers, !Templates}.
Variables (env : Env).
Implicit Types (w : World S) (n : counter).

(** One round of the loop. *)
Lemma getNextAvailable_round tid fuel n prefix w :
  run env tid (getNextAvailable (Datatypes.S fuel) n prefix) w =
    let w' := log tid (OExists (candidate prefix n 0)) true w in
    if pub_exists (store w) (candidate prefix n 0)
    then run env tid (getNextAvailable fuel (incr n) prefix) w'
    else (Returned (candidate prefix n 0), w').
Proof. simpl. unfold candidate. simpl. by destruct (pub_exists _ _). Qed.

(** The loop returns the first probed key that the store does not have. *)
Lemma getNextAvailable_first tid k : ∀ fuel n prefix w,
  (∀ i, i < k → pub_exists (store w) (candidate prefix n i) = true) →
  pub_exists (store w) (candidate prefix n k) = false →
  k < fuel →
  (run env tid (getNextAvailable fuel n prefix) w).1
    = Returned (candidate prefix n k).
Proof.
  induction k as [|k IH]; intros fuel n prefix w Htaken Hfree Hfuel;
    (destruct fuel as [|fuel]; [lia|]); rewrite getNextAvailable_round;
    cbv zeta.
  - by rewrite Hfree.
  - rewrite (Htaken 0) by lia. rewrite candidate_succ.
    apply IH; [| |lia].
    + intros i Hi. rewrite <- candidate_succ. apply Htaken. lia.
    + by rewrite <- candidate_succ.
Qed.

(** When the store has every probed key, the loop uses up any fuel. *)
Lemma getNextAvailable_spins tid : ∀ fuel n prefix w,
  (∀ k, pub_exists (store w) (candidate prefix n k) = true) →
  (run env tid (getNextAvailable fuel n prefix) w).1 = Diverged.
Proof.
  induction fuel as [|fuel IH]; intros n prefix w Htaken; [done|].
  rewrite getNextAvailable_round. cbv zeta. rewrite (Htaken 0).
  apply IH. intros k. rewrite <- candidate_succ. apply Htaken.
Qed.


(** C5, as the code has it: for a named post [getSlug] probes
    [prefix/kebab-case(name)] first and then the same key with 1, 2, 3, ...
    appended (no hyphen: the counter starts as the empty string and [n++]
    makes it 1), and returns the first probed key that the store reports as
    not existing.  On 2 March 2024 a post named "Hello", when kebab-case
    makes that "hello", is probed at [/2024/3/2/hello] and then at
    [/2024/3/2/hello1]. *)
Theorem getSlug_named tid w fuel (name : string) date k :
  let prefix := datepart date +:+ "/" +:+ kebabCase name in
  let key i := prefix +:+ match i with 0 => EmptyString | _ => pretty i end in
  (∀ i, i < k → pub_exists (store w) (key i) = true) →
  pub_exists (store w) (key k) = false →
  k < fuel →
  (run env tid (getSlug fuel (Some name) date) w).1 = Returned (key k)
  ∧ (getFullYear date = 2024 → getMonth date = 2 → getDate date = 2 →
     kebabCase name = "hello"%string →
     key 0 = "/2024/3/2/hello"%string ∧ key 1 = "/2024/3/2/hello1"%string).
Proof.
  intros prefix key Htaken Hfree Hfuel. split.
  - unfold getSlug. fold prefix. subst key. simpl in *.
    rewrite <- candidate_blank.
    apply getNextAvailable_first; [|by rewrite candidate_blank|done].
    intros i Hi. rewrite candidate_blank. by apply Htaken.
  - intros Hy Hm Hd Hname. subst key prefix. unfold datepart.
    rewrite Hy, Hm, Hd, Hname. by vm_compute.
Qed.
End Slug.

(** ** What a program can throw *)

Lemma throws_only_bind {A B} (Q : error → Prop) (p : prog A) (f : A → prog B) :
  throws_only Q p → (∀ a, throws_only Q (f a)) → throws_only Q (bind p f).
Proof.
  intros Hp Hf. induction p as [| | |o k IH]; simpl in *; auto.
Qed.

(** A handler decides what gets out of a [try ... catch]. *)
Lemma throws_only_try_catch {A} (Q : error → Prop) (p : prog A)
    (h : error → prog A) :
  (∀ e, throws_only Q (h e)) → throws_only Q (try_catch p h).
Proof. intros Hh. induction p as [| | |o k IH]; simpl in *; auto. Qed.

Lemma throws_only_try_finally {A} (Q : error → Prop) (p : prog A)
    (f : prog unit) :
  throws_only Q p → throws_only Q f → throws_only Q (try_finally p f).
Proof.
  intros Hp Hf. induction p as [| | |o k IH]; simpl in *; auto.
  - by apply throws_only_bind.
  - by apply throws_only_bind.
Qed.

Lemma throws_only_for_of {A B} (Q : error → Prop) (l : list B) (a : A)
    (f : A → B → prog A) :
  (∀ a x, throws_only Q (f a x)) → throws_only Q (for_of l a f).
Proof.
  intros Hf. revert a. induction l as [|x l IH]; intros a; simpl; [done|].
  apply throws_only_bind; auto.
Qed.

Lemma throws_only_util_map {B} (Q : error → Prop) (l : list B)
    (f : B → prog unit) :
  (∀ x, throws_only Q (f x)) → throws_only Q (util_map l f).
Proof.
  intros Hf. induction l as [|x l IH]; simpl; [done|].
  apply throws_only_bind; auto.
Qed.

Lemma run_throws_only {S} `{!Publisher S} env {A} (Q : error → Prop) tid
    (p : prog A) (w : World S) e :
  throws_only Q p → (run env tid p w).1 = Threw e → Q e.
Proof.
  revert w. induction p as [| | |o k IH]; intros w Hp; simpl in *;
    try done.
  - by intros [= <-].
  - destruct (handle env tid o w) as [[r w']|]; [by apply IH|done].
Qed.

Ltac throws :=
  lazymatch goal with
  | |- throws_only _ (Ret _) => exact I
  | |- throws_only _ (mret _) => exact I
  | |- throws_only _ Spin => exact I
  | |- throws_only _ (Throw _) => simpl; try (by intros [])
  | |- throws_only _ (Op _ _) => intros; throws
  | |- throws_only _ (perform _) => intros ?; exact I
  | |- throws_only _ (bind _ _) =>
      apply throws_only_bind; [throws | intros; throws]
  | |- throws_only _ (mbind _ _) =>
      apply throws_only_bind; [throws | intros; throws]
  | |- throws_only _ (try_catch _ _) =>
      apply throws_only_try_catch; intros; throws
  | |- throws_only _ (try_finally _ _) =>
      apply throws_only_try_finally; throws
  | |- throws_only _ (for_of _ _ _) =>
      apply throws_only_for_of; intros; throws
  | |- throws_only _ (util_map _ _) =>
      apply throws_only_util_map; intros; throws
  | |- throws_only _ (match ?x with _ => _ end) => destruct x; throws
  | |- throws_only _ (let _ := _ in _) => cbv zeta; throws
  | |- _ => try (by eauto)
  end.

Section BestEffort.
Context {S : Type} `{!Publisher S, !MfObj, !Helpers, !Templates}.
Variables (env : Env) (config : SiteConfig.t).
Implicit Types (w : World S).

Lemma getNextAvailable_throws Q fuel n prefix :
  throws_only Q (getNextAvailable fuel n prefix).
Proof.
  revert n. induction fuel as [|fuel IH]; intros n; simpl; [done|].
  intros [|]; [apply IH|done].
Qed.

Lemma generateStreams_throws :
  throws_only (λ e, ¬ best_effort e) (generateStreams config).
Proof.
  unfold generateStreams, each_chunk, getAll, _generateStream,
    _generateReplyStream, _generateIndex, put.
  throws.
Qed.

Lemma update_throws entry :
  throws_only (λ e, ¬ best_effort e) (update config entry).
Proof.
  pose proof generateStreams_throws.
  unfold update, renderEntry, put. throws.
Qed.

Lemma publish_throws fuel m :
  throws_only (λ e, ¬ best_effort e) (publish config fuel m).
Proof.
  pose proof update_throws.
  pose proof (getNextAvailable_throws (λ e, ¬ best_effort e)).
  unfold publish, publish_entry, draft, embedMentions, sendWebmentionsFor,
    attach, resolve, getSlug, lock, release, now, renderEntry, parseEntry,
    getEntry, posse_syndicate, commit, put.
  throws.
Qed.

(** The oEmbed loop returns whatever the lookups do. *)
Lemma embedMentions_returns tid entry w :
  ∃ entry', (run env tid (embedMentions entry) w).1 = Returned entry'.
Proof.
  unfold embedMentions. generalize (getMentions entry) as links.
  intros links. revert entry w.
  induction links as [|link links IH]; intros entry w; [by eexists|].
  cbn [for_of]. rewrite run_bind, run_try_catch. simpl.
  destruct (env_oembed env _ link); simpl; apply IH.
Qed.

(** The delivery of webmentions returns whatever the deliveries do. *)
Lemma sendWebmentionsFor_returns tid entry w :
  (run env tid (sendWebmentionsFor entry) w).1 = Returned ().
Proof.
  unfold sendWebmentionsFor. generalize (getMentions entry) as links.
  intros links. revert w.
  induction links as [|link links IH]; intros w; [done|].
  cbn [util_map]. rewrite run_bind, run_try_catch. simpl.
  destruct (env_send env _ _ link); simpl; apply IH.
Qed.

(** C7, as the code has it: a failed oEmbed lookup and a failed webmention
    delivery are caught where they happen.  The two loops always return,
    and whatever [publish] throws is neither the error of an oEmbed lookup
    nor that of a webmention delivery. *)
Theorem best_effort_failures_are_caught tid w fuel m entry :
  (∃ entry', (run env tid (embedMentions entry) w).1 = Returned entry')
  ∧ (run env tid (sendWebmentionsFor entry) w).1 = Returned ()
  ∧ (∀ e, (run env tid (publish config fuel m) w).1 = Threw e →
          ¬ best_effort e).
Proof.
  split_and!.
  - apply embedMentions_returns.
  - apply sendWebmentionsFor_returns.
  - intros e He.
    exact (run_throws_only env (λ e, ¬ best_effort e) tid _ w e
             (publish_throws fuel m) He).
Qed.
End BestEffort.

(** ** A publish that fails *)

Section PublishFails.
Context {S : Type} `{!Publisher S, !MfObj, !Helpers, !Templates}.
Variables (env : Env) (config : SiteConfig.t).
Implicit Types (w : World S).

Lemma quiet_read m o : is_write o = false → quiet m o.
Proof.
  unfold is_write. intros [Hs Hi]%orb_false_iff. split; [done|].
  by rewrite Hs.
Qed.

Lemma handle_quiet m tid o w r w' :
  quiet m o → handle env tid o w = Some (r, w') →
  entries w' = entries w
  ∧ (Micropub.photo m = None → Micropub.audio m = None → store w' = store w).
Proof.
  intros [Hi Hs] Hh.
  destruct (is_store_write o) eqn:Hw.
  - destruct (Hs eq_refl) as (slug & u & Hu & ->). simpl in Hh.
    unfold store_call in Hh. destruct (pub_put _ _ _ _); injection Hh as <- <-;
      (split; [done|]); intros Hp Ha; destruct Hu; congruence.
  - assert (is_write o = false) as Hr by (unfold is_write; by rewrite Hw, Hi).
    destruct (handle_read env tid o w r w' Hr Hh) as [-> ->]. done.
Qed.

(** A run of quiet operations leaves the index alone and changes the store
    by attached files only. *)
Lemma run_quiet {A} m tid (p : prog A) w :
  all_ops (quiet m) p →
  entries (run env tid p w).2 = entries w
  ∧ (Micropub.photo m = None → Micropub.audio m = None →
     store (run env tid p w).2 = store w)
  ∧ ∃ evs, trace (run env tid p w).2 = evs ++ trace w
           ∧ Forall (λ ev, quiet m (ev_op ev)) evs.
Proof.
  intros Hp.
  assert (entries (run env tid p w).2 = entries w
          ∧ (Micropub.photo m = None → Micropub.audio m = None →
             store (run env tid p w).2 = store w)) as [He Hs].
  { apply (run_invariant env (quiet m)
             (λ w', entries w' = entries w
                    ∧ (Micropub.photo m = None → Micropub.audio m = None →
                       store w' = store w))); [|done..].
    intros o w1 r w2 Ho [<- Hst] Hh.
    destruct (handle_quiet m tid o w1 r w2 Ho Hh) as [-> Hst'].
    split; [done|]. intros ??. rewrite Hst' by done. auto. }
  split_and!; [done..|].
  destruct (run_events env _ tid p w Hp) as (evs & Hevs & Hall).
  exists evs. split; [done|]. eapply Forall_impl; [done|]. by intros ? [_ ?].
Qed.

Lemma getNextAvailable_reads fuel n prefix :
  all_ops (λ o, is_write o = false) (getNextAvailable fuel n prefix).
Proof.
  revert n. induction fuel as [|fuel IH]; intros n; simpl; [done|].
  split; [done|]. intros [|]; [apply IH|done].
Qed.

Lemma getSlug_reads fuel name date :
  all_ops (λ o, is_write o = false) (getSlug fuel name date).
Proof. unfold getSlug. destruct name; apply getNextAvailable_reads. Qed.

Lemma attach_quiet m wrap slug media inner :
  media = Micropub.photo m ∨ media = Micropub.audio m →
  all_ops (quiet m) (attach wrap slug media inner).
Proof.
  intros Hm. unfold attach, put. destruct media as [u|]; [|done].
  simpl. split; [|by intros []].
  split; [done|]. intros _. exists slug, u. split; [|done].
  destruct Hm as [<-| <-]; auto.
Qed.

Lemma draft_quiet fuel m : all_ops (quiet m) (draft config fuel m).
Proof.
  pose proof (λ name date, all_ops_impl _ (quiet m) _ (quiet_read m)
                (getSlug_reads fuel name date)) as Hslug.
  pose proof (attach_quiet m) as Hattach.
  unfold draft, embedMentions, resolve, now, getEntry, oembed.
  ops; try (by apply quiet_read); try (apply Hattach; auto).
Qed.
End PublishFails.

Lemma all_ops_true {A} (p : prog A) : all_ops (λ _, True) p.
Proof. induction p; simpl; auto. Qed.

Section PublishFailure.
Context {S : Type} `{!Publisher S, !MfObj, !Helpers, !Templates}.
Variables (env : Env) (config : SiteConfig.t).
Implicit Types (w : World S).

Lemma untouched_refl m w : untouched m w w.
Proof. exists []. by split_and!. Qed.

Lemma untouched_run {A} m tid (p : prog A) w w1 :
  untouched m w w1 → all_ops (quiet m) p →
  untouched m w (run env tid p w1).2.
Proof.
  intros (evs & Htr & Hidx & Hmedia & He & Hs) Hp.
  destruct (run_quiet env m tid p w1 Hp) as (He' & Hs' & evs' & Htr' & Hq).
  exists (evs' ++ evs). split_and!.
  - by rewrite Htr', Htr, app_assoc.
  - apply Forall_app. split; [|done].
    eapply Forall_impl; [done|]. by intros ev [? _].
  - apply Forall_app. split; [|done].
    eapply Forall_impl; [done|]. intros ev [_ Hev] ? _. auto.
  - congruence.
  - intros ??. rewrite Hs' by done. auto.
Qed.

(** One more operation that did not take effect. *)
Lemma untouched_log m tid o w w1 :
  untouched m w w1 → is_index_write o = false →
  untouched m w (log tid o false w1).
Proof.
  intros (evs & Htr & Hidx & Hmedia & He & Hs) Ho.
  exists (mkEvent tid o false :: evs). split_and!; simpl; try done.
  - by rewrite Htr.
  - by constructor.
  - constructor; [|done]. by intros _ [=].
Qed.

Lemma untouched_read m tid o w w1 :
  untouched m w w1 → is_write o = false →
  untouched m w (log tid o true w1).
Proof.
  intros (evs & Htr & Hidx & Hmedia & He & Hs) Ho.
  apply orb_false_iff in Ho as [Hst Hix].
  exists (mkEvent tid o true :: evs). split_and!; simpl; try done.
  - by rewrite Htr.
  - by constructor.
  - constructor; [|done]. intros Hw. simpl in Hw. congruence.
Qed.

Lemma untouched_locked m b w w1 :
  untouched m w w1 → untouched m w (set_locked b w1).
Proof. intros (evs & ? & ? & ? & ? & ?). by exists evs. Qed.

Lemma indexed_run {A} tid (p : prog A) w w1 :
  indexed w w1 → indexed w (run env tid p w1).2.
Proof.
  intros (ev & newer & older & Htr & Hev).
  destruct (run_events env _ tid p w1 (all_ops_true p)) as (evs & Htr' & _).
  exists ev, (evs ++ newer), older. split; [|done].
  by rewrite Htr', Htr, app_assoc.
Qed.

(** What the two predicates say about the events since [w]. *)
Lemma untouched_events m w w' evs :
  untouched m w w' → trace w' = evs ++ trace w →
  entries w' = entries w
  ∧ Forall (only_media m) evs
  ∧ (Micropub.photo m = None → Micropub.audio m = None → store w' = store w).
Proof.
  intros (evs' & Htr & _ & Hmedia & He & Hs) Hevs.
  rewrite Htr in Hevs. apply app_inv_tail in Hevs as <-. done.
Qed.

Lemma indexed_events w w' evs :
  indexed w w' → trace w' = evs ++ trace w →
  ¬ Forall (λ ev, is_index_write (ev_op ev) = false) evs.
Proof.
  intros (ev & newer & older & Htr & Hev) Hevs Hall.
  rewrite Htr in Hevs.
  replace (newer ++ ev :: older ++ trace w)
    with ((newer ++ ev :: older) ++ trace w) in Hevs
    by (by rewrite <- app_assoc).
  apply app_inv_tail in Hevs as <-.
  apply Forall_app in Hall as [_ Hall]. inversion Hall; congruence.
Qed.

(** What the wrappers do when they run. *)
Lemma run_lock tid w :
  run env tid lock w =
    if locked w then (Blocked, w)
    else (Returned (), log tid OLock true (set_locked true w)).
Proof. simpl. unfold mutex_lock. by destruct (locked w). Qed.

Lemma run_release tid w :
  run env tid release w
    = (Returned (), log tid ORelease true (set_locked false w)).
Proof. done. Qed.

Lemma run_renderEntry tid entry w :
  run env tid (renderEntry config entry) w
    = (Returned (_renderEntry config (entries w) entry),
       log tid OEntries true w).
Proof. done. Qed.

Lemma run_put tid key b ctype w :
  run env tid (put key b ctype) w =
    match pub_put (store w) key b ctype with
    | Some s => (Returned (), log tid (OPut key b ctype) true (set_store s w))
    | None => (Threw (StoreError key), log tid (OPut key b ctype) false w)
    end.
Proof. simpl. unfold store_call. by destruct (pub_put _ _ _ _). Qed.

Lemma run_perform tid o w :
  run env tid (perform o) w =
    match handle env tid o w with
    | Some (r, w') => (Returned r, w')
    | None => (Blocked, w)
    end.
Proof. simpl. by destruct (handle env tid o w) as [[??]|]. Qed.

(** [update] either fails at the write of the entry page, having changed
    nothing, or comes to write the index. *)
Lemma update_cases m tid entry w w1 :
  untouched m w w1 →
  ((∃ e, (run env tid (update config entry) w1).1 = Threw e)
   ∧ untouched m w (run env tid (update config entry) w1).2)
  ∨ indexed w (run env tid (update config entry) w1).2.
Proof.
  intros Hw1. unfold update.
  rewrite mbind_bind, run_bind, run_renderEntry. cbn beta iota.
  set (w2 := log tid OEntries true w1).
  assert (untouched m w w2) as Hw2 by by apply untouched_read.
  clearbody w2.
  rewrite mbind_bind, run_bind, run_put.
  destruct (pub_put (store w2) _ _ _) as [s'|]; cbn beta iota.
  { right. rewrite mbind_bind, run_bind, run_perform. cbn [handle].
    cbn beta iota. apply indexed_run.
    destruct Hw2 as (evs2 & Htr2 & _).
    eexists _, [], (_ :: evs2). split; [simpl; by rewrite Htr2|done]. }
  left. split; [by eexists|]. by apply untouched_log.
Qed.

(** The body of [publish], when it throws, has either not come to the index
    or has written it. *)
Lemma publish_body_throws m tid fuel w e w' :
  run env tid
    (lock;;
     entry ← draft config fuel m;
     html ← renderEntry config entry;
     parsed ← parseEntry (Str html) (url entry);
     match parsed with
     | Some entry => publish_entry config entry
     | None => Throw TypeError
     end) w = (Threw e, w') →
  untouched m w w' ∨ indexed w w'.
Proof.
  rewrite mbind_bind, run_bind, run_lock.
  destruct (locked w); [done|].
  set (w1 := log tid OLock true (set_locked true w)).
  assert (untouched m w w1) as Hw1.
  { apply untouched_read; [apply untouched_locked, untouched_refl|done]. }
  clearbody w1.
  rewrite mbind_bind, run_bind.
  pose proof (untouched_run m tid (draft config fuel m) w w1 Hw1
                (draft_quiet config fuel m)) as Hw2.
  destruct (run env tid (draft config fuel m) w1) as [[entry| | |] w2];
    simpl in Hw2; [|by intros [= <- <-]; left|done..].
  rewrite mbind_bind, run_bind, run_renderEntry. cbn beta iota.
  set (w3 := log tid OEntries true w2).
  assert (untouched m w w3) as Hw3 by by apply untouched_read.
  clearbody w3.
  rewrite mbind_bind, run_bind. unfold parseEntry.
  destruct (getEntryFromHtml _ _) as [| |entry']; simpl run at 1;
    cbn beta iota; [by intros [= <- <-]; left..|].
  unfold publish_entry. rewrite mbind_bind, run_bind.
  destruct (update_cases m tid entry' w w3 Hw3) as [[[e' He'] Hu]|Hu].
  - destruct (run env tid (update config entry') w3) as [out wu].
    simpl in He', Hu. subst out. intros [= <- <-]. by left.
  - destruct (run env tid (update config entry') w3) as [[a| | |] wu];
      simpl in Hu; [|by intros [= <- <-]; right..].
    intros Hrest. right.
    match type of Hrest with
    | run _ _ ?p ?w6 = _ =>
        replace w' with (run env tid p w6).2 by (by rewrite Hrest)
    end.
    by apply indexed_run.
Qed.

(** C1, as the code has it: when [publish] throws before anything has
    written the index (the failure is in the allocation of the slug, the
    resolution of a reference, the write of an attached file, the parse of
    the rendered entry or the write of the entry page), the index is as it
    was and the only store writes that took effect are those of the
    attached photo and audio; without attachments the store is as it
    was. *)
Theorem publish_failure_before_indexing tid w fuel m e :
  let r := run env tid (publish config fuel m) w in
  r.1 = Threw e →
  ∀ evs, trace r.2 = evs ++ trace w →
    Forall (λ ev, is_index_write (ev_op ev) = false) evs →
    entries r.2 = entries w
    ∧ Forall (only_media m) evs
    ∧ (Micropub.photo m = None → Micropub.audio m = None →
       store r.2 = store w).
Proof.
  intros r Hthrew evs Htrace Hnoidx. subst r.
  unfold publish in *. rewrite run_try_finally in *.
  match type of Hthrew with
  | context [run env tid ?body w] =>
      pose proof (publish_body_throws m tid fuel w) as Hbody;
      destruct (run env tid body w) as [[a| e'| |] w1] eqn:Hrun
  end; simpl in Hthrew; try done.
  specialize (Hbody e' w1 eq_refl).
  assert ((run env tid (bind release (λ _, Throw e' : prog Entry)) w1).2
          = log tid ORelease true (set_locked false w1)) as Hend by done.
  rewrite Hend in *. clear Hend.
  destruct Hbody as [Hu|Hi].
  - apply (untouched_events m w _ evs); [|done].
    apply untouched_read; [by apply untouched_locked|done].
  - exfalso.
    apply (indexed_events w (log tid ORelease true (set_locked false w1)) evs)
      in Hnoidx; [done| |done].
    destruct Hi as (ev & newer & older & Htr & Hev).
    exists ev, (mkEvent tid ORelease true :: newer), older.
    split; [simpl; by rewrite Htr|done].
Qed.
End PublishFailure.

(** ** The shape of the calls that take the mutex *)

Lemma tail_crit {A} (p : prog A) : all_ops tail_op p → crit p.
Proof.
  induction p as [| | |o k IH]; simpl; try done.
  intros [Ho Hk]. destruct o; try done. intros r. by apply IH.
Qed.

Lemma inner_crit {A} (p : prog A) : all_ops inner_op p → crit p.
Proof.
  induction p as [| | |o k IH]; simpl; try done.
  intros [[Hl Hr] Hk]. destruct o; try done; intros r; by apply IH.
Qed.

Lemma inner_crit_bind {A B} (p : prog A) (f : A → prog B) :
  all_ops inner_op p → (∀ a, crit (f a)) → crit (bind p f).
Proof.
  intros Hp Hf. induction p as [| | |o k IH]; simpl in *; try done.
  destruct Hp as [[Hl Hr] Hk]. destruct o; try done; intros r; by apply IH.
Qed.

Lemma crit_bind_tail {A B} (p : prog A) (f : A → prog B) :
  crit p → (∀ a, all_ops tail_op (f a)) → crit (bind p f).
Proof.
  intros Hp Hf. induction p as [| | |o k IH]; simpl in *; try done.
  - by apply tail_crit.
  - destruct o; try done; intros r; try (by apply IH).
    by apply all_ops_bind.
Qed.

Lemma crit_try_finally_release {A} (p : prog A) :
  crit p → crit (try_finally p (perform ORelease)).
Proof.
  intros Hp. induction p as [| | |o k IH]; simpl in *; try done.
  destruct o; try done; intros r; try (by apply IH).
  apply all_ops_try_finally; [done|]. by split.
Qed.

Section Shape.
Context `{!MfObj, !Helpers, !Templates}.
Variable config : SiteConfig.t.

Lemma getNextAvailable_inner fuel n prefix :
  all_ops inner_op (getNextAvailable fuel n prefix).
Proof.
  revert n. induction fuel as [|fuel IH]; intros n; simpl; [done|].
  split; [done|]. intros [|]; [apply IH|done].
Qed.

Lemma draft_inner fuel m : all_ops inner_op (draft config fuel m).
Proof.
  pose proof getNextAvailable_inner.
  unfold draft, embedMentions, resolve, attach, getSlug, now, getEntry, oembed,
    put.
  ops; by split.
Qed.

Lemma generateStreams_inner : all_ops inner_op (generateStreams config).
Proof.
  unfold generateStreams, each_chunk, getAll, _generateStream,
    _generateReplyStream, _generateIndex, put.
  ops; by split.
Qed.

Lemma update_inner entry : all_ops inner_op (update config entry).
Proof.
  pose proof generateStreams_inner.
  unfold update, renderEntry, put. ops; by split.
Qed.

Lemma sendWebmentionsFor_tail entry :
  all_ops tail_op (sendWebmentionsFor entry).
Proof. unfold sendWebmentionsFor, sendWebmention. ops. Qed.

Lemma publish_entry_crit entry : crit (publish_entry config entry).
Proof.
  pose proof update_inner.
  unfold publish_entry. rewrite !mbind_bind.
  apply inner_crit_bind; [done|]. intros e1.
  apply inner_crit_bind.
  { unfold posse_syndicate. ops; by split. }
  intros e2. apply inner_crit_bind.
  { unfold commit. ops; by split. }
  intros _. simpl. intros _.
  apply all_ops_bind; [apply sendWebmentionsFor_tail|done].
Qed.

(** [publish] takes the mutex first, releases it after its last write and
    only notifies afterwards. *)
Lemma publish_fresh fuel m : fresh (call (publish config fuel m)).
Proof.
  pose proof (draft_inner fuel m). pose proof publish_entry_crit.
  unfold call, publish. rewrite !mbind_bind. unfold lock, release, perform.
  cbn [bind try_finally fresh]. intros _.
  apply crit_bind_tail; [|done].
  apply (crit_try_finally_release (A:=Entry)).
  apply inner_crit_bind; [done|]. intros entry. rewrite !mbind_bind.
  apply inner_crit_bind; [unfold renderEntry; ops; by split|]. intros html.
  apply inner_crit_bind; [unfold parseEntry; ops|]. intros [entry'|]; [|done].
  done.
Qed.

(** [receiveWebmention] takes the mutex first and releases it last. *)
Lemma receiveWebmention_fresh source target :
  fresh (call (receiveWebmention config source target)).
Proof.
  unfold call, receiveWebmention. rewrite !mbind_bind.
  unfold lock, release, perform.
  cbn [bind try_finally fresh]. intros _.
  apply crit_bind_tail; [|done].
  apply (crit_try_finally_release (A:=unit)).
  apply inner_crit.
  unfold get, getEntry, renderEntry, put, commit. ops; by split.
Qed.
End Shape.

(** ** Calls in flight *)

Lemma crit_Op {A} o (k : resp o → prog A) :
  crit (Op o k) → o ≠ OLock ∧ ∀ r, crit (k r).
Proof.
  destruct o; simpl; try done; intros Hk; (split; [done|]); try done.
  intros r. by apply tail_crit.
Qed.

Lemma crit_cases {A} o (k : resp o → prog A) :
  crit (Op o k) →
  (o = ORelease ∧ ∀ r, all_ops tail_op (k r)) ∨ (inner_op o ∧ ∀ r, crit (k r)).
Proof. destruct o; simpl; try done; intros Hk; try (by right); by left. Qed.



Lemma events_of_cons tid ev tr :
  events_of tid (ev :: tr) =
    if decide (ev_task ev = tid) then events_of tid tr ++ [ev_op ev]
    else events_of tid tr.
Proof.
  unfold events_of. rewrite filter_cons. case_decide; [|done].
  by rewrite reverse_cons, fmap_app.
Qed.


(** One operation of a call keeps its shape. *)
Lemma task_inv_step {A} o (k : resp o → prog A) ops r :
  task_inv (Op o k) ops → task_inv (k r) (ops ++ [o]).
Proof.
  intros [[Hf ->]|[[Hc (inner & -> & Hin)]|[[Ho Hk] (inner & tail & -> & ? & ?)]]].
  - destruct o; try done. right. left. split; [apply Hf|]. by exists [].
  - apply crit_cases in Hc as [[-> Hk]|[Ho Hk]].
    + right. right. split; [apply Hk|]. exists inner, []. by split_and!.
    + right. left. split; [apply Hk|].
      exists (inner ++ [o]). split; [done|].
      apply Forall_app. split; [done|]. by constructor.
  - right. right. split; [apply Hk|].
    exists inner, (tail ++ [o]). split_and!; [|done|].
    + simpl. by rewrite <- !app_assoc.
    + apply Forall_app. split; [done|]. by constructor.
Qed.



Lemma inside_snoc ops o : inside ops → inner_op o → inside (ops ++ [o]).
Proof.
  intros (inner & -> & Hinner) Ho. exists (inner ++ [o]). split; [done|].
  apply Forall_app. split; [done|]. by constructor.
Qed.



(** Where a call stands before its next operation. *)
Lemma task_inv_cases {A} o (k : resp o → prog A) ops :
  task_inv (Op o k) ops →
  (o = OLock ∧ ops = [])
  ∨ (inner_op o ∧ inside ops)
  ∨ (o = ORelease ∧ inside ops)
  ∨ (tail_op o ∧ ORelease ∈ ops).
Proof.
  intros [[Hf ->]|[[Hc (inner & -> & Hin)]|[[Ho _] (inner & tail & -> & _)]]].
  - left. by destruct o.
  - apply crit_cases in Hc as [[-> _]|[Ho _]].
    + right. right. left. split; [done|]. by exists inner.
    + right. left. split; [done|]. by exists inner.
  - right. right. right. split; [done|].
    apply elem_of_cons. right. apply elem_of_app. right.
    apply list_elem_of_here.
Qed.





Section Sched.
Context {S : Type} `{!Publisher S}.
Variable env : Env.
Implicit Types (w : World S) (ts : list (prog unit)).


Lemma handle_inner tid o w r w' :
  inner_op o → handle env tid o w = Some (r, w') → locked w' = locked w.
Proof.
  intros [Hl Hr].
  destruct o; try done; simpl; unfold store_call;
    repeat case_match; by intros [= <- <-].
Qed.

(** What a step is: the operation is performed as [handle] says, unless
    it is a late release, which is only recorded. *)
Lemma step_inv tid ts w ts' w' :
  step env tid ts w = Some (ts', w') →
  ∃ o k r ok, ts !! tid = Some (Op o k)
              ∧ ts' = <[tid := k r]> ts
              ∧ trace w' = mkEvent tid o ok :: trace w
              ∧ ((o = ORelease ∧ holder (trace w) ≠ Some tid
                  ∧ locked w' = locked w)
                 ∨ ((o = ORelease → holder (trace w) = Some tid)
                    ∧ handle env tid o w = Some (r, w'))).
Proof.
  unfold step. destruct (ts !! tid) as [[| | |o k]|] eqn:Hp; try done.
  destruct (handle env tid o w) as [[r w1]|] eqn:Hh; [|done].
  intros [= <- <-].
  destruct (handle_trace env tid o w r w1 Hh) as [ok Htr].
  destruct (late tid o w) eqn:Hlate.
  - exists o, k, r, true. split_and!; [done..|]. left.
    destruct o; try done. simpl in Hlate.
    apply negb_true_iff, bool_decide_eq_false in Hlate. done.
  - exists o, k, r, ok. split_and!; [done..|]. right. split; [|done].
    intros ->. simpl in Hlate.
    by apply negb_false_iff, bool_decide_eq_true in Hlate.
Qed.

(** The calls keep their shapes, whoever steps. *)
Lemma step_task_inv tid ts w ts' w' :
  step env tid ts w = Some (ts', w') →
  (∀ x p, ts !! x = Some p → task_inv p (events_of x (trace w))) →
  ∀ x p, ts' !! x = Some p → task_inv p (events_of x (trace w')).
Proof.
  intros (o & k & r & ok & Hp & -> & Htr & _)%step_inv Hall x p Hx.
  rewrite Htr, events_of_cons. simpl.
  destruct (decide (tid = x)) as [->|Hne].
  - rewrite list_lookup_insert_eq in Hx by by eapply lookup_lt_Some.
    injection Hx as <-. by apply task_inv_step, Hall.
  - rewrite list_lookup_insert_ne in Hx by done. by apply Hall.
Qed.


Lemma sched_invariant (I : list (prog unit) → World S → Prop) picks :
  (∀ tid ts w ts' w', step env tid ts w = Some (ts', w') → I ts w → I ts' w') →
  ∀ ts w ts' w', sched env picks ts w = Some (ts', w') → I ts w → I ts' w'.
Proof.
  intros Hstep. induction picks as [|tid picks IH]; intros ts w ts' w'; simpl.
  - by intros [= <- <-].
  - destruct (step env tid ts w) as [[ts1 w1]|] eqn:Hs; [|done].
    intros Hrest Hi. eapply IH; [done|]. by eapply Hstep.
Qed.
End Sched.

Section Serial.
Context {S : Type} `{!Publisher S, !MfObj, !Helpers, !Templates}.
Variables (env : Env) (config : SiteConfig.t).
Implicit Types (w : World S) (ts : list (prog unit)).

Lemma locked_call_fresh p : locked_call config p → fresh p.
Proof.
  intros [fuel m|source target];
    [apply publish_fresh|apply receiveWebmention_fresh].
Qed.

Lemma holder_of_only x tr :
  Forall (λ ev, ev_task ev = x) tr →
  OLock ∈ events_of x tr → holder tr = Some x.
Proof.
  induction 1 as [|ev tr Hev _ IH]; intros Hin.
  - by apply elem_of_nil in Hin.
  - simpl. destruct (ev_op ev) eqn:Hop; try (by rewrite Hev);
      apply IH; rewrite events_of_cons, decide_True in Hin by done;
      apply elem_of_app in Hin as [Hin|Hin]; try done;
      apply list_elem_of_singleton in Hin; congruence.
Qed.

(** A call that runs alone never makes a late release: the scheduler
    then does what [handle] says at every step. *)
Lemma alone_never_late p picks w ts' w' o k :
  locked_call config p → trace w = [] →
  sched env picks [p] w = Some (ts', w') →
  ts' !! 0 = Some (Op o k) → late 0 o w' = false.
Proof.
  intros Hp%locked_call_fresh Hempty Hsched Hnext.
  assert ((∀ x q, ts' !! x = Some q → task_inv q (events_of x (trace w')))
          ∧ Forall (λ ev, ev_task ev = 0) (trace w')
          ∧ length ts' = 1) as (Htasks & Hown & _).
  { apply (sched_invariant env
             (λ ts w, (∀ x q, ts !! x = Some q →
                              task_inv q (events_of x (trace w)))
                      ∧ Forall (λ ev, ev_task ev = 0) (trace w)
                      ∧ length ts = 1)
             picks) with (ts := [p]) (w := w); [|done|].
    - intros tid ts1 w1 ts2 w2 Hstep (Ht & Ho & Hlen).
      split; [by eapply step_task_inv|].
      destruct (step_inv _ _ _ _ _ _ Hstep)
        as (o1 & k1 & r & ok & Hq & -> & Htr & _).
      pose proof (lookup_lt_Some _ _ _ Hq) as Hlt.
      rewrite Htr, length_insert. split; [|done].
      constructor; [simpl; lia|done].
    - rewrite Hempty. split_and!; [|done..].
      intros [|x] q Hq; [|done]. injection Hq as <-. by left. }
  destruct o; try done. simpl.
  apply negb_false_iff, bool_decide_eq_true, holder_of_only; [done|].
  destruct (task_inv_cases _ _ _ (Htasks 0 _ Hnext))
    as [[Hlock _]|[[[_ Hne] _]|[[_ (inner & -> & _)]|[_ Hrel]]]].
  - done.
  - done.
  - apply list_elem_of_here.
  - destruct (Htasks 0 _ Hnext)
      as [[_ Hnil]|[[_ (inner & -> & _)]|[_ (inner & tail & -> & _)]]].
    + rewrite Hnil in Hrel. by apply elem_of_nil in Hrel.
    + apply list_elem_of_here.
    + apply list_elem_of_here.
Qed.

End Serial.

(** ** The site of [Demo]: instances of the statements *)

Section Examples.
#[local] Existing Instances Demo.mem_publisher Demo.full_publisher
  Demo.helpers Demo.mfobj
  Demo.templates.

Lemma keyed_site_index : keyed Demo.site_index.
Proof. apply (bool_decide_unpack _). by vm_compute. Qed.



Lemma secret_hidden : "hidden"%string ∈ category Demo.secret.
Proof. apply list_elem_of_here. Qed.

Lemma secret_indexed : Demo.site_index !! url Demo.secret = Some Demo.secret.
Proof. by vm_compute. Qed.

Lemma hidden_excluded_from_streams_witness :
  Demo.site_index !! url Demo.secret = Some Demo.secret
  ∧ "hidden"%string ∈ category Demo.secret
  ∧ (∀ page,
       page ∈ mainStream Demo.config (sort_entries (values Demo.site_index)) →
       Demo.secret ∉ page).
Proof.
  split; [exact secret_indexed|]. split; [exact secret_hidden|].
  exact (proj1 (hidden_excluded_from_streams Demo.config Demo.site_index
                  (url Demo.secret) Demo.secret secret_indexed secret_hidden)).
Defined.

(** C4 as it is stated fails on the tag pages: the hidden post [secret] is
    listed on the page of its tag "diary". *)
Lemma hidden_entry_on_tag_page :
  Demo.site_index !! url Demo.secret = Some Demo.secret
  ∧ "hidden"%string ∈ category Demo.secret
  ∧ "diary"%string ∈ allTags (sort_entries (values Demo.site_index))
  ∧ Demo.secret
      ∈ tagIndex (sort_entries (values Demo.site_index)) "diary"%string.
Proof.
  split; [exact secret_indexed|]. split; [exact secret_hidden|].
  apply tag_pages_list_all.
  - apply elem_of_values. exists (url Demo.secret). exact secret_indexed.
  - apply list_elem_of_further, list_elem_of_here.
Qed.

(** C1 as it is stated fails: with a store that rejects the articles page,
    [publish] throws during regeneration, before any commit, and yet the
    entry is in the index and its page and the first stream page are in the
    store. *)
Lemma publish_failure_after_indexing :
  let w := Demo.start (Demo.mkMem ∅ [] ["/articles"%string]) in
  let r := run Demo.offline 0 (publish Demo.config 5 Demo.hello) w in
  r.1 = Threw (StoreError "/articles")
  ∧ Demo.commits (store r.2) = []
  ∧ entries w !! "https://example.com/2024/3/2/hello"%string = None
  ∧ is_Some (entries r.2 !! "https://example.com/2024/3/2/hello"%string)
  ∧ is_Some (Demo.objects (store r.2) !! "/2024/3/2/hello"%string)
  ∧ is_Some (Demo.objects (store r.2) !! "index"%string).
Proof. vm_compute. split_and!; try done; by eexists. Qed.

Lemma publish_failure_before_indexing_witness :
  let w := Demo.start (Demo.mkMem ∅ [] ["/2024/3/2/hello"%string]) in
  let r := run Demo.offline 0 (publish Demo.config 5 Demo.snapshot) w in
  r.1 = Threw (StoreError "/2024/3/2/hello")
  ∧ trace r.2 = trace r.2 ++ trace w
  ∧ Forall (λ ev, is_index_write (ev_op ev) = false) (trace r.2)
  ∧ entries r.2 = entries w
  ∧ Forall (only_media Demo.snapshot) (trace r.2)
  ∧ (Micropub.photo Demo.snapshot = None → Micropub.audio Demo.snapshot = None →
     store r.2 = store w).
Proof.
  intros w r.
  assert (r.1 = Threw (StoreError "/2024/3/2/hello")) as Hthrew
    by by vm_compute.
  assert (trace r.2 = trace r.2 ++ trace w) as Htrace
    by (symmetry; apply app_nil_r).
  assert (Forall (λ ev, is_index_write (ev_op ev) = false) (trace r.2))
    as Hnoidx by (vm_compute; repeat constructor).
  split; [exact Hthrew|]. split; [exact Htrace|]. split; [exact Hnoidx|].
  exact (publish_failure_before_indexing Demo.offline Demo.config 0 w 5
           Demo.snapshot _ Hthrew (trace r.2) Htrace Hnoidx).
Defined.

Lemma receive_rejects_witness :
  locked Demo.site = false
  ∧ let fetched :=
      env_fetch Demo.web (length (trace Demo.site) + 2) Demo.elsewhere [] in
    let r := run Demo.web 0
               (receiveWebmention Demo.config Demo.elsewhere (url Demo.two))
               Demo.site in
    ((∃ msg, r.1 = Threw (BadRequest msg)) ↔
       entries Demo.site !! url Demo.two = None
       ∨ fetched = None
       ∨ ∃ e, fetched = Some e ∧ url Demo.two ∉ getMentions e)
    ∧ ((∃ msg, r.1 = Threw (BadRequest msg)) →
         entries r.2 = entries Demo.site
         ∧ store r.2 = store Demo.site
         ∧ ∃ evs, trace r.2 = evs ++ trace Demo.site
                  ∧ Forall (λ ev, is_write (ev_op ev) = false) evs).
Proof.
  split; [reflexivity|].
  exact (receive_rejects Demo.web Demo.config 0 Demo.site Demo.elsewhere
           (url Demo.two) eq_refl).
Defined.

(** C5 as it is stated fails: the second post named "Hello" of the day
    gets the address [/2024/3/2/hello1], not [/2024/3/2/hello-2]. *)
Lemma second_hello_has_no_hyphen :
  let r1 := run Demo.offline 0 (publish Demo.config 5 Demo.hello)
              (Demo.start Demo.empty_store) in
  let r2 := run Demo.offline 0 (publish Demo.config 5 Demo.hello) r1.2 in
  Demo.address r1.1 = Some "https://example.com/2024/3/2/hello"%string
  ∧ Demo.address r2.1 = Some "https://example.com/2024/3/2/hello1"%string
  ∧ Demo.address r2.1 ≠ Some "https://example.com/2024/3/2/hello-2"%string.
Proof. vm_compute. by split_and!. Qed.

Lemma hello_taken i :
  i < 1 →
  pub_exists (store Demo.after_hello)
    ((datepart Demo.day +:+ "/" +:+ kebabCase "Hello")
     +:+ match i with 0 => EmptyString | _ => pretty i end) = true.
Proof. intros Hi. replace i with 0 by lia. by vm_compute. Qed.

Lemma hello1_free :
  pub_exists (store Demo.after_hello)
    ((datepart Demo.day +:+ "/" +:+ kebabCase "Hello") +:+ pretty 1) = false.
Proof. by vm_compute. Qed.

Lemma one_lt_five : 1 < 5.
Proof. lia. Qed.

Lemma getSlug_named_witness :
  (∀ i, i < 1 →
     pub_exists (store Demo.after_hello)
       ((datepart Demo.day +:+ "/" +:+ kebabCase "Hello")
        +:+ match i with 0 => EmptyString | _ => pretty i end) = true)
  ∧ pub_exists (store Demo.after_hello)
      ((datepart Demo.day +:+ "/" +:+ kebabCase "Hello") +:+ pretty 1) = false
  ∧ 1 < 5
  ∧ (run Demo.offline 0 (getSlug 5 (Some "Hello"%string) Demo.day)
       Demo.after_hello).1
    = Returned ((datepart Demo.day +:+ "/" +:+ kebabCase "Hello") +:+ pretty 1)
  ∧ ((datepart Demo.day +:+ "/" +:+ kebabCase "Hello") +:+ EmptyString
     = "/2024/3/2/hello"%string
     ∧ (datepart Demo.day +:+ "/" +:+ kebabCase "Hello") +:+ pretty 1
       = "/2024/3/2/hello1"%string).
Proof.
  split; [exact hello_taken|]. split; [exact hello1_free|].
  split; [exact one_lt_five|].
  destruct (getSlug_named Demo.offline 0 Demo.after_hello 5 "Hello" Demo.day 1
              hello_taken hello1_free one_lt_five) as [Hrun Hkeys].
  split; [exact Hrun|].
  exact (Hkeys eq_refl eq_refl eq_refl eq_refl).
Defined.

(** C7 as it is stated fails for syndication: when the syndication service
    rejects, [publish] throws, although the same submission is published
    when the service answers. *)
Lemma syndication_failure_fails_publish :
  (run Demo.offline 0 (publish Demo.config 5 Demo.tweet)
     (Demo.start Demo.empty_store)).1 = Threw SyndicationError
  ∧ Demo.address
      (run Demo.online 0 (publish Demo.config 5 Demo.tweet)
         (Demo.start Demo.empty_store)).1
    = Some "https://example.com/2024/3/2/hello"%string.
Proof. by vm_compute. Qed.








End Examples.

(** * More of [Site] *)

(** ** What a regeneration writes *)

Section RegenerationWrites.
Context {S : Type} `{!Publisher S, !MfObj, !Helpers, !Templates}.
Variables (env : Env) (config : SiteConfig.t).
Implicit Types (w : World S).

(** A regeneration that returns has written exactly the pages of
    [regeneration_puts], in that order: the pages of the main stream, those
    of the reply stream, one page per tag and the articles page.  Every
    write took effect and the index is as before.  A regeneration fails
    only with the error of a rejected store write. *)
Theorem generateStreams_writes tid w :
  let r := run env tid (generateStreams config) w in
  match r.1 with
  | Returned _ => wrote w r.2 (regeneration_puts config (entries w))
  | Threw e => ∃ key, e = StoreError key
  | _ => False
  end.
Proof. apply generateStreams_run. Qed.
End RegenerationWrites.

Section RegenerationEdge.
Context {S : Type} `{!Publisher S, !MfObj, !Helpers, !Templates}.
Variables (env : Env) (config : SiteConfig.t).
Implicit Types (w : World S).

Lemma sort_entries_nil : sort_entries [] = [].
Proof. apply Permutation_nil_r, sort_entries_perm. Qed.

Lemma regeneration_puts_empty :
  regeneration_puts config ∅
  = [html_put "/articles" (_renderIndex config ∅ "Articles" [])].
Proof.
  unfold regeneration_puts. cbv zeta.
  replace (values (∅ : gmap string Entry)) with (@nil Entry)
    by (unfold values; by rewrite map_to_list_empty).
  by rewrite sort_entries_nil.
Qed.

(** With an empty index a regeneration writes the articles page and
    nothing else: no page of a stream is written, so an index page that is
    in the store stays as it is. *)
Theorem generateStreams_empty_index tid w :
  entries w = ∅ →
  (run env tid (generateStreams config) w).1 = Returned () →
  wrote w (run env tid (generateStreams config) w).2
    [html_put "/articles" (_renderIndex config ∅ "Articles" [])].
Proof.
  intros Hempty Hret.
  pose proof (generateStreams_run env config tid w) as Hw. cbv zeta in Hw.
  rewrite Hret in Hw. by rewrite Hempty, regeneration_puts_empty in Hw.
Qed.

Lemma generateStreams_pages :
  all_ops (λ o, o = OEntries ∨ ∃ key html, o = html_put key html)
    (generateStreams config).
Proof.
  unfold generateStreams, each_chunk, getAll, _generateStream,
    _generateReplyStream, _generateIndex, put.
  ops; try (by left); right; by eexists _, _.
Qed.

Lemma generateStreams_shape tid w :
  let r := run env tid (generateStreams config) w in
  entries r.2 = entries w ∧ locked r.2 = locked w
  ∧ ∃ evs, trace r.2 = evs ++ trace w
           ∧ Forall (λ ev, ev_op ev = OEntries
                           ∨ ∃ key html, ev_op ev = html_put key html) evs.
Proof.
  intros r. subst r.
  assert (entries (run env tid (generateStreams config) w).2 = entries w
          ∧ locked (run env tid (generateStreams config) w).2 = locked w)
    as [-> ->].
  { apply (run_invariant env
             (λ o, o = OEntries ∨ ∃ key html, o = html_put key html)
             (λ w', entries w' = entries w ∧ locked w' = locked w));
      [|apply generateStreams_pages|done].
    intros o w1 r w2 [->|(key & html & ->)] [<- <-].
    - by intros [= <- <-].
    - simpl. unfold store_call. destruct (pub_put _ _ _ _); by intros [= <- <-]. }
  split; [done|]. split; [done|].
  destruct (run_events env _ tid (generateStreams config) w generateStreams_pages)
    as (evs & Htr & Hall).
  exists evs. split; [done|]. eapply Forall_impl; [done|]. by intros ev [_ ?].
Qed.

(** Whatever its outcome, a regeneration only reads the entry map and puts
    HTML pages: it deletes nothing from the store, commits nothing, and
    leaves the index and the mutex alone. *)
Theorem generateStreams_only_puts tid w :
  let r := run env tid (generateStreams config) w in
  entries r.2 = entries w ∧ locked r.2 = locked w
  ∧ ∃ evs, trace r.2 = evs ++ trace w
           ∧ Forall (λ ev, ev_op ev = OEntries
                           ∨ ∃ key html, ev_op ev = html_put key html) evs.
Proof. apply generateStreams_shape. Qed.
End RegenerationEdge.

(** Different pages of a stream have different paths. *)
Theorem getPathForIndex_inj : Inj (=) (=) getPathForIndex.
Proof. apply getPathForIndex_injective. Qed.

(** ** Insert, look up, delete *)

Section IndexOps.
Context {S : Type} `{!Publisher S, !MfObj, !Helpers, !Templates}.
Variables (env : Env) (config : SiteConfig.t).
Implicit Types (w : World S).

Lemma generateStreams_keeps tid w :
  entries (run env tid (generateStreams config) w).2 = entries w
  ∧ locked (run env tid (generateStreams config) w).2 = locked w.
Proof.
  pose proof (generateStreams_shape env config tid w) as Hgen. cbv zeta in Hgen.
  tauto.
Qed.

Lemma generateStreams_outcome tid w :
  (run env tid (generateStreams config) w).1 = Returned ()
  ∨ ∃ key, (run env tid (generateStreams config) w).1 = Threw (StoreError key).
Proof.
  pose proof (generateStreams_run env config tid w) as Hgen. cbv zeta in Hgen.
  destruct (run env tid (generateStreams config) w) as [[[]| | |] w'];
    simpl in *; [by left| |done..].
  destruct Hgen as [key ->]. right. by exists key.
Qed.

Lemma update_run tid w entry :
  let r := run env tid (update config entry) w in
  match pub_put (store w) (getPath entry)
          (Str (_renderEntry config (entries w) entry))
          (Some "text/html"%string) with
  | Some _ =>
      entries r.2 = <[url entry := entry]> (entries w)
      ∧ (run env tid (get (url entry)) r.2).1 = Returned entry
      ∧ (r.1 = Returned entry ∨ ∃ key, r.1 = Threw (StoreError key))
  | None =>
      r.1 = Threw (StoreError (getPath entry))
      ∧ entries r.2 = entries w ∧ store r.2 = store w
  end.
Proof.
  unfold update. cbv zeta.
  rewrite mbind_bind, run_bind, run_renderEntry. cbn beta iota.
  rewrite mbind_bind, run_bind, run_put. cbn [store entries log].
  destruct (pub_put (store w) _ _ _) as [s|]; cbn beta iota; [|done].
  rewrite mbind_bind, run_bind, run_perform. cbn [handle]. cbn beta iota.
  set (w3 := log tid (OEntriesSet _ _) true _).
  assert (entries w3 = <[url entry := entry]> (entries w)) as He3 by done.
  clearbody w3.
  rewrite mbind_bind, run_bind.
  destruct (generateStreams_keeps tid w3) as [He _].
  pose proof (generateStreams_outcome tid w3) as Hout.
  destruct (run env tid (generateStreams config) w3) as [out w4].
  simpl in He, Hout.
  assert (entries w4 = <[url entry:=entry]> (entries w)) as He4 by congruence.
  destruct Hout as [->|[key ->]]; cbn beta iota; cbn [run fst snd].
  - split; [done|]. split; [|by left].
    apply get_returns. rewrite He4. apply lookup_insert_eq.
  - split; [done|]. split; [|right; by exists key].
    apply get_returns. rewrite He4. apply lookup_insert_eq.
Qed.

(** [update] and [get]: when the store takes the entry page, the entry is
    in the index under its address from then on and [get] returns it, also
    when the regeneration that follows fails; when the store rejects the
    entry page, [update] throws and nothing has changed. *)
Theorem update_then_get tid w entry :
  let r := run env tid (update config entry) w in
  match pub_put (store w) (getPath entry)
          (Str (_renderEntry config (entries w) entry))
          (Some "text/html"%string) with
  | Some _ =>
      entries r.2 = <[url entry := entry]> (entries w)
      ∧ (run env tid (get (url entry)) r.2).1 = Returned entry
      ∧ (r.1 = Returned entry ∨ ∃ key, r.1 = Threw (StoreError key))
  | None =>
      r.1 = Threw (StoreError (getPath entry))
      ∧ entries r.2 = entries w ∧ store r.2 = store w
  end.
Proof. apply update_run. Qed.

(** [delete] of an address that is not in the index throws [NotFound] and
    performs no write. *)
Theorem delete_unknown tid w u :
  entries w !! u = None →
  let r := run env tid (delete config u) w in
  (∃ msg, r.1 = Threw (NotFound msg))
  ∧ entries r.2 = entries w ∧ store r.2 = store w
  ∧ ∃ evs, trace r.2 = evs ++ trace w
           ∧ Forall (λ ev, is_write (ev_op ev) = false) evs.
Proof.
  intros Hu. unfold delete, get. simpl. rewrite Hu. simpl.
  split; [by eexists|]. split; [done|]. split; [done|].
  eexists [_]. split; [done|]. by repeat constructor.
Qed.

(** [delete] of an indexed address: when the store rejects the deletion,
    [delete] throws and the entry stays; when the store takes it, the
    entry is gone from the index (under the address it carries), also when
    the regeneration that follows fails, and nothing is committed. *)
Theorem delete_known tid w u e :
  entries w !! u = Some e →
  let r := run env tid (delete config u) w in
  match pub_delete (store w) (getPath e) (Some "text/html"%string) with
  | Some _ =>
      entries r.2 = base.delete (url e) (entries w)
      ∧ (∃ msg, (run env tid (get (url e)) r.2).1 = Threw (NotFound msg))
      ∧ (r.1 = Returned () ∨ ∃ key, r.1 = Threw (StoreError key))
  | None =>
      r.1 = Threw (StoreError (getPath e))
      ∧ entries r.2 = entries w ∧ store r.2 = store w
  end.
Proof.
  intros Hu. unfold delete. cbv zeta.
  rewrite mbind_bind, run_bind.
  assert (run env tid (get u) w = (Returned e, log tid OEntries true w)) as ->.
  { unfold get. simpl. by rewrite Hu. }
  cbn beta iota.
  rewrite mbind_bind, run_bind.
  assert (∀ w1, run env tid (publisher_delete (getPath e) (Some "text/html"%string)) w1
          = match pub_delete (store w1) (getPath e) (Some "text/html"%string) with
            | Some s => (Returned (),
                         log tid (ODelete (getPath e) (Some "text/html"%string))
                           true (set_store s w1))
            | None => (Threw (StoreError (getPath e)),
                       log tid (ODelete (getPath e) (Some "text/html"%string))
                         false w1)
            end) as ->.
  { intros w1. simpl. unfold store_call. by destruct (pub_delete _ _ _). }
  cbn [store entries log].
  destruct (pub_delete (store w) _ _) as [s|]; cbn beta iota; [|done].
  rewrite mbind_bind, run_bind, run_perform. cbn [handle]. cbn beta iota.
  set (w3 := log tid (OEntriesDelete _) true _).
  assert (entries w3 = base.delete (url e) (entries w)) as He3 by done.
  clearbody w3.
  destruct (generateStreams_keeps tid w3) as [He _].
  pose proof (generateStreams_outcome tid w3) as Hout.
  destruct (run env tid (generateStreams config) w3) as [out w4].
  simpl in He, Hout |- *.
  assert (entries w4 = base.delete (url e) (entries w)) as He4 by congruence.
  split; [done|]. split; [|done].
  rewrite He4, lookup_delete_eq. by eexists.
Qed.
End IndexOps.

(** ** More on slug allocation *)

Lemma show_iter_inj n k1 k2 :
  show (Nat.iter k1 incr n) = show (Nat.iter k2 incr n) → k1 = k2.
Proof.
  destruct n as [|m].
  - destruct k1 as [|k1], k2 as [|k2]; rewrite ?iter_incr_blank; simpl.
    + done.
    + intros Heq. by destruct (pretty_nat_nonempty (Datatypes.S k2)).
    + intros Heq. by destruct (pretty_nat_nonempty (Datatypes.S k1)).
    + by intros ?%(inj pretty).
  - rewrite !iter_incr_num. simpl. intros ?%(inj pretty). lia.
Qed.

(** No key is probed twice. *)
Lemma candidate_inj prefix n : Inj (=) (=) (candidate prefix n).
Proof.
  intros k1 k2. unfold candidate.
  intros ?%string_app_inv_head. by eapply show_iter_inj.
Qed.

Section SlugMore.
Context {S : Type} `{!Publisher S, !MfObj, !Helpers, !Templates}.
Variables (env : Env).
Implicit Types (w : World S) (n : counter).

(** On a store with finitely many keys the loop ends: when all existing
    keys are among [keys], one of the first [length keys + 1] probes finds
    a key that does not exist, and that many rounds suffice. *)
Theorem getNextAvailable_finite tid w n prefix (keys : list string) :
  (∀ key, pub_exists (store w) key = true → key ∈ keys) →
  ∃ k, k ≤ length keys
       ∧ pub_exists (store w) (candidate prefix n k) = false
       ∧ (∀ i, i < k → pub_exists (store w) (candidate prefix n i) = true)
       ∧ ∀ fuel, k < fuel →
           (run env tid (getNextAvailable fuel n prefix) w).1
             = Returned (candidate prefix n k).
Proof.
  intros Hkeys.
  assert (∃ i, i ≤ length keys
               ∧ pub_exists (store w) (candidate prefix n i) = false)
    as (i & Hi & Hfree).
  { destruct (decide (Forall (λ i, pub_exists (store w) (candidate prefix n i)
                                   = true)
                        (seq 0 (Datatypes.S (length keys))))) as [Hall|Hex].
    - exfalso.
      assert (candidate prefix n <$> seq 0 (Datatypes.S (length keys)) ⊆ keys)
        as Hsub.
      { intros key (i & -> & Hin)%list_elem_of_fmap.
        rewrite Forall_forall in Hall. by apply Hkeys, Hall. }
      assert (NoDup (candidate prefix n <$> seq 0 (Datatypes.S (length keys))))
        as Hnd.
      { apply NoDup_fmap_2; [apply candidate_inj|apply NoDup_seq]. }
      pose proof (submseteq_length _ _ (NoDup_submseteq _ _ Hnd Hsub)) as Hlen.
      rewrite length_fmap, length_seq in Hlen. lia.
    - apply not_Forall_Exists in Hex; [|apply _].
      apply Exists_exists in Hex as (i & Hin & Hi).
      apply elem_of_seq in Hin. exists i. split; [lia|].
      by apply not_true_is_false. }
  destruct (least_false (λ j, pub_exists (store w) (candidate prefix n j))
              i Hfree) as (k & Hk & Hbelow).
  exists k. split_and!; [|done..|].
  - destruct (decide (k ≤ i)); [lia|].
    rewrite Hbelow in Hfree by lia. done.
  - intros fuel Hfuel. by apply getNextAvailable_first.
Qed.

(** A post without a name gets the first number, counted from 1, whose
    key under the date does not exist. *)
Theorem getSlug_nameless tid w fuel date k :
  let key i := (datepart date +:+ "/") +:+ pretty (Datatypes.S i) in
  (∀ i, i < k → pub_exists (store w) (key i) = true) →
  pub_exists (store w) (key k) = false →
  k < fuel →
  (run env tid (getSlug fuel None date) w).1 = Returned (key k).
Proof.
  intros key Htaken Hfree Hfuel. unfold getSlug.
  assert (∀ i, candidate (datepart date +:+ "/") (Num 1) i = key i) as Hcand.
  { intros i. rewrite candidate_num. subst key. simpl.
    by replace (i + 1) with (Datatypes.S i) by lia. }
  rewrite <- Hcand.
  apply getNextAvailable_first; [|by rewrite Hcand|done].
  intros i Hi. rewrite Hcand. by apply Htaken.
Qed.
End SlugMore.

(** ** The mutex around [publish] and [receiveWebmention] *)

Lemma crit_no_lock {A} (p : prog A) : crit p → all_ops (λ o, o ≠ OLock) p.
Proof.
  induction p as [| | |o k IH]; simpl; try done.
  intros Hc. split; [by destruct o|].
  intros r. apply IH. by apply crit_Op in Hc as [_ Hc].
Qed.

Section Mutex.
Context {S : Type} `{!Publisher S, !MfObj, !Helpers, !Templates}.
Variables (env : Env) (config : SiteConfig.t).
Implicit Types (w : World S).

(** Only the taking of the mutex can make a call wait. *)
Lemma run_never_blocks {A} tid (p : prog A) w :
  all_ops (λ o, o ≠ OLock) p → (run env tid p w).1 ≠ Blocked.
Proof.
  revert w. induction p as [| | |o k IH]; intros w Hp; simpl; try done.
  destruct Hp as [Ho Hk].
  destruct (handle env tid o w) as [[r w']|] eqn:Hh; [by apply IH|].
  destruct o; try done; simpl in Hh; unfold store_call in Hh;
    repeat case_match; done.
Qed.

(** A body run between [lock()] and a [finally] that releases. *)
Lemma run_locked_section {A} tid (body : prog A) w :
  crit body →
  let r := run env tid (try_finally (lock;; body) release) w in
  if locked w then r = (Blocked, w)
  else r.1 ≠ Blocked
       ∧ match r.1 with
         | Returned _ | Threw _ => locked r.2 = false
         | _ => True
         end.
Proof.
  intros Hbody. cbv zeta.
  rewrite run_try_finally, mbind_bind, run_bind, run_lock.
  destruct (locked w); [done|].
  pose proof (run_never_blocks tid body
                (log tid OLock true (set_locked true w))
                (crit_no_lock body Hbody)) as Hnb.
  destruct (run env tid body _) as [[a|e| |] w1]; simpl in *; done.
Qed.

Lemma publish_body_crit fuel m :
  crit (entry ← draft config fuel m;
        html ← renderEntry config entry;
        parsed ← parseEntry (Str html) (url entry);
        match parsed with
        | Some entry => publish_entry config entry
        | None => Throw TypeError
        end).
Proof.
  pose proof (draft_inner config fuel m).
  pose proof (publish_entry_crit config).
  rewrite !mbind_bind. apply inner_crit_bind; [done|]. intros entry.
  rewrite !mbind_bind.
  apply inner_crit_bind; [unfold renderEntry; ops; by split|]. intros html.
  apply inner_crit_bind; [unfold parseEntry; ops|]. by intros [entry'|].
Qed.

Lemma publish_mutex tid w fuel m :
  let r := run env tid (publish config fuel m) w in
  if locked w then r = (Blocked, w)
  else r.1 ≠ Blocked
       ∧ match r.1 with
         | Returned _ | Threw _ => locked r.2 = false
         | _ => True
         end.
Proof. apply run_locked_section, publish_body_crit. Qed.

(** [publish] waits while the mutex is held and changes nothing then; once
    it has the mutex it never waits again, and when it returns or throws
    the mutex is free. *)
Theorem publish_releases_mutex tid w fuel m :
  let r := run env tid (publish config fuel m) w in
  if locked w then r = (Blocked, w)
  else r.1 ≠ Blocked
       ∧ match r.1 with
         | Returned _ | Threw _ => locked r.2 = false
         | _ => True
         end.
Proof. apply run_locked_section, publish_body_crit. Qed.

Lemma receiveWebmention_ends tid w source target :
  let r := run env tid (receiveWebmention config source target) w in
  if locked w then r = (Blocked, w)
  else (r.1 = Returned () ∨ ∃ e, r.1 = Threw e) ∧ locked r.2 = false.
Proof.
  cbv zeta. unfold receiveWebmention.
  rewrite run_try_finally, mbind_bind, run_bind, run_lock.
  destruct (locked w); [done|]. cbn beta iota.
  match goal with
  | |- context [run env tid ?body ?w1] =>
      assert ((run env tid body w1).1 ≠ Blocked
              ∧ (run env tid body w1).1 ≠ Diverged) as [Hnb Hnd];
      [|destruct (run env tid body w1) as [[[]|e| |] w2]; simpl in *;
        try done; eauto]
  end.
  simpl. destruct (entries w !! target); simpl; [|done].
  destruct (env_fetch env _ source []) as [se|]; simpl; [|done].
  destruct (existsb _ _); simpl; [|done].
  unfold store_call. destruct (pub_put _ _ _ _); simpl; [|done].
  destruct (author se); simpl; [|done].
  destruct (pub_commit _ _); simpl; done.
Qed.

(** The same for [receiveWebmention], which has no loop and so always ends
    once it has the mutex. *)
Theorem receiveWebmention_releases_mutex tid w source target :
  let r := run env tid (receiveWebmention config source target) w in
  if locked w then r = (Blocked, w)
  else (r.1 = Returned () ∨ ∃ e, r.1 = Threw e) ∧ locked r.2 = false.
Proof. apply receiveWebmention_ends. Qed.
End Mutex.

(** ** What a publish leaves behind *)

Section PublishMore.
Context {S : Type} `{!Publisher S, !MfObj, !Helpers, !Templates}.
Variables (env : Env) (config : SiteConfig.t).
Implicit Types (w : World S).

Lemma run_inner_locked {A} tid (p : prog A) w :
  all_ops inner_op p → locked (run env tid p w).2 = locked w.
Proof.
  intros Hp.
  apply (run_invariant env inner_op (λ w', locked w' = locked w));
    [|done..].
  intros o w1 r w2 Ho <- Hh. by eapply handle_inner.
Qed.

(** When the store has every key that the slug loop probes, [publish]
    never ends, whatever the fuel, and holds the mutex all the while: no
    later [publish] or [receiveWebmention] gets it. *)
Theorem publish_spins_holding_mutex tid w fuel m :
  locked w = false →
  (let date := env_now env (length (trace w) + 1) in
   ∀ k, pub_exists (store w)
          (candidate (slug_start (Micropub.name m) date).2
             (slug_start (Micropub.name m) date).1 k) = true) →
  let r := run env tid (publish config fuel m) w in
  r.1 = Diverged ∧ locked r.2 = true.
Proof.
  intros Hfree Hfull. cbv zeta in *.
  unfold publish.
  rewrite run_try_finally, mbind_bind, run_bind, run_lock, Hfree.
  cbn beta iota. rewrite mbind_bind, run_bind.
  set (w1 := log tid OLock true (set_locked true w)).
  assert ((run env tid (draft config fuel m) w1).1 = Diverged) as Hd.
  { unfold draft. cbv zeta. rewrite mbind_bind, run_bind.
    change (run env tid now w1)
      with (Returned (env_now env (length (trace w1))), log tid ONow true w1).
    cbn beta iota. rewrite mbind_bind, run_bind.
    replace (length (trace w1)) with (length (trace w) + 1)
      by (simpl; lia).
    set (date := env_now env (length (trace w) + 1)) in *.
    assert ((run env tid (getSlug fuel (Micropub.name m) date)
               (log tid ONow true w1)).1 = Diverged) as Hslug.
    { unfold getSlug. unfold slug_start in Hfull.
      destruct (Micropub.name m); by apply getNextAvailable_spins. }
    destruct (run env tid (getSlug _ _ _) _) as [out w2].
    simpl in Hslug. by subst out. }
  pose proof (run_inner_locked tid (draft config fuel m) w1
                (draft_inner config fuel m)) as Hl.
  destruct (run env tid (draft config fuel m) w1) as [out w2].
  simpl in Hd, Hl. subst out. done.
Qed.

Lemma run_keeps_index {A} tid (p : prog A) w :
  all_ops (λ o, is_index_write o = false) p →
  entries (run env tid p w).2 = entries w.
Proof.
  intros Hp.
  apply (run_invariant env (λ o, is_index_write o = false)
           (λ w', entries w' = entries w)); [|done..].
  intros o w1 r w2 Ho <-.
  destruct o; try done; simpl; unfold store_call, mutex_lock;
    repeat case_match; try done; by intros [= <- <-].
Qed.

Lemma update_returns tid entry w e w' :
  run env tid (update config entry) w = (Returned e, w') →
  e = entry ∧ entries w' = <[url entry := entry]> (entries w).
Proof.
  intros Hrun.
  pose proof (update_run env config tid w entry) as Hu. cbv zeta in Hu.
  rewrite Hrun in Hu. simpl in Hu.
  destruct (pub_put _ _ _ _); [|by destruct Hu].
  destruct Hu as (He & _ & [[= <-]|[key [=]]]). done.
Qed.

(** The part of [publish] after the entry is indexed for the last time
    leaves the index alone. *)
Lemma publish_tail_keeps_index entry :
  all_ops (λ o, is_index_write o = false)
    (match author entry with
     | Some who => commit (commit_message who (name entry) (url entry))
     | None => Throw TypeError
     end;;
     release;;
     sendWebmentionsFor entry;;
     Ret entry).
Proof.
  unfold commit, release, sendWebmentionsFor, sendWebmention. ops.
Qed.

Lemma publish_entry_returns tid entry w e w' :
  run env tid (publish_entry config entry) w = (Returned e, w') →
  entries w' !! url e = Some e.
Proof.
  unfold publish_entry. rewrite mbind_bind, run_bind.
  destruct (run env tid (update config entry) w) as [[e1| | |] w1] eqn:Hu;
    try done.
  apply update_returns in Hu as [-> He1].
  rewrite mbind_bind, run_bind.
  assert (∀ e2 w2,
    entries w2 !! url e2 = Some e2 →
    run env tid
      (match author e2 with
       | Some who => commit (commit_message who (name e2) (url e2))
       | None => Throw TypeError
       end;; release;; sendWebmentionsFor e2;; Ret e2) w2 = (Returned e, w') →
    entries w' !! url e = Some e) as Htail.
  { intros e2 w2 He2 Hrun.
    pose proof (run_keeps_index tid _ w2 (publish_tail_keeps_index e2)) as Hk.
    rewrite Hrun in Hk. simpl in Hk.
    assert (e = e2) as ->; [|by rewrite Hk].
    revert Hrun. rewrite mbind_bind, run_bind.
    destruct (run env tid (match author e2 with _ => _ end) w2)
      as [[[]| | |] w3]; try done.
    rewrite mbind_bind, run_bind, run_release. cbn beta iota.
    rewrite mbind_bind, run_bind.
    destruct (run env tid (sendWebmentionsFor e2) _) as [[[]| | |] w4];
      try done.
    simpl. by intros [= <- _]. }
  destruct (syndicateTo entry) as [targets|].
  - rewrite mbind_bind, run_bind.
    destruct (run env tid (posse_syndicate entry) w1)
      as [[syndications| | |] w2] eqn:Hs; try done.
    rewrite mbind_bind, run_bind, run_perform. cbn [handle]. cbn beta iota.
    destruct (run env tid (update config _) _) as [[e2| | |] w3] eqn:Hu2;
      try done.
    apply update_returns in Hu2 as [-> He3].
    apply Htail. rewrite He3. apply lookup_insert_eq.
  - simpl run at 1. cbn beta iota.
    apply Htail. rewrite He1. apply lookup_insert_eq.
Qed.

(** A [publish] that returns has the returned entry in the index under
    its address, and the mutex is free. *)
Theorem publish_returns_indexed tid w fuel m e :
  let r := run env tid (publish config fuel m) w in
  r.1 = Returned e →
  entries r.2 !! url e = Some e ∧ locked r.2 = false.
Proof.
  intros r Hret. subst r. split.
  2:{ pose proof (publish_mutex env config tid w fuel m) as Hm.
      cbv zeta in Hm. destruct (locked w).
      - rewrite Hm in Hret. done.
      - destruct Hm as [_ Hm]. by rewrite Hret in Hm. }
  revert Hret. unfold publish. rewrite run_try_finally.
  destruct (run env tid (lock;; _) w) as [[a| | |] w'] eqn:Hb.
  2:{ by rewrite run_bind, run_release. }
  2,3: done.
  rewrite run_bind, run_release. cbn [run fst snd]. intros [= ->].
  change (entries w' !! url e = Some e).
  revert Hb. rewrite mbind_bind, run_bind, run_lock.
  destruct (locked w); [done|]. cbn beta iota.
  rewrite mbind_bind, run_bind.
  destruct (run env tid (draft config fuel m) _) as [[entry| | |] w2];
    try done.
  rewrite mbind_bind, run_bind, run_renderEntry. cbn beta iota.
  rewrite mbind_bind, run_bind. unfold parseEntry.
  destruct (getEntryFromHtml _ _) as [| |entry']; cbn [run];
    cbn beta iota; try done.
  apply publish_entry_returns.
Qed.
End PublishMore.

(** ** Webmentions *)

Section Webmentions.
Context {S : Type} `{!Publisher S, !MfObj, !Helpers, !Templates}.
Variables (env : Env) (config : SiteConfig.t).
Implicit Types (w : World S).

Lemma run_send tid src link w :
  run (A:=bool) env tid (perform (OSend src link)) w
  = (Returned (env_send env (length (trace w)) src link),
     log tid (OSend src link) (env_send env (length (trace w)) src link) w).
Proof. done. Qed.

Lemma run_oembed tid link w :
  run (A:=option string) env tid (perform (OOembed link)) w
  = (Returned (env_oembed env (length (trace w)) link),
     log tid (OOembed link)
       (bool_decide (is_Some (env_oembed env (length (trace w)) link))) w).
Proof. done. Qed.

Lemma run_fetch tid u strategies w :
  run (A:=option Entry) env tid (perform (OFetch u strategies)) w
  = (Returned (env_fetch env (length (trace w)) u strategies),
     log tid (OFetch u strategies)
       (bool_decide (is_Some (env_fetch env (length (trace w)) u strategies)))
       w).
Proof. done. Qed.

Lemma run_entries tid w :
  run (A:=gmap string Entry) env tid (perform OEntries) w
  = (Returned (entries w), log tid OEntries true w).
Proof. done. Qed.

Lemma run_entries_set tid u e w :
  run (A:=unit) env tid (perform (OEntriesSet u e)) w
  = (Returned (),
     log tid (OEntriesSet u e) true (set_entries (<[u:=e]> (entries w)) w)).
Proof. done. Qed.

Lemma run_commit tid msg w :
  run env tid (commit msg) w =
    match pub_commit (store w) msg with
    | Some s => (Returned (), log tid (OCommit msg) true (set_store s w))
    | None => (Threw (StoreError msg), log tid (OCommit msg) false w)
    end.
Proof. simpl. unfold store_call. by destruct (pub_commit _ _). Qed.

Lemma run_send_caught tid src link w :
  run env tid (try_catch (sendWebmention src link) (λ _, Ret ())) w
  = (Returned (),
     log tid (OSend src link)
       (env_send env (length (trace w)) src link) w).
Proof.
  rewrite run_try_catch. unfold sendWebmention.
  rewrite mbind_bind, run_bind, run_send.
  by destruct (env_send _ _ _ _).
Qed.

(** [sendWebmentionsFor] returns whatever the deliveries do.  It tries
    every mention of the entry once, in the order of [getMentions] and
    with the entry's address as source, and does nothing else: store,
    index and mutex stay as they are. *)
Theorem sendWebmentionsFor_tries_all tid w entry :
  let r := run env tid (sendWebmentionsFor entry) w in
  r.1 = Returned ()
  ∧ store r.2 = store w ∧ entries r.2 = entries w ∧ locked r.2 = locked w
  ∧ ∃ evs, trace r.2 = evs ++ trace w
           ∧ ev_op <$> reverse evs = OSend (url entry) <$> getMentions entry.
Proof.
  cbv zeta. unfold sendWebmentionsFor.
  generalize (getMentions entry) as links. intros links. revert w.
  induction links as [|link links IH]; intros w.
  - split_and!; try done. by exists [].
  - cbn [util_map]. rewrite run_bind, run_send_caught.
    set (w1 := log tid _ _ w).
    destruct (IH w1) as (Hr & Hs & He & Hl & evs & Htr & Hops).
    split_and!; try done.
    exists (evs ++ [mkEvent tid (OSend (url entry) link)
                      (env_send env (length (trace w)) (url entry) link)]).
    split.
    + by rewrite Htr, <- app_assoc.
    + rewrite reverse_app, fmap_app, Hops. done.
Qed.

Lemma same_but_embed_refl e : same_but_embed e e.
Proof. by repeat split. Qed.

Lemma same_but_embed_add e e' h :
  same_but_embed e e' → same_but_embed e (add_embed e' h).
Proof. by destruct e'. Qed.

Lemma run_embed_caught tid entry link w :
  run env tid
    (try_catch (embed ← oembed link; Ret (add_embed entry embed))
       (λ _, Ret entry)) w
  = (Returned (match env_oembed env (length (trace w)) link with
               | Some h => add_embed entry h
               | None => entry
               end),
     log tid (OOembed link)
       (bool_decide (is_Some (env_oembed env (length (trace w)) link))) w).
Proof.
  rewrite run_try_catch, mbind_bind, run_bind. unfold oembed.
  rewrite mbind_bind, run_bind, run_oembed.
  by destruct (env_oembed _ _ _).
Qed.

(** [embedMentions] (the loop over the mentions in [publish]) looks up
    every mention once, in order, whether or not earlier lookups failed;
    it returns the entry with at most [embed] changed, and changes nothing
    else. *)
Theorem embedMentions_tries_all tid w entry :
  let r := run env tid (embedMentions entry) w in
  (∃ e', r.1 = Returned e' ∧ same_but_embed entry e')
  ∧ store r.2 = store w ∧ entries r.2 = entries w ∧ locked r.2 = locked w
  ∧ ∃ evs, trace r.2 = evs ++ trace w
           ∧ ev_op <$> reverse evs = OOembed <$> getMentions entry.
Proof.
  cbv zeta. unfold embedMentions.
  generalize (getMentions entry) as links. intros links.
  assert (∀ acc w0, same_but_embed entry acc →
    let r := run env tid
               (for_of links acc (λ entry link,
                  try_catch (embed ← oembed link; Ret (add_embed entry embed))
                    (λ _, Ret entry))) w0 in
    (∃ e', r.1 = Returned e' ∧ same_but_embed entry e')
    ∧ store r.2 = store w0 ∧ entries r.2 = entries w0
    ∧ locked r.2 = locked w0
    ∧ ∃ evs, trace r.2 = evs ++ trace w0
             ∧ ev_op <$> reverse evs = OOembed <$> links) as Hloop.
  { clear w. induction links as [|link links IH]; intros acc w Hacc; cbv zeta.
    - split_and!; try done; [by exists acc|by exists []].
    - cbn [for_of]. rewrite run_bind, run_embed_caught.
      set (w1 := log tid _ _ w).
      set (acc' := match env_oembed _ _ _ with Some _ => _ | None => _ end).
      assert (same_but_embed entry acc') as Hacc'.
      { subst acc'. destruct (env_oembed _ _ _);
          [by apply same_but_embed_add|done]. }
      destruct (IH acc' w1 Hacc') as (Hr & Hs & He & Hl & evs & Htr & Hops).
      split_and!; try done.
      eexists (evs ++ [mkEvent tid (OOembed link) _]). split.
      + by rewrite Htr, <- app_assoc.
      + rewrite reverse_app, fmap_app, Hops. done. }
  intros. apply Hloop, same_but_embed_refl.
Qed.

(** When every lookup fails, [embedMentions] returns the entry as it
    was. *)
Theorem embedMentions_all_fail tid w entry :
  (∀ t link, env_oembed env t link = None) →
  (run env tid (embedMentions entry) w).1 = Returned entry.
Proof.
  intros Hfail. unfold embedMentions.
  generalize (getMentions entry) at 1 as links. intros links. revert w.
  induction links as [|link links IH]; intros w; [done|].
  cbn [for_of]. rewrite run_bind, run_embed_caught, Hfail. apply IH.
Qed.

(** An accepted webmention: the target is in the index, the source can be
    fetched and links to the target.  The child is added in the index
    before the page is written and stays there when the write or the
    commit fails; the store sees the target's page and the commit, no
    stream; the mutex is free afterwards. *)
Theorem receiveWebmention_accepts tid w source target te se :
  locked w = false →
  entries w !! target = Some te →
  env_fetch env (length (trace w) + 2) source [] = Some se →
  target ∈ getMentions se →
  let te' := addChild te se in
  let m' := <[target := te']> (entries w) in
  let key := url_pathname (url te') in
  let r := run env tid (receiveWebmention config source target) w in
  entries r.2 = m' ∧ locked r.2 = false
  ∧ match pub_put (store w) key (Str (_renderEntry config m' te'))
            (Some "text/html"%string) with
    | None => r.1 = Threw (StoreError key) ∧ store r.2 = store w
    | Some s1 =>
        match author se with
        | None => r.1 = Threw TypeError ∧ store r.2 = s1
        | Some who =>
            let msg := commit_message who (name se)
                         (source +:+ " -> " +:+ target) in
            match pub_commit s1 msg with
            | Some s2 => r.1 = Returned () ∧ store r.2 = s2
            | None => r.1 = Threw (StoreError msg) ∧ store r.2 = s1
            end
        end
    end.
Proof.
  intros Hfree Hte Hse Hlink te' m' key r.
  assert (existsb (λ m, bool_decide (m = target)) (getMentions se) = true)
    as Hex.
  { apply existsb_exists. exists target. split; [by apply list_elem_of_In|].
    by apply bool_decide_eq_true. }
  remember r as r' eqn:Hr. subst r. revert Hr.
  unfold receiveWebmention.
  rewrite run_try_finally, mbind_bind, run_bind, run_lock, Hfree.
  cbn beta iota. rewrite mbind_bind, run_bind, run_try_catch.
  unfold get at 1. rewrite mbind_bind, run_bind, run_entries.
  cbn beta iota. cbn [entries log set_locked resp]. rewrite Hte. cbn [run].
  cbn beta iota. rewrite mbind_bind, run_bind, run_try_catch.
  unfold getEntry. rewrite mbind_bind, run_bind, run_fetch.
  cbn [trace log set_locked length].
  replace (Datatypes.S (Datatypes.S (length (trace w))))
    with (length (trace w) + 2) by lia.
  rewrite Hse. cbn beta iota. cbn [run]. cbn beta iota.
  rewrite Hex. cbn [negb]. cbn beta iota zeta.
  rewrite mbind_bind, run_bind, run_entries_set. cbn beta iota.
  rewrite mbind_bind, run_bind, run_renderEntry. cbn beta iota.
  rewrite mbind_bind, run_bind, run_put.
  cbn [store entries log set_entries set_locked].
  fold te' m' key.
  destruct (pub_put _ _ _ _) as [s1|]; cbn beta iota.
  2:{ rewrite run_bind, run_release. by intros ->. }
  destruct (author se) as [who|].
  2:{ cbn [run]. rewrite run_bind, run_release. by intros ->. }
  rewrite run_commit. cbn [store log set_store].
  destruct (pub_commit _ _) as [s2|]; cbn beta iota;
    rewrite run_bind, run_release; by intros ->.
Qed.
End Webmentions.

(** ** The index stays keyed by address *)

Section Keyed.
Context {S : Type} `{!Publisher S, !MfObj, !Helpers, !Templates}.
Variables (env : Env) (config : SiteConfig.t).
Implicit Types (w : World S).

Lemma keyed_insert m e : keyed m → keyed (<[url e := e]> m).
Proof. intros Hm. by apply map_Forall_insert_2. Qed.

Lemma keyed_delete m u : keyed m → keyed (base.delete u m).
Proof. intros Hm. by apply map_Forall_delete. Qed.

Lemma run_sets_own_key {A} tid (p : prog A) w :
  all_ops sets_own_key p → keyed (entries w) →
  keyed (entries (run env tid p w).2).
Proof.
  apply (run_invariant env sets_own_key (λ w', keyed (entries w'))).
  intros o w1 r w2 Ho Hk.
  destruct o; try done; simpl; unfold store_call, mutex_lock;
    repeat case_match; try done; intros [= <- <-]; try done; simpl in *.
  - subst. by apply keyed_insert.
  - by apply keyed_delete.
Qed.

Lemma getNextAvailable_own_key fuel n prefix :
  all_ops sets_own_key (getNextAvailable fuel n prefix).
Proof.
  revert n. induction fuel as [|fuel IH]; intros n; simpl; [done|].
  split; [done|]. intros [|]; [apply IH|done].
Qed.

Lemma generateStreams_own_key : all_ops sets_own_key (generateStreams config).
Proof.
  eapply all_ops_impl; [|apply generateStreams_pages].
  by intros o [->|(key & html & ->)].
Qed.

Lemma update_own_key entry : all_ops sets_own_key (update config entry).
Proof.
  pose proof generateStreams_own_key.
  unfold update, renderEntry, put. ops.
Qed.

Lemma delete_own_key u : all_ops sets_own_key (delete config u).
Proof.
  pose proof generateStreams_own_key.
  unfold delete, get, publisher_delete. ops.
Qed.

Lemma generateAll_own_key : all_ops sets_own_key (generateAll config).
Proof.
  pose proof generateStreams_own_key.
  unfold generateAll, getAll, renderEntry, put. ops.
Qed.

Lemma draft_own_key fuel m : all_ops sets_own_key (draft config fuel m).
Proof.
  pose proof getNextAvailable_own_key.
  unfold draft, embedMentions, resolve, attach, getSlug, now, getEntry, oembed,
    put.
  ops.
Qed.

Lemma publish_own_key fuel m : all_ops sets_own_key (publish config fuel m).
Proof.
  pose proof (draft_own_key fuel m). pose proof update_own_key.
  unfold publish, publish_entry, lock, release, renderEntry, parseEntry,
    posse_syndicate, commit, sendWebmentionsFor, sendWebmention.
  ops.
Qed.

Lemma scan_keyed tid w :
  keyed (entries w) → keyed (entries (run env tid (scan config) w).2).
Proof.
  intros Hk. unfold scan. rewrite mbind_bind, run_bind.
  assert (run env tid publisher_list w =
            match pub_list (store w) with
            | Some keys => (Returned keys, log tid OList true w)
            | None => (Threw (StoreError "list"), log tid OList false w)
            end) as ->.
  { simpl. by destruct (pub_list (store w)). }
  destruct (pub_list (store w)) as [keys|]; [|done].
  cbv zeta. rewrite mbind_bind, run_bind.
  set (w1 := log tid OList true w).
  set (ks := filter _ keys).
  pose proof (scan_keys_run env config tid ks ∅ w1) as Hrun.
  pose proof (run_reads env tid (for_of ks ∅ (scan_key config)) w1
                (scan_keys_reads config _ _)) as (_ & Hentries & _).
  destruct (run env tid (for_of ks ∅ (scan_key config)) w1)
    as [[acc| | |] w2]; simpl in *; try by rewrite Hentries.
  destruct Hrun as (_ & Honly & _).
  intros u e [Hin|(? & ? & _ & _ & _ & ->)]%Honly; [|done].
  by rewrite lookup_empty in Hin.
Qed.

(** [update], [delete], [publish], [scan], [generateStreams] and
    [generateAll] keep the index keyed by address: whatever their outcome,
    every entry of the index is stored under its own address afterwards
    when that was so before. *)
Theorem index_stays_keyed tid c w :
  index_call config c → keyed (entries w) →
  keyed (entries (run env tid c w).2).
Proof.
  intros Hc Hk. destruct Hc; unfold call; rewrite mbind_bind, run_bind.
  - pose proof (run_sets_own_key tid _ w (update_own_key entry) Hk).
    by destruct (run env tid (update config entry) w) as [[]].
  - pose proof (run_sets_own_key tid _ w (delete_own_key u) Hk).
    by destruct (run env tid (delete config u) w) as [[]].
  - pose proof (run_sets_own_key tid _ w (publish_own_key fuel m) Hk).
    by destruct (run env tid (publish config fuel m) w) as [[]].
  - pose proof (scan_keyed tid w Hk).
    by destruct (run env tid (scan config) w) as [[]].
  - pose proof (run_sets_own_key tid _ w generateStreams_own_key Hk).
    by destruct (run env tid (generateStreams config) w) as [[]].
  - pose proof (run_sets_own_key tid _ w generateAll_own_key Hk).
    by destruct (run env tid (generateAll config) w) as [[]].
Qed.

Lemma receiveWebmention_index tid w source target :
  let r := run env tid (receiveWebmention config source target) w in
  entries r.2 = entries w
  ∨ ∃ te se, entries w !! target = Some te
             ∧ entries r.2 = <[target := addChild te se]> (entries w).
Proof.
  intros r.
  assert (∀ (p : prog unit) w0,
    entries (run env tid (try_finally p release) w0).2
    = entries (run env tid p w0).2) as Hfin.
  { intros p w0. rewrite run_try_finally.
    destruct (run env tid p w0) as [[[]| | |] w1]; try done;
      by rewrite run_bind, run_release. }
  subst r. unfold receiveWebmention. rewrite Hfin.
  remember (run env tid _ w) as r eqn:Hr. revert Hr.
  rewrite mbind_bind, run_bind, run_lock.
  destruct (locked w); [intros ->; by left|]. cbn beta iota.
  rewrite mbind_bind, run_bind, run_try_catch.
  unfold get at 1. rewrite mbind_bind, run_bind, run_entries.
  cbn beta iota. cbn [entries log set_locked resp].
  destruct (entries w !! target) as [te|] eqn:Hte; cbn [run];
    [|intros ->; by left].
  cbn beta iota. rewrite mbind_bind, run_bind, run_try_catch.
  unfold getEntry. rewrite mbind_bind, run_bind, run_fetch.
  destruct (env_fetch _ _ _ _) as [se|]; cbn beta iota; cbn [run];
    [|intros ->; by left].
  cbn beta iota.
  destruct (negb _); [intros ->; by left|]. cbn beta iota zeta.
  rewrite mbind_bind, run_bind, run_entries_set. cbn beta iota.
  set (w1 := log tid (OEntriesSet _ _) _ _).
  intros ->. right. exists te, se. split; [done|].
  change (<[target:=addChild te se]> (entries w)) with (entries w1).
  apply run_keeps_index.
  unfold renderEntry, put, commit. ops.
Qed.

(** When [addChild] leaves the address of the target as it is,
    [receiveWebmention] keeps the index keyed by address too. *)
Theorem receiveWebmention_keeps_keyed tid w source target :
  (∀ t s, url (addChild t s) = url t) →
  keyed (entries w) →
  keyed (entries
           (run env tid (receiveWebmention config source target) w).2).
Proof.
  intros Hchild Hk.
  destruct (receiveWebmention_index tid w source target)
    as [->|(te & se & Hte & ->)]; [done|].
  apply map_Forall_insert_2; [|done].
  rewrite Hchild. by apply Hk in Hte.
Qed.
End Keyed.

(** ** [generateAll] and [getArticles] *)

Section GenerateAll.
Context {S : Type} `{!Publisher S, !MfObj, !Helpers, !Templates}.
Variables (env : Env) (config : SiteConfig.t).
Implicit Types (w : World S).

Lemma run_entry_page tid entry w :
  let r := run env tid
             (html ← renderEntry config entry;
              put (url_pathname (url entry)) (Str html)
                (Some "text/html"%string)) w in
  match r.1 with
  | Returned _ =>
      wrote w r.2 [html_put (url_pathname (url entry))
                     (_renderEntry config (entries w) entry)]
  | Threw e => ∃ key, e = StoreError key
  | _ => False
  end.
Proof.
  cbv zeta. rewrite mbind_bind, run_bind, run_renderEntry. cbn beta iota.
  rewrite run_put. cbn [store entries log].
  destruct (pub_put _ _ _ _) as [s|]; cbn [fst snd]; [|by eexists].
  split; [done|]. eexists [_; _]. split; [done|]. split; [done|].
  by repeat constructor.
Qed.

(** [generateAll] that returns has written the page of every entry of
    the index, newest entry first, and then the pages of a regeneration,
    all from the index as it was, which it leaves as it is.  It fails only
    with the error of a rejected store write. *)
Theorem generateAll_writes tid w :
  let r := run env tid (generateAll config) w in
  match r.1 with
  | Returned _ =>
      wrote w r.2 (entry_puts config (entries w)
                   ++ regeneration_puts config (entries w))
  | Threw e => ∃ key, e = StoreError key
  | _ => False
  end.
Proof.
  unfold generateAll, getAll. cbv zeta.
  rewrite mbind_bind, run_bind.
  change (run env tid (perform OEntries ≫= λ m, Ret (values m)) w)
    with (Returned (values (entries w)), log tid OEntries true w).
  cbn beta iota.
  set (w1 := log tid OEntries true w).
  assert (wrote w w1 []) as Hw1 by by apply wrote_read.
  assert (entries w1 = entries w) as He1 by done. clearbody w1.
  rewrite mbind_bind, run_bind.
  pose proof (run_pages env tid
    (λ entry, html ← renderEntry config entry;
              put (url_pathname (url entry)) (Str html)
                (Some "text/html"%string))
    (λ m entry, html_put (url_pathname (url entry))
                  (_renderEntry config m entry))
    (sort_entries (values (entries w))) w1
    (λ x w0, run_entry_page tid x w0)) as Hpages.
  destruct (run env tid (util_map _ _) w1) as [[[]| | |] w2];
    cbn [fst snd] in Hpages; cbn beta iota; [|done..].
  assert (entries w2 = entries w) as He2 by (destruct Hpages; congruence).
  pose proof (generateStreams_run env config tid w2) as Hgen.
  cbv zeta in Hgen.
  destruct (run env tid (generateStreams config) w2) as [[[]| | |] w3];
    cbn [fst snd] in Hgen |- *; [|done..].
  rewrite He1 in Hpages. rewrite He2 in Hgen.
  apply (wrote_trans w w1 w3 []); [done|].
  by apply (wrote_trans w1 w2 w3).
Qed.
End GenerateAll.

Section Articles.
Context `{!MfObj}.

(** [getArticles] is sorted newest first and holds the entries of the
    articles page that are not hidden: the page itself, which
    [generateStreams] writes, lists the hidden articles too. *)
Theorem getArticles_visible_articles m :
  StronglySorted newer_first (getArticles m)
  ∧ (∀ e, e ∈ getArticles m
          ↔ e ∈ articlesIndex (sort_entries (values m))
            ∧ hiddenFilter e = true)
  ∧ (keyed m → NoDup (getArticles m)).
Proof.
  unfold getArticles, articlesIndex, articleFilter. split_and!.
  - apply sort_entries_sorted.
  - intros e.
    rewrite elem_of_sort_entries, !list_elem_of_filter, elem_of_sort_entries.
    rewrite Is_true_true. tauto.
  - intros Hk. rewrite sort_entries_perm.
    by apply NoDup_filter, NoDup_filter, values_NoDup.
Qed.
End Articles.

(** ** Validation *)

Section ValidateProofs.
Context {S : Type} `{!Publisher S, !MfObj, !Helpers, !Templates, !Assert}.
Variables (env : Env) (config : SiteConfig.t).
Implicit Types (w : World S) (v : Validation).

Lemma run_get tid key w :
  run (A:=option Obj) env tid (perform (OGet key)) w
  = (Returned (pub_get (store w) key),
     log tid (OGet key) (bool_decide (is_Some (pub_get (store w) key))) w).
Proof. done. Qed.

Lemma validate_catch_reads key v :
  all_ops (λ o, is_write o = false) (validate_catch key v).
Proof. unfold validate_catch. by destruct (expected v). Qed.

Lemma validate_key_reads v key :
  all_ops (λ o, is_write o = false) (validate_key config v key).
Proof.
  pose proof validate_catch_reads.
  unfold validate_key, renderEntry. ops.
Qed.

Lemma validate_reads :
  all_ops (λ o, is_write o = false) (validate config).
Proof.
  pose proof validate_key_reads.
  unfold validate, publisher_list. ops.
Qed.

Lemma run_validate_catch tid key v w :
  run env tid (validate_catch key v) w
  = match expected v with
    | Object _ =>
        (Returned (mkValidation
                     (failures v ++ [mkFailure key (expected v) (actual v)])
                     (expected v) (actual v)), w)
    | _ => (Threw TypeError, w)
    end.
Proof. unfold validate_catch. by destruct (expected v). Qed.

(** One round: it comes back without a new failure exactly for a key
    that round-trips; for another key it reports the key or throws a
    [TypeError]. *)
Lemma validate_key_run tid v key w :
  let r := run env tid (validate_key config v key) w in
  store r.2 = store w ∧ entries r.2 = entries w
  ∧ match r.1 with
    | Returned v' =>
        (round_trips config (store w) (entries w) key ∧ passed v v')
        ∨ (¬ round_trips config (store w) (entries w) key ∧ caught key v v')
    | Threw e => e = TypeError ∧ ¬ round_trips config (store w) (entries w) key
    | _ => False
    end.
Proof.
  intros r.
  destruct (run_reads env tid (validate_key config v key) w
              (validate_key_reads v key)) as (Hs & He & _).
  split_and!; [done..|]. clear Hs He. subst r.
  unfold validate_key, round_trips, admits. cbv zeta.
  rewrite mbind_bind, run_bind, run_get. cbn beta iota.
  destruct (pub_get (store w) key) as [obj|] eqn:Hget.
  2:{ rewrite run_validate_catch.
      destruct (expected v) eqn:Hex; cbn [fst];
        try (split; [done|]); try right; try split;
        try (by intros (? & [=] & _)).
      done. }
  case_bool_decide as Hct.
  2:{ cbn [run fst]. left. split; [|done]. by exists obj. }
  destruct (getEntryFromHtml (Body obj) _) as [| |e] eqn:Hparse.
  - cbn [run fst]. left. split; [|done]. exists obj. split; [done|].
    intros _. by rewrite Hparse.
  - rewrite run_validate_catch. cbn [expected fst]. split; [done|].
    intros (obj' & [= <-] & Hrt). specialize (Hrt Hct).
    by rewrite Hparse in Hrt.
  - case_bool_decide as Hurl.
    2:{ cbn [run fst]. left. split; [|done]. exists obj. split; [done|].
        intros _. rewrite Hparse. by intros (_ & _ & ?). }
    rewrite mbind_bind, run_bind, run_renderEntry. cbn beta iota.
    assert (
      (∀ a, getEntryFromHtml (Str (_renderEntry config (entries w) e)) (url e)
            = Parsed a → deepEqual a e = true → False) →
      ¬ (∃ obj0, Some obj = Some obj0
         ∧ (ContentType obj0 = Some "text/html"%string →
            match getEntryFromHtml (Body obj0)
                    (url_resolve (SiteConfig.url config) key) with
            | Rejected => True
            | Null => False
            | Parsed e0 =>
                ContentType obj0 = Some "text/html"%string
                ∧ getEntryFromHtml (Body obj0)
                    (url_resolve (SiteConfig.url config) key) = Parsed e0
                ∧ (url e0 = url_resolve (SiteConfig.url config) key
                   ∨ (url e0 +:+ ".html")%string
                     = url_resolve (SiteConfig.url config) key) →
                ∃ a, getEntryFromHtml
                       (Str (_renderEntry config (entries w) e0)) (url e0)
                     = Parsed a ∧ deepEqual a e0 = true
            end))) as Hno.
    { intros HP (obj' & [= <-] & Hrt). specialize (Hrt Hct).
      rewrite Hparse in Hrt.
      destruct Hrt as (a & Ha & Heq); [done|]. by eapply HP. }
    cbn [entries log].
    destruct (getEntryFromHtml (Str _) (url e)) as [| |a] eqn:Hparse2.
    + rewrite run_validate_catch. cbn [expected fst]. right. split.
      * apply Hno. intros a Ha. congruence.
      * done.
    + rewrite run_validate_catch. cbn [expected fst]. right. split.
      * apply Hno. intros a Ha. congruence.
      * done.
    + cbv zeta. cbn [failures expected].
      destruct (deepEqual a e) eqn:Heq.
      * cbn [run fst]. left. split; [|done]. exists obj. split; [done|].
        intros _. rewrite Hparse. intros _. by exists a.
      * rewrite run_validate_catch. cbn [expected fst]. right. split.
        -- apply Hno. intros a' Ha' Heq'. congruence.
        -- done.
Qed.

Lemma validate_keys_run tid keys v w :
  let r := run env tid (for_of keys v (validate_key config)) w in
  store r.2 = store w ∧ entries r.2 = entries w
  ∧ match r.1 with
    | Returned v' =>
        ∃ fs, failures v' = failures v ++ fs
              ∧ ∀ key, key ∈ failure_key <$> fs
                       ↔ key ∈ keys
                         ∧ ¬ round_trips config (store w) (entries w) key
    | Threw e =>
        e = TypeError
        ∧ ∃ key, key ∈ keys
                 ∧ ¬ round_trips config (store w) (entries w) key
    | _ => False
    end.
Proof.
  revert v w. induction keys as [|key keys IH]; intros v w; cbv zeta.
  { cbn [for_of run fst snd]. split_and!; [done..|].
    exists []. split; [by rewrite app_nil_r|].
    intros key. rewrite fmap_nil, !elem_of_nil. tauto. }
  cbn [for_of]. rewrite run_bind.
  destruct (validate_key_run tid v key w) as (Hs & He & Hkey).
  destruct (run env tid (validate_key config v key) w) as [[v1| | |] w1];
    cbn [fst snd] in Hs, He, Hkey |- *; [| |done..].
  2:{ destruct Hkey as [-> Hbad]. split_and!; [done..|].
      exists key. split; [left|done]. }
  destruct (IH v1 w1) as (Hs' & He' & Hrest).
  rewrite Hs, He in Hrest.
  split_and!; [congruence..|].
  destruct (run env tid (for_of keys v1 (validate_key config)) w1)
    as [[v2| | |] w2]; cbn [fst snd] in Hrest |- *; [| |done..].
  - destruct Hrest as (fs & Hfs & Hkeys).
    destruct Hkey as [[Hrt Hpass]|[Hbad Hcaught]].
    + exists fs. split; [by rewrite Hfs, Hpass|].
      intros k. rewrite Hkeys, elem_of_cons. split; [tauto|].
      intros [[->|?] ?]; tauto.
    + exists (mkFailure key (expected v1) (actual v1) :: fs). split.
      { rewrite Hfs, Hcaught, <- app_assoc. done. }
      intros k. rewrite fmap_cons, !elem_of_cons, Hkeys. cbn [failure_key].
      split; [|tauto]. intros [->|?]; tauto.
  - destruct Hrest as (-> & k & Hin & Hbad). split; [done|].
    exists k. split; [by right|done].
Qed.

Lemma validate_inner : all_ops inner_op (validate config).
Proof.
  unfold validate, publisher_list.
  apply all_ops_bind; [ops; by split|]. intros keys.
  apply all_ops_bind; [|done].
  apply all_ops_for_of. intros v key.
  unfold validate_key, renderEntry, validate_catch. ops; by split.
Qed.

Lemma run_list tid w :
  run env tid publisher_list w =
    match pub_list (store w) with
    | Some keys => (Returned keys, log tid OList true w)
    | None => (Threw (StoreError "list"), log tid OList false w)
    end.
Proof. simpl. by destruct (pub_list (store w)). Qed.

Lemma validate_run tid w :
  let r := run env tid (validate config) w in
  store r.2 = store w ∧ entries r.2 = entries w ∧ locked r.2 = locked w
  ∧ match pub_list (store w) with
    | None => r.1 = Threw (StoreError "list")
    | Some keys =>
        match r.1 with
        | Returned fs =>
            ∀ key, key ∈ failure_key <$> fs
                   ↔ key ∈ keys
                     ∧ ¬ round_trips config (store w) (entries w) key
        | Threw e =>
            e = TypeError
            ∧ ∃ key, key ∈ keys
                     ∧ ¬ round_trips config (store w) (entries w) key
        | _ => False
        end
    end.
Proof.
  intros r.
  destruct (run_reads env tid (validate config) w validate_reads)
    as (Hs & He & _).
  pose proof (run_inner_locked env tid (validate config) w validate_inner)
    as Hl.
  split_and!; [done..|]. clear Hs He Hl. subst r.
  unfold validate. rewrite mbind_bind, run_bind, run_list.
  destruct (pub_list (store w)) as [keys|]; [|done].
  rewrite mbind_bind, run_bind.
  destruct (validate_keys_run tid keys (mkValidation [] Undefined Undefined)
              (log tid OList true w)) as (_ & _ & Hrun).
  cbn [store entries log] in Hrun.
  destruct (run env tid (for_of keys _ (validate_key config)) _)
    as [[v| | |] w1]; cbn [fst snd] in Hrun |- *; [| |done..].
  - destruct Hrun as (fs & Hfs & Hkeys). cbn [run fst].
    cbn [failures] in Hfs. rewrite app_nil_l in Hfs. by rewrite Hfs.
  - done.
Qed.

(** [validate] reads only: store, index and mutex are as before.  When
    the store rejects [list], it throws that error.  Otherwise a
    [validate] that returns reports exactly the listed keys that do not
    round-trip (the object cannot be fetched, or it holds an entry whose
    rendering does not parse to an equal entry); the only error that it
    throws is a [TypeError], and then some listed key does not
    round-trip. *)
Theorem validate_reports tid w :
  let r := run env tid (validate config) w in
  store r.2 = store w ∧ entries r.2 = entries w ∧ locked r.2 = locked w
  ∧ match pub_list (store w) with
    | None => r.1 = Threw (StoreError "list")
    | Some keys =>
        match r.1 with
        | Returned fs =>
            ∀ key, key ∈ failure_key <$> fs
                   ↔ key ∈ keys
                     ∧ ¬ round_trips config (store w) (entries w) key
        | Threw e =>
            e = TypeError
            ∧ ∃ key, key ∈ keys
                     ∧ ¬ round_trips config (store w) (entries w) key
        | _ => False
        end
    end.
Proof. apply validate_run. Qed.

(** On a store whose listed keys all round-trip, [validate] returns the
    empty list. *)
Theorem validate_clean tid w keys :
  pub_list (store w) = Some keys →
  Forall (round_trips config (store w) (entries w)) keys →
  (run env tid (validate config) w).1 = Returned [].
Proof.
  intros Hlist Hall. rewrite Forall_forall in Hall.
  destruct (validate_run tid w) as (_ & _ & _ & Hrun). rewrite Hlist in Hrun.
  destruct (run env tid (validate config) w) as [[fs| | |] w'];
    cbn [fst] in Hrun |- *; [| |done..].
  - destruct fs as [|f fs]; [done|].
    destruct (Hrun (failure_key f)) as [Hbad _].
    destruct Hbad as [Hin Hbad]; [rewrite fmap_cons; left|].
    exfalso. apply Hbad. by apply Hall.
  - destruct Hrun as (_ & key & Hin & Hbad). exfalso. apply Hbad. by apply Hall.
Qed.

Lemma validate_key_no_entry tid v key w :
  no_entry config (store w) key →
  ∃ w', run env tid (validate_key config v key) w = (Returned v, w')
        ∧ store w' = store w.
Proof.
  intros (obj & Hget & Hno). unfold validate_key. cbv zeta.
  rewrite mbind_bind, run_bind, run_get, Hget. cbn beta iota.
  case_bool_decide as Hct; [rewrite (Hno Hct)|]; by eexists.
Qed.

Lemma validate_key_fails_early tid v key w :
  fails_early config (store w) key →
  (∀ e, expected v ≠ Object e) →
  (run env tid (validate_key config v key) w).1 = Threw TypeError.
Proof.
  intros Hearly Hv. unfold validate_key. cbv zeta.
  rewrite mbind_bind, run_bind, run_get.
  destruct Hearly as [->|(obj & -> & Hct & Hnull)]; cbn beta iota.
  - rewrite run_validate_catch. destruct (expected v) as [| |e]; try done.
    by destruct (Hv e).
  - rewrite bool_decide_eq_true_2 by done. rewrite Hnull.
    by rewrite run_validate_catch.
Qed.

(** A failure before any entry has been read is not reported: when the
    first key that is not skipped cannot be fetched or parses to [null],
    [validate] throws a [TypeError], because its [catch] reads
    [expected.url] of a variable that holds no entry. *)
Theorem validate_throws_before_first_entry tid w skipped key rest :
  pub_list (store w) = Some (skipped ++ key :: rest) →
  Forall (no_entry config (store w)) skipped →
  fails_early config (store w) key →
  (run env tid (validate config) w).1 = Threw TypeError.
Proof.
  intros Hlist Hskipped Hearly.
  unfold validate. rewrite mbind_bind, run_bind, run_list, Hlist.
  rewrite mbind_bind, run_bind.
  set (w1 := log tid OList true w).
  assert (store w1 = store w) as Hs by done. clearbody w1.
  enough ((run env tid
             (for_of (skipped ++ key :: rest)
                (mkValidation [] Undefined Undefined) (validate_key config))
             w1).1 = Threw TypeError) as Hloop.
  { destruct (run env tid (for_of _ _ _) w1) as [out w2].
    simpl in Hloop. by subst out. }
  clear Hlist. revert w1 Hs. induction Hskipped as [|k ks Hk _ IH]; intros w1 Hs.
  - cbn [app for_of]. rewrite run_bind.
    pose proof (validate_key_fails_early tid
                  (mkValidation [] Undefined Undefined) key w1) as Hkey.
    rewrite Hs in Hkey. specialize (Hkey Hearly).
    destruct (run env tid (validate_key config _ key) w1) as [out w2].
    simpl in Hkey. by rewrite Hkey.
  - cbn [app for_of]. rewrite run_bind.
    destruct (validate_key_no_entry tid
                (mkValidation [] Undefined Undefined) k w1)
      as (w2 & -> & Hs2); [by rewrite Hs|].
    apply IH. congruence.
Qed.
End ValidateProofs.

(** ** The HTTP server *)

Lemma after_nocase_app pattern word rest :
  Api.upcase word = Api.upcase pattern →
  Api.after_nocase pattern (word +:+ rest) = Some rest.
Proof.
  revert word. induction pattern as [|a pattern IH]; intros word Hw.
  - by destruct word.
  - destruct word as [|c word]; [done|]. simpl in Hw |- *.
    injection Hw as Hc Hw. rewrite bool_decide_eq_true_2 by done. by apply IH.
Qed.

Lemma dots_one_line s : Api.one_line s = true → Api.dots s = s.
Proof.
  induction s as [|c s IH]; [done|]. simpl.
  destruct (Api.is_line_terminator c); [done|]. simpl. intros Hs.
  by rewrite IH.
Qed.

(** A bearer header stands for its token: with the word "bearer" in any
    mix of upper and lower case, a space and a token that is not empty and
    has no line break, [requireAuth] answers as it does to a request
    without the header that has the token in its body; the
    [access_token] of the body is not looked at. *)
Theorem requireAuth_bearer getToken scope word token in_body :
  Api.upcase word = "BEARER "%string →
  token ≠ EmptyString →
  Api.one_line token = true →
  Api.requireAuth getToken scope (Api.mkRequest (Some (word +:+ token)) in_body)
  = Api.requireAuth getToken scope (Api.mkRequest None (Some token)).
Proof.
  intros Hword Hne Hline. unfold Api.requireAuth, Api.bearer.
  cbn [Api.authorization Api.access_token].
  rewrite (after_nocase_app "bearer " word token) by done.
  rewrite dots_one_line by done. by destruct token.
Qed.

(** ** Examples for the further properties *)

Section MoreExamples.
#[local] Existing Instances Demo.mem_publisher Demo.full_publisher
  Demo.helpers Demo.mfobj Demo.templates Sample.assert.

Lemma empty_site_regenerates :
  (run Demo.offline 0 (generateStreams Demo.config)
     (Demo.start Demo.empty_store)).1 = Returned ().
Proof. by vm_compute. Qed.

Lemma generateStreams_empty_index_witness :
  entries (Demo.start Demo.empty_store) = ∅
  ∧ (run Demo.offline 0 (generateStreams Demo.config)
       (Demo.start Demo.empty_store)).1 = Returned ()
  ∧ wrote (Demo.start Demo.empty_store)
      (run Demo.offline 0 (generateStreams Demo.config)
         (Demo.start Demo.empty_store)).2
      [html_put "/articles" (_renderIndex Demo.config ∅ "Articles" [])].
Proof.
  split; [reflexivity|]. split; [exact empty_site_regenerates|].
  exact (generateStreams_empty_index Demo.offline Demo.config 0
           (Demo.start Demo.empty_store) eq_refl empty_site_regenerates).
Defined.

Lemma nothing_there :
  entries Demo.site !! "https://example.com/nothing"%string = None.
Proof. by vm_compute. Qed.

Lemma delete_unknown_witness :
  entries Demo.site !! "https://example.com/nothing"%string = None
  ∧ let r := run Demo.offline 0
               (delete Demo.config "https://example.com/nothing") Demo.site in
    (∃ msg, r.1 = Threw (NotFound msg))
    ∧ entries r.2 = entries Demo.site ∧ store r.2 = store Demo.site
    ∧ ∃ evs, trace r.2 = evs ++ trace Demo.site
             ∧ Forall (λ ev, is_write (ev_op ev) = false) evs.
Proof.
  split; [exact nothing_there|].
  exact (delete_unknown Demo.offline Demo.config 0 Demo.site
           "https://example.com/nothing" nothing_there).
Defined.

Lemma one_there : entries Demo.site !! url Demo.one = Some Demo.one.
Proof. by vm_compute. Qed.

Lemma delete_known_witness :
  entries Demo.site !! url Demo.one = Some Demo.one
  ∧ let r := run Demo.offline 0 (delete Demo.config (url Demo.one))
               Demo.site in
    match pub_delete (store Demo.site) (getPath Demo.one)
            (Some "text/html"%string) with
    | Some _ =>
        entries r.2 = base.delete (url Demo.one) (entries Demo.site)
        ∧ (∃ msg, (run Demo.offline 0 (get (url Demo.one)) r.2).1
                  = Threw (NotFound msg))
        ∧ (r.1 = Returned () ∨ ∃ key, r.1 = Threw (StoreError key))
    | None =>
        r.1 = Threw (StoreError (getPath Demo.one))
        ∧ entries r.2 = entries Demo.site ∧ store r.2 = store Demo.site
    end.
Proof.
  split; [exact one_there|].
  exact (delete_known Demo.offline Demo.config 0 Demo.site (url Demo.one)
           Demo.one one_there).
Defined.

Lemma mem_exists_listed (s : Demo.MemStore) key :
  pub_exists s key = true → key ∈ (map_to_list (Demo.objects s)).*1.
Proof.
  intros [obj Hobj]%bool_decide_eq_true.
  apply list_elem_of_fmap. exists (key, obj). split; [done|].
  by apply elem_of_map_to_list.
Qed.

Lemma getNextAvailable_finite_witness :
  (∀ key, pub_exists (store Demo.after_hello) key = true →
          key ∈ (map_to_list (Demo.objects (store Demo.after_hello))).*1)
  ∧ ∃ k, k ≤ length (map_to_list (Demo.objects (store Demo.after_hello))).*1
       ∧ pub_exists (store Demo.after_hello)
           (candidate "/2024/3/2/hello" Blank k) = false
       ∧ (∀ i, i < k →
            pub_exists (store Demo.after_hello)
              (candidate "/2024/3/2/hello" Blank i) = true)
       ∧ ∀ fuel, k < fuel →
           (run Demo.offline 0 (getNextAvailable fuel Blank "/2024/3/2/hello")
              Demo.after_hello).1
             = Returned (candidate "/2024/3/2/hello" Blank k).
Proof.
  split; [exact (mem_exists_listed (store Demo.after_hello))|].
  exact (getNextAvailable_finite Demo.offline 0 Demo.after_hello Blank
           "/2024/3/2/hello" _ (mem_exists_listed (store Demo.after_hello))).
Defined.

Lemma first_number_taken i :
  i < 1 →
  pub_exists (store (Sample.world Sample.numbered))
    ((datepart Demo.day +:+ "/") +:+ pretty (Datatypes.S i)) = true.
Proof. intros Hi. replace i with 0 by lia. by vm_compute. Qed.

Lemma second_number_free :
  pub_exists (store (Sample.world Sample.numbered))
    ((datepart Demo.day +:+ "/") +:+ pretty 2) = false.
Proof. by vm_compute. Qed.

Lemma getSlug_nameless_witness :
  (∀ i, i < 1 →
     pub_exists (store (Sample.world Sample.numbered))
       ((datepart Demo.day +:+ "/") +:+ pretty (Datatypes.S i)) = true)
  ∧ pub_exists (store (Sample.world Sample.numbered))
      ((datepart Demo.day +:+ "/") +:+ pretty 2) = false
  ∧ 1 < 5
  ∧ (run Demo.offline 0 (getSlug 5 None Demo.day)
       (Sample.world Sample.numbered)).1
    = Returned ((datepart Demo.day +:+ "/") +:+ pretty 2).
Proof.
  split; [exact first_number_taken|]. split; [exact second_number_free|].
  split; [exact one_lt_five|].
  exact (getSlug_nameless Demo.offline 0 (Sample.world Sample.numbered) 5
           Demo.day 1 first_number_taken second_number_free one_lt_five).
Defined.

Lemma crowded_has_all k :
  pub_exists (store Sample.crowded)
    (candidate (slug_start (Micropub.name Demo.hello)
                  (env_now Demo.offline (length (trace Sample.crowded) + 1))).2
       (slug_start (Micropub.name Demo.hello)
          (env_now Demo.offline (length (trace Sample.crowded) + 1))).1 k)
  = true.
Proof. done. Qed.

Lemma publish_spins_holding_mutex_witness :
  locked Sample.crowded = false
  ∧ (∀ k, pub_exists (store Sample.crowded)
            (candidate
               (slug_start (Micropub.name Demo.hello)
                  (env_now Demo.offline (length (trace Sample.crowded) + 1))).2
               (slug_start (Micropub.name Demo.hello)
                  (env_now Demo.offline (length (trace Sample.crowded) + 1))).1
               k) = true)
  ∧ let r := run Demo.offline 0 (publish Demo.config 5 Demo.hello)
               Sample.crowded in
    r.1 = Diverged ∧ locked r.2 = true.
Proof.
  split; [reflexivity|]. split; [exact crowded_has_all|].
  exact (publish_spins_holding_mutex Demo.offline Demo.config 0 Sample.crowded
           5 Demo.hello eq_refl crowded_has_all).
Defined.

Lemma hello_published :
  (run Demo.offline 0 (publish Demo.config 5 Demo.hello)
     (Demo.start Demo.empty_store)).1 = Returned Sample.published_hello.
Proof. by vm_compute. Qed.

Lemma publish_returns_indexed_witness :
  let r := run Demo.offline 0 (publish Demo.config 5 Demo.hello)
             (Demo.start Demo.empty_store) in
  r.1 = Returned Sample.published_hello
  ∧ entries r.2 !! url Sample.published_hello = Some Sample.published_hello
  ∧ locked r.2 = false.
Proof.
  split; [exact hello_published|].
  exact (publish_returns_indexed Demo.offline Demo.config 0
           (Demo.start Demo.empty_store) 5 Demo.hello Sample.published_hello
           hello_published).
Defined.

Lemma no_embeds t link : env_oembed Demo.offline t link = None.
Proof. done. Qed.

Lemma embedMentions_all_fail_witness :
  (∀ t link, env_oembed Demo.offline t link = None)
  ∧ (run Demo.offline 0 (embedMentions Demo.answer) Demo.site).1
    = Returned Demo.answer.
Proof.
  split; [exact no_embeds|].
  exact (embedMentions_all_fail Demo.offline 0 Demo.site Demo.answer
           no_embeds).
Defined.

Lemma reply_fetched :
  env_fetch Demo.web (length (trace Demo.site) + 2) Demo.elsewhere []
  = Some Demo.reply_elsewhere.
Proof. by vm_compute. Qed.

Lemma reply_links_to_one : url Demo.one ∈ getMentions Demo.reply_elsewhere.
Proof. apply list_elem_of_here. Qed.

Lemma receiveWebmention_accepts_witness :
  locked Demo.site = false
  ∧ entries Demo.site !! url Demo.one = Some Demo.one
  ∧ env_fetch Demo.web (length (trace Demo.site) + 2) Demo.elsewhere []
    = Some Demo.reply_elsewhere
  ∧ url Demo.one ∈ getMentions Demo.reply_elsewhere
  ∧ let te' := addChild Demo.one Demo.reply_elsewhere in
    let m' := <[url Demo.one := te']> (entries Demo.site) in
    let key := url_pathname (url te') in
    let r := run Demo.web 0
               (receiveWebmention Demo.config Demo.elsewhere (url Demo.one))
               Demo.site in
    entries r.2 = m' ∧ locked r.2 = false
    ∧ match pub_put (store Demo.site) key
              (Str (_renderEntry Demo.config m' te'))
              (Some "text/html"%string) with
      | None => r.1 = Threw (StoreError key) ∧ store r.2 = store Demo.site
      | Some s1 =>
          match author Demo.reply_elsewhere with
          | None => r.1 = Threw TypeError ∧ store r.2 = s1
          | Some who =>
              let msg := commit_message who (name Demo.reply_elsewhere)
                           (Demo.elsewhere +:+ " -> " +:+ url Demo.one) in
              match pub_commit s1 msg with
              | Some s2 => r.1 = Returned () ∧ store r.2 = s2
              | None => r.1 = Threw (StoreError msg) ∧ store r.2 = s1
              end
          end
      end.
Proof.
  split; [reflexivity|]. split; [exact one_there|].
  split; [exact reply_fetched|]. split; [exact reply_links_to_one|].
  exact (receiveWebmention_accepts Demo.web Demo.config 0 Demo.site
           Demo.elsewhere (url Demo.one) Demo.one Demo.reply_elsewhere
           eq_refl one_there reply_fetched reply_links_to_one).
Defined.

Lemma index_stays_keyed_witness :
  index_call Demo.config (call (update Demo.config Demo.essay))
  ∧ keyed (entries Demo.site)
  ∧ keyed (entries (run Demo.offline 0
                      (call (update Demo.config Demo.essay)) Demo.site).2).
Proof.
  split; [exact (index_update Demo.config Demo.essay)|].
  split; [exact keyed_site_index|].
  exact (index_stays_keyed Demo.offline Demo.config 0
           (call (update Demo.config Demo.essay)) Demo.site
           (index_update Demo.config Demo.essay) keyed_site_index).
Defined.

Lemma child_keeps_address t s : url (addChild t s) = url t.
Proof. done. Qed.

Lemma receiveWebmention_keeps_keyed_witness :
  (∀ t s, url (addChild t s) = url t)
  ∧ keyed (entries Demo.site)
  ∧ keyed (entries
             (run Demo.web 0
                (receiveWebmention Demo.config Demo.elsewhere (url Demo.one))
                Demo.site).2).
Proof.
  split; [exact child_keeps_address|]. split; [exact keyed_site_index|].
  exact (receiveWebmention_keeps_keyed Demo.web Demo.config 0 Demo.site
           Demo.elsewhere (url Demo.one) child_keeps_address keyed_site_index).
Defined.

Lemma stored_keys :
  pub_list (store (Sample.world Sample.stored))
  = Some ["/css/site.css"; "/2024/3/2/hello"]%string.
Proof. by vm_compute. Qed.

Lemma stored_round_trips :
  Forall (round_trips Demo.config (store (Sample.world Sample.stored))
            (entries (Sample.world Sample.stored)))
    ["/css/site.css"; "/2024/3/2/hello"]%string.
Proof.
  repeat constructor.
  - eexists. split; [by vm_compute|]. intros Hct. by vm_compute in Hct.
  - eexists. split; [by vm_compute|]. intros _.
    assert (getEntryFromHtml (Str "Hello")
              (url_resolve (SiteConfig.url Demo.config) "/2024/3/2/hello")
            = Parsed Sample.published_hello) as Hparse by by vm_compute.
    cbn [Body]. rewrite Hparse. intros _.
    exists Sample.published_hello. split; by vm_compute.
Qed.

Lemma validate_clean_witness :
  pub_list (store (Sample.world Sample.stored))
  = Some ["/css/site.css"; "/2024/3/2/hello"]%string
  ∧ Forall (round_trips Demo.config (store (Sample.world Sample.stored))
              (entries (Sample.world Sample.stored)))
      ["/css/site.css"; "/2024/3/2/hello"]%string
  ∧ (run Demo.offline 0 (validate Demo.config)
       (Sample.world Sample.stored)).1 = Returned [].
Proof.
  split; [exact stored_keys|]. split; [exact stored_round_trips|].
  exact (validate_clean Demo.offline Demo.config 0
           (Sample.world Sample.stored) _ stored_keys stored_round_trips).
Defined.

Lemma blank_keys :
  pub_list (store (Sample.world Sample.blank))
  = Some ([] ++ "/blank"%string :: []).
Proof. by vm_compute. Qed.

Lemma blank_fails_early :
  fails_early Demo.config (store (Sample.world Sample.blank)) "/blank".
Proof. right. eexists. split; [by vm_compute|]. by split. Qed.

Lemma validate_throws_before_first_entry_witness :
  pub_list (store (Sample.world Sample.blank))
  = Some ([] ++ "/blank"%string :: [])
  ∧ Forall (no_entry Demo.config (store (Sample.world Sample.blank))) []
  ∧ fails_early Demo.config (store (Sample.world Sample.blank)) "/blank"
  ∧ (run Demo.offline 0 (validate Demo.config)
       (Sample.world Sample.blank)).1 = Threw TypeError.
Proof.
  split; [exact blank_keys|]. split; [exact (Forall_nil_2 _)|].
  split; [exact blank_fails_early|].
  exact (validate_throws_before_first_entry Demo.offline Demo.config 0
           (Sample.world Sample.blank) [] "/blank" [] blank_keys
           (Forall_nil_2 _) blank_fails_early).
Defined.

Lemma token_not_empty : "s3cret"%string ≠ EmptyString.
Proof. done. Qed.

Lemma requireAuth_bearer_witness :
  Api.upcase "Bearer " = "BEARER "%string
  ∧ "s3cret"%string ≠ EmptyString
  ∧ Api.one_line "s3cret" = true
  ∧ Api.requireAuth Sample.tokens "post"
      (Api.mkRequest (Some ("Bearer " +:+ "s3cret")%string)
         (Some "other"%string))
    = Api.requireAuth Sample.tokens "post"
        (Api.mkRequest None (Some "s3cret"%string)).
Proof.
  split; [reflexivity|]. split; [exact token_not_empty|].
  split; [reflexivity|].
  exact (requireAuth_bearer Sample.tokens "post" "Bearer " "s3cret"
           (Some "other"%string) eq_refl token_not_empty eq_refl).
Defined.
End MoreExamples.
